(** * PatternMgr: the AIML pattern-matching trie of python-aiml

    A shallow embedding of [src/aiml/PatternMgr.py]: the nested
    dictionary that stores the patterns, [add], the recursive matcher
    [_match] with its public wrapper [match], the wildcard locator
    [wildcard], and [save]/[restore].

    Modelling conventions.
    - Python text is a [string] of 8-bit characters, the code points
      below 256; [upper] is the ASCII upper-casing, and the white space of
      [split], [strip] and the [\s] of the regular expressions is the
      white space among these code points.
    - A Python dictionary is an association list with unique keys, in
      insertion order; the trie is the nested type [value], so that the
      recursion of [_match] into [root[key]] stays structural.
    - A template is an opaque value of a type [T]; it is never [None].
    - An exception is the outcome [Raise]. *)

From Stdlib Require Import String Ascii List Bool Arith ZArith Lia.
Import ListNotations.

Set Warnings "-register-all".

Local Open Scope string_scope.
Local Open Scope list_scope.
Local Open Scope nat_scope.

(** ** Outcomes *)

Inductive exn : Type :=
| ValueError       (* raised by [list.index] and by the unknown-kind branch *)
| IndexError       (* a list subscript out of range *)
| TemplateAsDict   (* a stored template used where a dictionary is expected *)
| LoadError.       (* raised by [marshal.load] *)

Inductive res (A : Type) : Type :=
| Ok (a : A)
| Raise (e : exn).

Arguments Ok {A} a.
Arguments Raise {A} e.

Definition bind {A B : Type} (r : res A) (f : A -> res B) : res B :=
  match r with
  | Ok a => f a
  | Raise e => Raise e
  end.

Notation "x <- r ;; k" := (bind r (fun x => k))
  (at level 61, r at next level, right associativity).

(** ** Text *)

Module Text.

Definition chars (s : string) : list ascii := list_ascii_of_string s.
Definition text (l : list ascii) : string := string_of_list_ascii l.

(** [str.isspace] on the code points below 256: tab, line feed, vertical
    tab, form feed, carriage return, the four separators 28..31, the
    space, the next-line character 133 and the no-break space 160. *)
Definition is_space (c : ascii) : bool :=
  let n := nat_of_ascii c in
  ((9 <=? n) && (n <=? 13)) || ((28 <=? n) && (n <=? 32))
  || (n =? 133) || (n =? 160).

Definition upper_char (c : ascii) : ascii :=
  let n := nat_of_ascii c in
  if (97 <=? n) && (n <=? 122) then ascii_of_nat (n - 32) else c.

(** [s.upper()] *)
Definition upper (s : string) : string := text (map upper_char (chars s)).

(** The punctuation of [__init__]; the double quote is character 34. *)
Definition punctuation : list ascii :=
  chars "`~!@#$%^&*()-_=+[{]}\|;:'" ++ [ascii_of_nat 34] ++ chars ",<.>/?".

Definition is_punct (c : ascii) : bool := existsb (Ascii.eqb c) punctuation.

(** [re.sub(self._puncStripRE, " ", s)] *)
Definition strip_punct (s : string) : string :=
  text (map (fun c => if is_punct c then " "%char else c) (chars s)).

(** [re.sub(self._whitespaceRE, " ", s)]: every maximal run of white
    space becomes one space. *)
Fixpoint collapse_go (in_run : bool) (l : list ascii) : list ascii :=
  match l with
  | [] => []
  | c :: l' =>
      if is_space c
      then (if in_run then collapse_go true l' else " "%char :: collapse_go true l')
      else c :: collapse_go false l'
  end.

Definition collapse_ws (s : string) : string := text (collapse_go false (chars s)).

(** [s.split()]: the maximal runs of characters that are not white space. *)
Fixpoint split_go (acc : list ascii) (l : list ascii) : list string :=
  match l with
  | [] => match acc with [] => [] | _ => [text (rev acc)] end
  | c :: l' =>
      if is_space c
      then match acc with
           | [] => split_go [] l'
           | _ => text (rev acc) :: split_go [] l'
           end
      else split_go (c :: acc) l'
  end.

Definition split (s : string) : list string := split_go [] (chars s).

Fixpoint lstrip (l : list ascii) : list ascii :=
  match l with
  | c :: l' => if is_space c then lstrip l' else l
  | [] => []
  end.

(** [s.strip()] *)
Definition strip (s : string) : string :=
  text (rev (lstrip (rev (lstrip (chars s))))).

(** [' '.join(ws)] *)
Fixpoint join (ws : list string) : string :=
  match ws with
  | [] => EmptyString
  | [w] => w
  | w :: ws' => (w ++ " " ++ join ws')%string
  end.

End Text.

(** ** The trie *)

Section Trie.

(** The template payload; the pattern manager never looks inside it. *)
Context {T : Type}.

(** What a dictionary of the trie can hold under a key: a child
    dictionary, or (under [_TEMPLATE]) a template. *)
Inductive value : Type :=
| Node (d : list (string * value))
| Tmpl (t : T).

Definition dict : Type := list (string * value).

(** The special dictionary keys. *)
Definition _UNDERSCORE : string := "0".
Definition _STAR       : string := "1".
Definition _TEMPLATE   : string := "2".
Definition _THAT       : string := "3".
Definition _TOPIC      : string := "4".
Definition _BOT_NAME   : string := "5".
Definition _CARET      : string := "6".

(** [d.get(k)] *)
Fixpoint get (k : string) (d : dict) : option value :=
  match d with
  | [] => None
  | (k', v) :: d' => if String.eqb k k' then Some v else get k d'
  end.

(** [k in d] *)
Definition mem (k : string) (d : dict) : bool :=
  match get k d with Some _ => true | None => false end.

(** [d[k] = v]: in place when the key is there, at the end otherwise. *)
Fixpoint set (k : string) (v : value) (d : dict) : dict :=
  match d with
  | [] => [(k, v)]
  | (k', v') :: d' =>
      if String.eqb k k' then (k', v) :: d' else (k', v') :: set k v d'
  end.

(** [if k in d: f(d[k]) else: absent], written as a walk over the
    dictionary so that [f] receives a sub-term of it. *)
Definition with_child {R : Type} (k : string) (absent : R) (f : value -> R)
  : dict -> R :=
  fix go (d : dict) : R :=
    match d with
    | [] => absent
    | (k', v) :: d' => if String.eqb k k' then f v else go d'
    end.

(** A match: the path of keys and the template found at its end. *)
Definition found : Type := list string * value.

(** [for j in range(len(l)+1): suf = l[j:]; r = f(suf); if r succeeded: return r] *)
Fixpoint try_suffixes (f : list string -> res (option found)) (l : list string)
  : res (option found) :=
  match f l with
  | Ok None =>
      match l with
      | [] => Ok None
      | _ :: l' => try_suffixes f l'
      end
  | r => r
  end.

(** [newPattern = [k] + pattern] on a successful result. *)
Definition prepend (k : string) (r : res (option found)) : res (option found) :=
  match r with
  | Ok (Some (p, t)) => Ok (Some (k :: p, t))
  | other => other
  end.

(** [try: template = root[self._TEMPLATE] except KeyError: template = None],
    with the empty pattern. *)
Definition template_here (d : dict) : res (option found) :=
  match get _TEMPLATE d with
  | Some v => Ok (Some ([], v))
  | None => Ok None
  end.

Section Matcher.

Variable botName : string.

(** [PatternMgr._match].  The recursion always enters a child of [root].
    A root that is a template is reached only through an input word equal
    to the key [_TEMPLATE]; what Python does with it depends on the type of
    the template, and the model stops with [TemplateAsDict]. *)
Fixpoint _match (root : value) (words thatWords topicWords : list string)
  {struct root} : res (option found) :=
  match root with
  | Tmpl _ => Raise TemplateAsDict
  | Node d =>
      match words with
      | [] =>
          with_child _CARET
            (* no caret here: *)
            (match thatWords with
             | _ :: _ =>
                 with_child _THAT (template_here d)
                   (fun c =>
                      match prepend _THAT (_match c thatWords [] topicWords) with
                      | Ok None => template_here d
                      | r => r
                      end) d
             | [] =>
                 match topicWords with
                 | _ :: _ =>
                     with_child _TOPIC (template_here d)
                       (fun c =>
                          match prepend _TOPIC (_match c topicWords [] []) with
                          | Ok None => template_here d
                          | r => r
                          end) d
                 | [] => template_here d
                 end
             end)
            (fun c =>
               match prepend _CARET (_match c [] thatWords topicWords) with
               | Ok None => template_here d
               | r => r
               end) d
      | first :: suffix =>
          (* check underscore *)
          match with_child _UNDERSCORE (Ok None)
                  (fun c => prepend _UNDERSCORE
                     (try_suffixes (fun suf => _match c suf thatWords topicWords) suffix)) d
          with
          | Ok None =>
              (* check first *)
              match with_child first (Ok None)
                      (fun c => prepend first (_match c suffix thatWords topicWords)) d
              with
              | Ok None =>
                  (* check bot name *)
                  match (if mem _BOT_NAME d && String.eqb first botName
                         then with_child _BOT_NAME (Ok None)
                                (fun c => prepend first
                                   (_match c suffix thatWords topicWords)) d
                         else Ok None)
                  with
                  | Ok None =>
                      (* check caret *)
                      match with_child _CARET (Ok None)
                              (fun c => prepend _CARET
                                 (try_suffixes
                                    (fun suf => _match c suf thatWords topicWords)
                                    (first :: suffix))) d
                      with
                      | Ok None =>
                          (* check star *)
                          with_child _STAR (Ok None)
                            (fun c => prepend _STAR
                               (try_suffixes
                                  (fun suf => _match c suf thatWords topicWords)
                                  suffix)) d
                      | r => r
                      end
                  | r => r
                  end
              | r => r
              end
          | r => r
          end
      end
  end.

End Matcher.

(** ** The pattern manager *)

(** The attributes set by [__init__]; the two regular expressions are
    constants and live in [Text]. *)
Record PatternMgr : Type := mkPatternMgr {
  _root : dict;
  _templateCount : nat;
  _botName : string
}.

(** [PatternMgr.__init__] *)
Definition init : PatternMgr :=
  {| _root := []; _templateCount := 0; _botName := "Nameless" |}.

(** [PatternMgr.numTemplates] *)
Definition numTemplates (self : PatternMgr) : nat := _templateCount self.

(** [PatternMgr.setBotName] *)
Definition setBotName (self : PatternMgr) (name : string) : PatternMgr :=
  {| _root := _root self;
     _templateCount := _templateCount self;
     _botName := Text.join (Text.split name) |}.

(** The key that [add] uses for a word of the main pattern. *)
Definition pattern_key (word : string) : string :=
  if String.eqb word "_" then _UNDERSCORE
  else if String.eqb word "*" then _STAR
  else if String.eqb word "^" then _CARET
  else if String.eqb word "BOT_NAME" then _BOT_NAME
  else word.

(** The key that [add] uses for a word of the that and topic patterns. *)
Definition section_key (word : string) : string :=
  if String.eqb word "_" then _UNDERSCORE
  else if String.eqb word "*" then _STAR
  else word.

(** The keys that [add] walks through, from the root to the node that
    receives the template. *)
Definition add_keys (data : string * string * string) : list string :=
  let '(pattern, that, topic) := data in
  map pattern_key (Text.split pattern)
  ++ (if 0 <? String.length that
      then _THAT :: map section_key (Text.split that) else [])
  ++ (if 0 <? String.length topic
      then _TOPIC :: map section_key (Text.split topic) else []).

(** The descent of [add]: [if key not in node: node[key] = {}] then
    [node = node[key]] for each key, and at the end the template is
    stored.  The result is the updated node and whether [_TEMPLATE] was
    absent from the last node.  When [node[key]] is a template the next
    operation of the source applies [in] to it: [TemplateAsDict]. *)
Fixpoint put (keys : list string) (template : T) (node : dict)
  : res (dict * bool) :=
  match keys with
  | [] => Ok (set _TEMPLATE (Tmpl template) node, negb (mem _TEMPLATE node))
  | key :: keys' =>
      match get key node with
      | None =>
          r <- put keys' template [] ;;
          Ok (set key (Node (fst r)) node, snd r)
      | Some (Node child) =>
          r <- put keys' template child ;;
          Ok (set key (Node (fst r)) node, snd r)
      | Some (Tmpl _) => Raise TemplateAsDict
      end
  end.

(** [PatternMgr.add] *)
Definition add (self : PatternMgr) (data : string * string * string)
  (template : T) : res PatternMgr :=
  r <- put (add_keys data) template (_root self) ;;
  Ok {| _root := fst r;
        _templateCount :=
          if snd r then _templateCount self + 1 else _templateCount self;
        _botName := _botName self |}.

(** ['that' must never be empty] *)
Definition or_dummy (dummy s : string) : string :=
  if String.eqb (Text.strip s) EmptyString then dummy else s.

Definition that_of (that : string) : string := or_dummy "ULTRABOGUSDUMMYTHAT" that.
Definition topic_of (topic : string) : string := or_dummy "ULTRABOGUSDUMMYTOPIC" topic.

(** [PatternMgr.match] *)
Definition match_ (self : PatternMgr) (pattern that topic : string)
  : res (option found) :=
  if String.length pattern =? 0 then Ok None
  else
    let input_ := Text.strip_punct (Text.upper pattern) in
    let thatInput :=
      Text.collapse_ws (Text.strip_punct (Text.upper (that_of that))) in
    let topicInput := Text.strip_punct (Text.upper (topic_of topic)) in
    _match (_botName self) (Node (_root self))
      (Text.split input_) (Text.split thatInput) (Text.split topicInput).

(** ** The wildcard locator *)

Inductive wildcardType : Type := caret | star | thatstar | topicstar.

Definition wildcardType_of (s : string) : option wildcardType :=
  if String.eqb s "caret" then Some caret
  else if String.eqb s "star" then Some star
  else if String.eqb s "thatstar" then Some thatstar
  else if String.eqb s "topicstar" then Some topicstar
  else None.

(** ['star' in wildcardType] and ['caret' in wildcardType] *)
Definition has_star (w : wildcardType) : bool :=
  match w with caret => false | _ => true end.
Definition has_caret (w : wildcardType) : bool :=
  match w with caret => true | _ => false end.

(** [l.index(x)] *)
Fixpoint index (x : string) (l : list string) : res nat :=
  match l with
  | [] => Raise ValueError
  | y :: l' => if String.eqb y x then Ok 0 else n <- index x l' ;; Ok (S n)
  end.

(** [l[a:b]] for [0 <= a] and [0 <= b] *)
Definition slice {A : Type} (l : list A) (a b : nat) : list A :=
  firstn (b - a) (skipn a l).

(** How the inner loop [for k in range(i, len(words))] was left: at its
    first turn because the wildcard ends the pattern, at the word that
    resumes the pattern, or without a [break]. *)
Inductive scanned : Type :=
| AtEnd (k : nat)
| Resumed (k : nat)
| Exhausted (k : nat).

Section Locator.

Variables (patMatch words : list string).
Variable wanted : wildcardType.
Variable index_ : Z.

(** The inner loop; [last] is the value [k] keeps when the range is empty. *)
Fixpoint scan (j : nat) (ks : list nat) (last : nat) : res scanned :=
  match ks with
  | [] => Ok (Exhausted last)
  | k :: ks' =>
      if j + 1 =? length patMatch then Ok (AtEnd k)
      else
        match nth_error patMatch (j + 1), nth_error words k with
        | Some p, Some w =>
            if String.eqb p w then Ok (Resumed k) else scan j ks' k
        | _, _ => Raise IndexError
        end
  end.

Definition end_after (s : scanned) (end_ : Z) : Z :=
  match s with
  | AtEnd _ => Z.of_nat (length words)
  | Resumed k => Z.of_nat k - 1
  | Exhausted _ => end_
  end.

Definition k_after (s : scanned) : nat :=
  match s with AtEnd k | Resumed k | Exhausted k => k end.

(** The loop [for i in range(len(words))] over the remaining values
    [range] of [i].  [foundTheRightWildcard] is false whenever a turn starts (the
    loop is left as soon as it is set), so the result is [Some (start, end)]
    at the [break] that follows its setting and [None] when the loop ends
    otherwise. *)
Fixpoint locate (range : list nat) (j k start : nat) (end_ : Z)
  (numStars numCarets : nat) : res (option (nat * Z)) :=
  match range with
  | [] => Ok None
  | i :: range' =>
      if i <? k then locate range' j k start end_ numStars numCarets
      else if j =? length patMatch then Ok None
      else
        match nth_error patMatch j with
        | None => Raise IndexError
        | Some p =>
            if String.eqb p _STAR || String.eqb p _UNDERSCORE then
              let numStars := numStars + 1 in
              let foundTheRightWildcard :=
                (Z.of_nat numStars =? index_)%Z && has_star wanted in
              let start := i in
              s <- scan j (seq i (length words - i)) k ;;
              if foundTheRightWildcard
              then Ok (Some (start, end_after s end_))
              else locate range' (j + 1) (k_after s) start (end_after s end_)
                     numStars numCarets
            else if String.eqb p _CARET then
              let numCarets := numCarets + 1 in
              let foundTheRightWildcard :=
                (Z.of_nat numCarets =? index_)%Z && has_caret wanted in
              let start := i in
              s <- scan j (seq i (length words - i)) k ;;
              let j := match s with
                       | Resumed k' => if i =? k' then j + 1 else j
                       | _ => j
                       end in
              if foundTheRightWildcard
              then Ok (Some (start, end_after s end_))
              else locate range' (j + 1) (k_after s) start (end_after s end_)
                     numStars numCarets
            else locate range' (j + 1) k start end_ numStars numCarets
        end
  end.

End Locator.

(** The part of the matched pattern that [wildcard] walks, by kind. *)
Definition portion (w : wildcardType) (patMatch : list string)
  : res (list string) :=
  match w with
  | caret | star =>
      n <- index _THAT patMatch ;; Ok (firstn n patMatch)
  | thatstar =>
      a <- index _THAT patMatch ;;
      b <- index _TOPIC patMatch ;;
      Ok (slice patMatch (a + 1) b)
  | topicstar =>
      n <- index _TOPIC patMatch ;; Ok (skipn (n + 1) patMatch)
  end.

(** [PatternMgr.wildcard] *)
Definition wildcard (self : PatternMgr) (kind : string)
  (pattern that topic : string) (index_ : Z) : res string :=
  let input_ :=
    Text.collapse_ws (Text.strip_punct (Text.upper pattern)) in
  let that := that_of that in
  let thatInput := Text.collapse_ws (Text.strip_punct (Text.upper that)) in
  let topic := topic_of topic in
  let topicInput := Text.collapse_ws (Text.strip_punct (Text.upper topic)) in
  m <- _match (_botName self) (Node (_root self))
         (Text.split input_) (Text.split thatInput) (Text.split topicInput) ;;
  match m with
  | None => Ok EmptyString
  | Some (patMatch, _) =>
      match wildcardType_of kind with
      | None => Raise ValueError
      | Some w =>
          patMatch <- portion w patMatch ;;
          let words :=
            match w with
            | caret | star => Text.split input_
            | thatstar => Text.split thatInput
            | topicstar => Text.split topicInput
            end in
          r <- locate patMatch words w index_
                 (seq 0 (length words)) 0 0 0 0%Z 0 0 ;;
          match r with
          | Some (start, end_) =>
              let original :=
                match w with
                | caret | star => pattern
                | thatstar => that
                | topicstar => topic
                end in
              Ok (Text.join
                    (slice (Text.split original) start (Z.to_nat (end_ + 1))))
          | None => Ok EmptyString
          end
      end
  end.

End Trie.

Arguments value T : clear implicits.
Arguments dict T : clear implicits.
Arguments PatternMgr T : clear implicits.
Arguments found T : clear implicits.

(** ** Persistence *)

Section Persistence.

Context {T : Type}.

(** The objects that [save] hands to [marshal.dump]. *)
Inductive object : Type :=
| PyInt (n : nat)
| PyUnicode (s : string)
| PyDict (d : dict T).

(** The [marshal] module is not part of the source: a file is a list of
    [chunk]s, [marshal.dump] appends the chunks of an object to the file,
    or raises [ValueError] at an object it cannot write (a template of a
    type it does not know, a trie nested too deeply), and [marshal.load]
    reads one object from the front of what is left of the file, or
    fails. *)
Variable chunk : Type.
Variable marshal_writes : object -> bool.
Variable marshal_dump : object -> list chunk.
Variable marshal_load : list chunk -> option (object * list chunk).



(** [PatternMgr.restore] from the contents of the file: each attribute is
    assigned as soon as it is loaded, so that a failure leaves the earlier
    assignments in place.  An object of another type than [save] writes at
    that place is treated as a failure of the load. *)
Definition restore (self : PatternMgr T) (file : list chunk)
  : PatternMgr T * option exn :=
  match marshal_load file with
  | Some (PyInt n, file) =>
      let self := {| _root := _root self; _templateCount := n;
                     _botName := _botName self |} in
      match marshal_load file with
      | Some (PyUnicode s, file) =>
          let self := {| _root := _root self;
                         _templateCount := _templateCount self;
                         _botName := s |} in
          match marshal_load file with
          | Some (PyDict d, _) =>
              ({| _root := d; _templateCount := _templateCount self;
                  _botName := _botName self |}, None)
          | _ => (self, Some LoadError)
          end
      | _ => (self, Some LoadError)
      end
  | _ => (self, Some LoadError)
  end.

End Persistence.

Arguments object T : clear implicits.

(** * Properties *)

(** ** Dictionaries *)

Section DictFacts.

Context {T : Type}.
Implicit Types (d : dict T) (v c : value T) (k : string).

Lemma with_child_get {R : Type} k (absent : R) (f : value T -> R) d :
  with_child k absent f d =
  match get k d with Some c => f c | None => absent end.
Proof.
  induction d as [|[k' v] d IH]; simpl; [reflexivity|].
  destruct (String.eqb k k'); [reflexivity | exact IH].
Qed.

Lemma get_set_same k v d : get k (set k v d) = Some v.
Proof.
  induction d as [|[k' v'] d IH]; simpl.
  - now rewrite String.eqb_refl.
  - destruct (String.eqb k k') eqn:E; simpl; rewrite E; [reflexivity | exact IH].
Qed.

Lemma get_set_other k k' v d : k' <> k -> get k' (set k v d) = get k' d.
Proof.
  intros Hne. induction d as [|[k0 v0] d IH]; simpl.
  - destruct (String.eqb_spec k' k); [contradiction | reflexivity].
  - destruct (String.eqb_spec k k0) as [->|Hk]; simpl.
    + destruct (String.eqb_spec k' k0); [contradiction | reflexivity].
    + destruct (String.eqb k' k0); [reflexivity | exact IH].
Qed.

Lemma mem_set_same k v d : mem k (set k v d) = true.
Proof. unfold mem. now rewrite get_set_same. Qed.

Lemma mem_set_other k k' v d : k' <> k -> mem k' (set k v d) = mem k' d.
Proof. intros H. unfold mem. now rewrite get_set_other. Qed.

Lemma get_In k v d : get k d = Some v -> In (k, v) d.
Proof.
  induction d as [|[k' v'] d IH]; simpl; [discriminate|].
  destruct (String.eqb_spec k k') as [->|_].
  - intros [= ->]. now left.
  - intros H. right. auto.
Qed.

(** Induction on the trie: a property of a dictionary may rely on the
    property of every child that a key of the dictionary leads to. *)
Fixpoint value_children_ind (P : value T -> Prop)
  (Htmpl : forall t, P (Tmpl t))
  (Hnode : forall d, (forall k c, get k d = Some c -> P c) -> P (Node d))
  (v : value T) {struct v} : P v.
Proof.
  destruct v as [d|t]; [|apply Htmpl].
  apply Hnode.
  induction d as [|[k' v'] d IH]; simpl; intros k c; [discriminate|].
  destruct (String.eqb k k').
  - intros [= <-]. apply (value_children_ind P Htmpl Hnode).
  - apply IH.
Defined.

End DictFacts.

(** ** The matcher, one level at a time *)

Section MatcherFacts.

Context {T : Type}.
Variable botName : string.
Implicit Types (d : dict T) (root c t : value T).
Implicit Types (words suffix thatWords topicWords path : list string).
Implicit Types (first : string).

(** What the source does when the word list is empty. *)
Definition end_of_input (d : dict T) thatWords topicWords
  : res (option (found T)) :=
  match get _CARET d with
  | Some c =>
      match prepend _CARET (_match botName c [] thatWords topicWords) with
      | Ok None => template_here d
      | r => r
      end
  | None =>
      match thatWords with
      | _ :: _ =>
          match get _THAT d with
          | Some c =>
              match prepend _THAT (_match botName c thatWords [] topicWords) with
              | Ok None => template_here d
              | r => r
              end
          | None => template_here d
          end
      | [] =>
          match topicWords with
          | _ :: _ =>
              match get _TOPIC d with
              | Some c =>
                  match prepend _TOPIC (_match botName c topicWords [] []) with
                  | Ok None => template_here d
                  | r => r
                  end
              | None => template_here d
              end
          | [] => template_here d
          end
      end
  end.

Lemma _match_nil d thatWords topicWords :
  _match botName (Node d) [] thatWords topicWords
  = end_of_input d thatWords topicWords.
Proof.
  unfold end_of_input. simpl. rewrite with_child_get.
  destruct (get _CARET d); [reflexivity|].
  destruct thatWords; [destruct topicWords|]; try reflexivity;
    now rewrite with_child_get.
Qed.

(** The five attempts of the source on a non-empty word list. *)
Definition via (k : string) (d : dict T)
  (f : value T -> res (option (found T))) : res (option (found T)) :=
  match get k d with Some c => f c | None => Ok None end.

Definition attempt_underscore d first suffix thatWords topicWords :=
  via _UNDERSCORE d (fun c => prepend _UNDERSCORE
    (try_suffixes (fun suf => _match botName c suf thatWords topicWords) suffix)).

Definition attempt_first d first suffix thatWords topicWords :=
  via first d (fun c => prepend first
    (_match botName c suffix thatWords topicWords)).

Definition attempt_bot_name d first suffix thatWords topicWords :=
  if String.eqb first botName
  then via _BOT_NAME d (fun c => prepend first
         (_match botName c suffix thatWords topicWords))
  else Ok None.

Definition attempt_caret d first suffix thatWords topicWords :=
  via _CARET d (fun c => prepend _CARET
    (try_suffixes (fun suf => _match botName c suf thatWords topicWords)
       (first :: suffix))).

Definition attempt_star d first suffix thatWords topicWords :=
  via _STAR d (fun c => prepend _STAR
    (try_suffixes (fun suf => _match botName c suf thatWords topicWords) suffix)).

(** The first attempt of a list that does not answer [Ok None]. *)
Fixpoint first_success (attempts : list (res (option (found T))))
  : res (option (found T)) :=
  match attempts with
  | [] => Ok None
  | r :: rest => match r with Ok None => first_success rest | _ => r end
  end.

Lemma _match_cons d first suffix thatWords topicWords :
  _match botName (Node d) (first :: suffix) thatWords topicWords
  = first_success
      [ attempt_underscore d first suffix thatWords topicWords;
        attempt_first d first suffix thatWords topicWords;
        attempt_bot_name d first suffix thatWords topicWords;
        attempt_caret d first suffix thatWords topicWords;
        attempt_star d first suffix thatWords topicWords ].
Proof.
  unfold attempt_underscore, attempt_first, attempt_bot_name, attempt_caret,
    attempt_star, via.
  cbn [_match first_success]. rewrite !with_child_get.
  unfold mem.
  destruct (get _UNDERSCORE d); [|];
  repeat match goal with
    | |- context [match ?r with Ok _ => _ | Raise _ => _ end] =>
        lazymatch r with
        | context [match _ with _ => _ end] => fail
        | _ => destruct r as [[?|]|?]; try reflexivity
        end
    | |- context [get ?k d] =>
        lazymatch goal with
        | |- context [match get k d with _ => _ end] => destruct (get k d)
        end
    | |- context [String.eqb first botName] =>
        destruct (String.eqb first botName); cbn [andb]
    end; try reflexivity.
Qed.

(** *** Successful results, taken apart *)

Lemma prepend_success k (r : res (option (found T))) path t :
  prepend k r = Ok (Some (path, t)) ->
  exists p, r = Ok (Some (p, t)) /\ path = k :: p.
Proof.
  destruct r as [[[p t']|]|e]; simpl; try discriminate.
  intros [= <- <-]. now exists p.
Qed.

Lemma template_here_success d path t :
  template_here d = Ok (Some (path, t)) ->
  path = [] /\ get _TEMPLATE d = Some t.
Proof.
  unfold template_here. destruct (get _TEMPLATE d); [|discriminate].
  now intros [= <- <-].
Qed.

Lemma via_success k d (f : value T -> res (option (found T))) x :
  via k d f = Ok (Some x) -> exists c, get k d = Some c /\ f c = Ok (Some x).
Proof.
  unfold via. destruct (get k d) as [c|]; [|discriminate].
  intros H. now exists c.
Qed.

Lemma try_suffixes_success (f : list string -> res (option (found T))) l x :
  try_suffixes f l = Ok (Some x) ->
  exists j, f (skipn j l) = Ok (Some x).
Proof.
  induction l as [|w l IH]; simpl.
  - destruct (f []) as [[y|]|e] eqn:E; try discriminate.
    intros [= <-]. now exists 0.
  - destruct (f (w :: l)) as [[y|]|e] eqn:E; try discriminate.
    + intros [= <-]. now exists 0.
    + intros H. destruct (IH H) as [j Hj]. now exists (S j).
Qed.

Lemma first_success_In attempts (x : found T) :
  first_success attempts = Ok (Some x) -> In (Ok (Some x)) attempts.
Proof.
  induction attempts as [|r rest IH]; simpl; [discriminate|].
  destruct r as [[y|]|e]; try discriminate.
  - intros [= <-]. now left.
  - intros H. right. auto.
Qed.

Lemma or_template_here_success (r : res (option (found T))) d x :
  match r with
  | Ok (Some y) => Ok (Some y)
  | Ok None => template_here d
  | Raise e => Raise e
  end = Ok (Some x) ->
  r = Ok (Some x) \/ template_here d = Ok (Some x).
Proof. destruct r as [[y|]|e]; auto. Qed.

End MatcherFacts.

(** ** The path of a match *)

Section Path.

Context {T : Type}.
Variable botName : string.

(** [follows root path t]: [path] leads from [root] to a dictionary that
    holds [t] under [_TEMPLATE]; each element of the path is the key of
    the edge taken, except on the edge [_BOT_NAME], where it is the input
    word, equal to the name of the bot. *)
Inductive follows : value T -> list string -> value T -> Prop :=
| follows_template d t :
    get _TEMPLATE d = Some t -> follows (Node d) [] t
| follows_key d k c path t :
    get k d = Some c -> follows c path t -> follows (Node d) (k :: path) t
| follows_bot_name d c path t :
    get _BOT_NAME d = Some c -> follows c path t ->
    follows (Node d) (botName :: path) t.

(** [keys_only root path t]: the same with the keys of the edges and
    nothing else, so that the edge [_BOT_NAME] shows as [_BOT_NAME]. *)
Inductive keys_only : value T -> list string -> value T -> Prop :=
| keys_only_template d t :
    get _TEMPLATE d = Some t -> keys_only (Node d) [] t
| keys_only_key d k c path t :
    get k d = Some c -> keys_only c path t -> keys_only (Node d) (k :: path) t.

Lemma _match_follows root :
  forall words thatWords topicWords path t,
    _match botName root words thatWords topicWords = Ok (Some (path, t)) ->
    follows root path t.
Proof.
  induction root as [t0|d IH] using value_children_ind;
    intros words thatWords topicWords path t H; [discriminate|].
  assert (Hhere : forall p, template_here d = Ok (Some (p, t)) ->
                            follows (Node d) p t).
  { intros p Hp. apply template_here_success in Hp as [-> Hp].
    now constructor. }
  assert (Hdown : forall k c r p,
             get k d = Some c ->
             prepend k r = Ok (Some (p, t)) ->
             (forall q, r = Ok (Some (q, t)) -> follows c q t) ->
             follows (Node d) p t).
  { intros k c r p Hk Hp Hr. apply prepend_success in Hp as (q & Hq & ->).
    eapply follows_key; eauto. }
  destruct words as [|first suffix].
  - rewrite _match_nil in H. unfold end_of_input in H.
    destruct (get _CARET d) as [c|] eqn:Ec.
    { apply or_template_here_success in H as [H|H]; [|auto].
      eapply Hdown; eauto. }
    destruct thatWords as [|w ws].
    + destruct topicWords as [|w ws]; [auto|].
      destruct (get _TOPIC d) as [c|] eqn:Et; [|auto].
      apply or_template_here_success in H as [H|H]; [|auto].
      eapply Hdown; eauto.
    + destruct (get _THAT d) as [c|] eqn:Et; [|auto].
      apply or_template_here_success in H as [H|H]; [|auto].
      eapply Hdown; eauto.
  - rewrite _match_cons in H. apply first_success_In in H.
    unfold attempt_underscore, attempt_first, attempt_bot_name,
      attempt_caret, attempt_star in H.
    cbn [In] in H.
    destruct H as [H|[H|[H|[H|[H|[]]]]]].
    + apply via_success in H as (c & Hc & H).
      eapply Hdown; eauto. intros q Hq.
      apply try_suffixes_success in Hq as [j Hq]. eauto.
    + apply via_success in H as (c & Hc & H). eapply Hdown; eauto.
    + destruct (String.eqb_spec first botName) as [->|_]; [|discriminate].
      apply via_success in H as (c & Hc & H).
      apply prepend_success in H as (q & Hq & ->).
      eapply follows_bot_name; eauto.
    + apply via_success in H as (c & Hc & H).
      eapply Hdown; eauto. intros q Hq.
      apply try_suffixes_success in Hq as [j Hq]. eauto.
    + apply via_success in H as (c & Hc & H).
      eapply Hdown; eauto. intros q Hq.
      apply try_suffixes_success in Hq as [j Hq]. eauto.
Qed.

End Path.

(** ** Stores built by [add] *)

Section Counting.

Context {T : Type}.
Implicit Types (d c : dict T) (v : value T) (k : string) (keys : list string).

(** Every key other than [_TEMPLATE] leads to a dictionary, and so on
    below.  This holds of every store built by [add] from words other than
    the key [_TEMPLATE]. *)
Inductive tidy : dict T -> Prop :=
| tidy_intro d :
    (forall k v, k <> _TEMPLATE -> get k d = Some v ->
                 exists c, v = Node c /\ tidy c) ->
    tidy d.

Lemma tidy_get d k v :
  tidy d -> k <> _TEMPLATE -> get k d = Some v -> exists c, v = Node c /\ tidy c.
Proof. intros [d' H]. apply H. Qed.

Lemma tidy_nil : tidy [].
Proof. constructor. intros k v _ H. discriminate H. Qed.

Lemma tidy_set_node k c d :
  k <> _TEMPLATE -> tidy c -> tidy d -> tidy (set k (Node c) d).
Proof.
  intros Hk Hc Hd. constructor. intros k' v Hk' Hget.
  destruct (string_dec k' k) as [->|Hne].
  - rewrite get_set_same in Hget. injection Hget as <-. now exists c.
  - rewrite get_set_other in Hget by assumption. eapply tidy_get; eauto.
Qed.

Lemma tidy_set_template v d : tidy d -> tidy (set _TEMPLATE v d).
Proof.
  intros Hd. constructor. intros k' v' Hk' Hget.
  rewrite get_set_other in Hget by assumption. eapply tidy_get; eauto.
Qed.

(** [has_template keys d]: the node that [keys] leads to from [d] exists
    and holds a template. *)
Fixpoint has_template keys d : bool :=
  match keys with
  | [] => mem _TEMPLATE d
  | k :: keys' =>
      match get k d with
      | Some (Node c) => has_template keys' c
      | _ => false
      end
  end.

Lemma has_template_nil keys : has_template keys [] = false.
Proof. destruct keys; reflexivity. Qed.

Fixpoint same_keys (a b : list string) : bool :=
  match a, b with
  | [], [] => true
  | x :: a', y :: b' => String.eqb x y && same_keys a' b'
  | _, _ => false
  end.

Lemma same_keys_spec a b : same_keys a b = true <-> a = b.
Proof.
  revert b. induction a as [|x a IH]; intros [|y b]; simpl;
    try (split; [discriminate | congruence]); [tauto|].
  rewrite andb_true_iff, String.eqb_eq, IH. split.
  - now intros [-> ->].
  - now intros [= -> ->].
Qed.

(** The count of [add]: [_TEMPLATE] was absent exactly when no template
    was at the end of the keys. *)
Lemma put_fresh keys : forall (t : T) d d' b,
  put keys t d = Ok (d', b) -> b = negb (has_template keys d).
Proof.
  induction keys as [|k keys IH]; simpl; intros t d d' b H.
  - now injection H as _ <-.
  - destruct (get k d) as [[c|t']|]; [| discriminate |].
    + destruct (put keys t c) as [[c' b']|e] eqn:E; [|discriminate].
      simpl in H. injection H as _ <-. eauto.
    + destruct (put keys t []) as [[c' b']|e] eqn:E; [|discriminate].
      simpl in H. injection H as _ <-.
      rewrite (IH _ _ _ _ E). now rewrite has_template_nil.
Qed.

Lemma put_tidy keys : forall (t : T) d,
  ~ In _TEMPLATE keys -> tidy d ->
  exists d', put keys t d = Ok (d', negb (has_template keys d)) /\ tidy d'.
Proof.
  induction keys as [|k keys IH]; simpl; intros t d Hno Hd.
  - eexists. split; [reflexivity|]. now apply tidy_set_template.
  - assert (Hk : k <> _TEMPLATE) by (intros ->; apply Hno; now left).
    assert (Hno' : ~ In _TEMPLATE keys) by (intros ?; apply Hno; now right).
    destruct (get k d) as [v|] eqn:Eg.
    + destruct (tidy_get _ _ _ Hd Hk Eg) as (c & -> & Hc).
      destruct (IH t c Hno' Hc) as (c' & -> & Hc'). simpl.
      eexists. split; [reflexivity|]. now apply tidy_set_node.
    + destruct (IH t [] Hno' tidy_nil) as (c' & E & Hc').
      rewrite E. simpl. rewrite has_template_nil.
      eexists. split; [reflexivity|]. now apply tidy_set_node.
Qed.

(** After [add], a template is at the end of the keys of the call and
    wherever one was before. *)
Lemma has_template_put keys : forall (t : T) d d' b keys',
  ~ In _TEMPLATE keys -> ~ In _TEMPLATE keys' -> tidy d ->
  put keys t d = Ok (d', b) ->
  has_template keys' d' = has_template keys' d || same_keys keys' keys.
Proof.
  induction keys as [|k keys IH]; intros t d d' b keys' Hno Hno' Hd H.
  - simpl in H. injection H as <- _.
    destruct keys' as [|k' keys']; simpl.
    + rewrite mem_set_same. now rewrite orb_true_r.
    + rewrite get_set_other, orb_false_r; [reflexivity|].
      intros ->. apply Hno'. now left.
  - assert (Hk : k <> _TEMPLATE) by (intros ->; apply Hno; now left).
    assert (Hks : ~ In _TEMPLATE keys) by (intros ?; apply Hno; now right).
    assert (Hstep : exists c c' b',
               (get k d = Some (Node c) \/ (get k d = None /\ c = [])) /\
               tidy c /\ put keys t c = Ok (c', b') /\
               d' = set k (Node c') d).
    { simpl in H. destruct (get k d) as [v|] eqn:Eg.
      - destruct (tidy_get _ _ _ Hd Hk Eg) as (c & -> & Hc).
        destruct (put keys t c) as [[c' b']|e] eqn:E; [|discriminate].
        simpl in H. injection H as <- _. exists c, c', b'.
        split; [now left|]. split; [exact Hc|]. now split.
      - destruct (put keys t []) as [[c' b']|e] eqn:E; [|discriminate].
        simpl in H. injection H as <- _. exists [], c', b'.
        split; [now right|]. split; [exact tidy_nil|]. now split. }
    destruct Hstep as (c & c' & b' & Hget & Hc & Hput & ->).
    destruct keys' as [|k' keys'].
    + simpl. rewrite mem_set_other by congruence. now rewrite orb_false_r.
    + assert (Hks' : ~ In _TEMPLATE keys') by (intros ?; apply Hno'; now right).
      cbn [has_template same_keys].
      destruct (String.eqb_spec k' k) as [->|Hne].
      * rewrite get_set_same. cbn [andb].
        rewrite (IH t c c' b' keys' Hks Hks' Hc Hput).
        destruct Hget as [->|[-> ->]]; [reflexivity|].
        now rewrite has_template_nil.
      * rewrite get_set_other by assumption. cbn [andb].
        now rewrite orb_false_r.
Qed.

(** A sequence of calls of [add]. *)
Fixpoint add_all (self : PatternMgr T)
  (calls : list (string * string * string * T)) : res (PatternMgr T) :=
  match calls with
  | [] => Ok self
  | (data, template) :: rest =>
      self' <- add self data template ;; add_all self' rest
  end.

(** The number of elements of [l] that occur neither in [seen] nor
    earlier in [l]: the elements that are new when their turn comes. *)
Fixpoint count_fresh {A : Type} (same : A -> A -> bool) (seen l : list A)
  : nat :=
  match l with
  | [] => 0
  | x :: rest =>
      (if existsb (same x) seen then 0 else 1) + count_fresh same (x :: seen) rest
  end.

Definition keys_of_calls (calls : list (string * string * string * T))
  : list (list string) :=
  map (fun call => add_keys (fst call)) calls.

Lemma add_all_count calls : forall (self : PatternMgr T) seen,
  tidy (_root self) ->
  (forall keys, ~ In _TEMPLATE keys ->
     has_template keys (_root self) = existsb (same_keys keys) seen) ->
  Forall (fun keys => ~ In _TEMPLATE keys) (keys_of_calls calls) ->
  exists self',
    add_all self calls = Ok self' /\
    numTemplates self'
    = numTemplates self + count_fresh same_keys seen (keys_of_calls calls).
Proof.
  induction calls as [|[data template] calls IH]; intros self seen Hd Hseen Hall.
  - exists self. simpl. split; [reflexivity | lia].
  - simpl in Hall. inversion Hall as [|? ? Hkeys Hrest]; subst.
    destruct (put_tidy (add_keys data) template (_root self) Hkeys Hd)
      as (d' & Hput & Hd').
    cbn [add_all]. unfold add at 1. rewrite Hput. cbn [bind fst snd].
    match goal with |- context [add_all ?s calls] => set (self1 := s) end.
    destruct (IH self1 (add_keys data :: seen)) as (self' & Hall' & Hcount).
    + exact Hd'.
    + intros keys Hno. subst self1. cbn [_root].
      rewrite (has_template_put _ _ _ _ _ keys Hkeys Hno Hd Hput).
      rewrite Hseen by assumption. cbn [existsb]. apply orb_comm.
    + exact Hrest.
    + exists self'. split; [exact Hall'|].
      rewrite Hcount. subst self1. unfold numTemplates. cbn [_templateCount].
      cbn [keys_of_calls map count_fresh fst].
      rewrite Hseen by assumption.
      fold (keys_of_calls calls).
      destruct (existsb (same_keys (add_keys data)) seen); simpl; lia.
Qed.

End Counting.

(** ** The matcher raises nothing on a tidy store *)

Section Total.

Context {T : Type}.
Variable botName : string.

Definition is_ok {A : Type} (r : res A) : Prop := exists a, r = Ok a.

Lemma prepend_ok k (r : res (option (found T))) : is_ok r -> is_ok (prepend k r).
Proof. intros [[[p t]|] ->]; simpl; eexists; reflexivity. Qed.

Lemma template_here_ok (d : dict T) : is_ok (template_here d).
Proof. unfold template_here. destruct (get _TEMPLATE d); eexists; reflexivity. Qed.

Lemma or_template_here_ok (r : res (option (found T))) d :
  is_ok r ->
  is_ok match r with
        | Ok (Some y) => Ok (Some y)
        | Ok None => template_here d
        | Raise e => Raise e
        end.
Proof.
  intros [[y|] ->]; [eexists; reflexivity | apply template_here_ok].
Qed.

Lemma via_ok k (d : dict T) (f : value T -> res (option (found T))) :
  (forall c, get k d = Some c -> is_ok (f c)) -> is_ok (via k d f).
Proof.
  unfold via. destruct (get k d) as [c|]; [auto|]. eexists; reflexivity.
Qed.

Lemma try_suffixes_ok (f : list string -> res (option (found T))) l :
  (forall j, is_ok (f (skipn j l))) -> is_ok (try_suffixes f l).
Proof.
  induction l as [|w l IH]; intros H; simpl.
  - destruct (H 0) as [[y|] E]; simpl in E; rewrite E; eexists; reflexivity.
  - destruct (H 0) as [[y|] E]; simpl in E; rewrite E; [eexists; reflexivity|].
    apply IH. intros j. apply (H (S j)).
Qed.

Lemma first_success_ok (attempts : list (res (option (found T)))) :
  Forall is_ok attempts -> is_ok (first_success attempts).
Proof.
  induction 1 as [|r rest [[y|] ->] _ IH]; simpl;
    [eexists; reflexivity | eexists; reflexivity | exact IH].
Qed.

Lemma not_In_skipn {A : Type} (x : A) j l : ~ In x l -> ~ In x (skipn j l).
Proof.
  revert l. induction j as [|j IH]; intros [|y l] H; simpl; auto.
  apply IH. intros ?. apply H. now right.
Qed.

Lemma _match_ok (root : value T) :
  forall d, root = Node d -> tidy d ->
  forall words thatWords topicWords,
    ~ In _TEMPLATE words -> ~ In _TEMPLATE thatWords ->
    ~ In _TEMPLATE topicWords ->
    is_ok (_match botName root words thatWords topicWords).
Proof.
  induction root as [t0|d0 IH] using value_children_ind;
    intros d [= <-] Hd words thatWords topicWords Hw Ht Hp.
  assert (Hchild : forall k c ws tw pw,
             get k d0 = Some c -> k <> _TEMPLATE ->
             ~ In _TEMPLATE ws -> ~ In _TEMPLATE tw -> ~ In _TEMPLATE pw ->
             is_ok (_match botName c ws tw pw)).
  { intros k c ws tw pw Hget Hk Hws Htw Hpw.
    destruct (tidy_get _ _ _ Hd Hk Hget) as (c' & -> & Hc').
    eapply IH; eauto. }
  assert (Hnil : ~ In _TEMPLATE (@nil string)) by (intros []).
  destruct words as [|first suffix].
  - rewrite _match_nil. unfold end_of_input.
    destruct (get _CARET d0) as [c|] eqn:Ec.
    { apply or_template_here_ok, prepend_ok.
      apply (Hchild _ _ _ _ _ Ec); auto; discriminate. }
    destruct thatWords as [|w ws].
    + destruct topicWords as [|w ws]; [apply template_here_ok|].
      destruct (get _TOPIC d0) as [c|] eqn:Et; [|apply template_here_ok].
      apply or_template_here_ok, prepend_ok.
      apply (Hchild _ _ _ _ _ Et); auto; discriminate.
    + destruct (get _THAT d0) as [c|] eqn:Et; [|apply template_here_ok].
      apply or_template_here_ok, prepend_ok.
      apply (Hchild _ _ _ _ _ Et); auto; discriminate.
  - assert (Hfirst : first <> _TEMPLATE) by (intros ->; apply Hw; now left).
    assert (Hsuf : ~ In _TEMPLATE suffix) by (intros ?; apply Hw; now right).
    rewrite _match_cons. apply first_success_ok.
    unfold attempt_underscore, attempt_first, attempt_bot_name,
      attempt_caret, attempt_star.
    repeat apply Forall_cons; try apply Forall_nil.
    + apply via_ok. intros c Hc. apply prepend_ok, try_suffixes_ok.
      intros j. apply (Hchild _ _ _ _ _ Hc); auto using not_In_skipn.
      discriminate.
    + apply via_ok. intros c Hc. apply prepend_ok.
      apply (Hchild _ _ _ _ _ Hc); auto.
    + destruct (String.eqb first botName); [|eexists; reflexivity].
      apply via_ok. intros c Hc. apply prepend_ok.
      apply (Hchild _ _ _ _ _ Hc); auto; discriminate.
    + apply via_ok. intros c Hc. apply prepend_ok, try_suffixes_ok.
      intros j. apply (Hchild _ _ _ _ _ Hc); auto using not_In_skipn.
      discriminate.
    + apply via_ok. intros c Hc. apply prepend_ok, try_suffixes_ok.
      intros j. apply (Hchild _ _ _ _ _ Hc); auto using not_In_skipn.
      discriminate.
Qed.

End Total.

(** ** What a store holds *)

Section Stored.

Context {T : Type}.
Implicit Types (d : dict T) (keys : list string).

(** The dictionary that [keys] lead to. *)
Fixpoint node_at keys d : option (dict T) :=
  match keys with
  | [] => Some d
  | k :: keys' =>
      match get k d with
      | Some (Node c) => node_at keys' c
      | _ => None
      end
  end.

(** [stored self data t]: the node that [add] reaches for [data] holds
    the template [t]. *)
Definition stored (self : PatternMgr T) (data : string * string * string)
  (t : T) : Prop :=
  exists n, node_at (add_keys data) (_root self) = Some n /\
            get _TEMPLATE n = Some (Tmpl t).

(** [no_edge self keys k]: the node that [keys] lead to has no key [k]. *)
Definition no_edge (self : PatternMgr T) keys (k : string) : Prop :=
  forall n, node_at keys (_root self) = Some n -> get k n = None.

Lemma node_at_cons k keys d n :
  node_at (k :: keys) d = Some n ->
  exists c, get k d = Some (Node c) /\ node_at keys c = Some n.
Proof.
  simpl. destruct (get k d) as [[c|t]|]; try discriminate. eauto.
Qed.

End Stored.

(** The empty text, as the source writes [""]. *)
Definition empty : string := EmptyString.

Ltac eval_words :=
  repeat match goal with
    | |- context [Text.split ?s] =>
        let v := eval vm_compute in (Text.split s) in
        change (Text.split s) with v
    end.

(** * The specification, statement by statement *)

(** The store that a sequence of calls of [add] builds from the empty one. *)
Definition store_of {T : Type} (calls : list (string * string * string * T))
  : PatternMgr T :=
  match add_all init calls with
  | Ok self => self
  | Raise _ => init
  end.

(** ** C1: the priority of the underscore *)

Section PriorityLaw.

Context {T : Type}.

(** C1 (amended).  In every store that holds the patterns [_ X], [A X] and
    [* X] without that and topic under the distinct templates [t1], [t2]
    and [t3], and in which nothing competes below the underscore (no
    pattern starts with [_ _], and the node of [_ X] has neither a caret
    nor a that section), [match] on the utterance [A X] with empty that and
    topic returns the path of [_ X] and [t1]: the underscore is tried
    before the word [A] and the star. *)
Theorem C1_underscore_outranks_word_and_star
  (self : PatternMgr T) (t1 t2 t3 : T) :
  stored self ("_ X", empty, empty) t1 ->
  stored self ("A X", empty, empty) t2 ->
  stored self ("* X", empty, empty) t3 ->
  t1 <> t2 -> t1 <> t3 -> t2 <> t3 ->
  no_edge self [_UNDERSCORE] _UNDERSCORE ->
  no_edge self [_UNDERSCORE; "X"] _CARET ->
  no_edge self [_UNDERSCORE; "X"] _THAT ->
  match_ self "A X" empty empty = Ok (Some ([_UNDERSCORE; "X"], Tmpl t1)).
Proof.
  intros (n & Hn & Ht1) _ _ _ _ _ Hno_us Hno_caret Hno_that.
  change (add_keys ("_ X", empty, empty)) with [_UNDERSCORE; "X"] in Hn.
  destruct (node_at_cons _ _ _ _ Hn) as (n0 & Hroot & Hn0).
  destruct (node_at_cons _ _ _ _ Hn0) as (nx & Hx & Hnx).
  injection Hnx as ->.
  assert (Hus : get _UNDERSCORE n0 = None).
  { apply Hno_us. simpl. now rewrite Hroot. }
  assert (Hcaret : get _CARET n = None).
  { apply Hno_caret. simpl. now rewrite Hroot, Hx. }
  assert (Hthat : get _THAT n = None).
  { apply Hno_that. simpl. now rewrite Hroot, Hx. }
  unfold match_. change (String.length "A X" =? 0) with false. cbv iota.
  eval_words.
  set (thatWords := ["ULTRABOGUSDUMMYTHAT"]).
  set (topicWords := ["ULTRABOGUSDUMMYTOPIC"]).
  assert (Hend : _match (_botName self) (Node n) [] thatWords topicWords
                 = Ok (Some ([], Tmpl t1))).
  { rewrite _match_nil. unfold end_of_input. rewrite Hcaret. subst thatWords.
    cbv iota. rewrite Hthat. unfold template_here. now rewrite Ht1. }
  assert (Hx' : _match (_botName self) (Node n0) ["X"] thatWords topicWords
                = Ok (Some (["X"], Tmpl t1))).
  { rewrite _match_cons. unfold attempt_underscore, attempt_first, via.
    rewrite Hus, Hx, Hend. reflexivity. }
  rewrite _match_cons. unfold attempt_underscore, via.
  rewrite Hroot. cbn [try_suffixes]. rewrite Hx'. reflexivity.
Qed.

End PriorityLaw.

Definition three_patterns : list (string * string * string * string) :=
  [ ("_ X", empty, empty, "T1");
    ("A X", empty, empty, "T2");
    ("* X", empty, empty, "T3") ].

Lemma C1_witness :
  match_ (store_of three_patterns) "A X" empty empty
  = Ok (Some ([_UNDERSCORE; "X"], Tmpl "T1")).
Proof.
  apply (C1_underscore_outranks_word_and_star
           (store_of three_patterns) "T1" "T2" "T3");
    try discriminate;
    try (eexists; split; vm_compute; reflexivity);
    intros n Hn; vm_compute in Hn; injection Hn as <-; reflexivity.
Defined.

(** C1 as the specification states it fails: the store also holds [_ _], which is below
    the underscore and is tried before [X]. *)
Definition crowded_store : PatternMgr string :=
  store_of (three_patterns ++ [("_ _", empty, empty, "T4")]).

Lemma C1_counterexample :
  stored crowded_store ("_ X", empty, empty) "T1" /\
  stored crowded_store ("A X", empty, empty) "T2" /\
  stored crowded_store ("* X", empty, empty) "T3" /\
  match_ crowded_store "A X" empty empty
  = Ok (Some ([_UNDERSCORE; _UNDERSCORE], Tmpl "T4")).
Proof.
  repeat split; try (eexists; split; vm_compute; reflexivity).
Qed.

(** ** C2: the wildcard locator on a pattern without that *)

Definition likes_store : PatternMgr string :=
  store_of [("I LIKE *", empty, empty, "T2")].

Lemma index_absent x l : ~ In x l -> index x l = Raise ValueError.
Proof.
  induction l as [|y l IH]; simpl; [reflexivity|]. intros H.
  destruct (String.eqb_spec y x) as [->|_]; [exfalso; apply H; now left|].
  rewrite IH; [reflexivity|]. intros ?. apply H. now right.
Qed.

(** Without [_THAT] in the matched path the kinds [caret] and [star] have
    no portion: [patMatch.index(self._THAT)] raises. *)
Lemma portion_without_that path :
  ~ In _THAT path ->
  @portion caret path = Raise ValueError /\ @portion star path = Raise ValueError.
Proof. intros H. unfold portion. now rewrite (index_absent _ _ H). Qed.

(** C2.  With [I LIKE *] stored without that and topic, [match] on
    "I like cats" finds the template with the path [I LIKE *], in which
    [_THAT] does not occur, and [wildcard] of kind [star] with index 1
    raises [ValueError] where the specification expects the text "cats". *)
Theorem C2_star_without_that_raises :
  match_ likes_store "I like cats" empty empty
  = Ok (Some (["I"; "LIKE"; _STAR], Tmpl "T2")) /\
  wildcard likes_store "star" "I like cats" empty empty 1%Z = Raise ValueError.
Proof. split; vm_compute; reflexivity. Qed.

(** With a that section in the stored pattern the same call returns the
    text that the star matched. *)
Example star_with_that :
  wildcard (store_of [("I LIKE *", "*", empty, "T2")])
    "star" "I like cats" empty empty 1%Z = Ok "cats".
Proof. vm_compute. reflexivity. Qed.

(** ** C3: the name of the bot *)

Definition alice_store : PatternMgr string :=
  match add (setBotName init "Alice") ("BOT_NAME ROCKS", empty, empty) "T7" with
  | Ok self => self
  | Raise _ => init
  end.

(** C3.  After [setBotName("Alice")] and [add] of [BOT_NAME ROCKS], the
    name is stored as given, the input word is "ALICE", and [match] on
    "alice rocks" finds nothing, where the specification expects T7; [match] on
    "bob rocks" finds nothing either. *)
Theorem C3_bot_name_compared_as_given :
  _botName alice_store = "Alice" /\
  _root alice_store = [(_BOT_NAME, Node [("ROCKS", Node [(_TEMPLATE, Tmpl "T7")])])] /\
  match_ alice_store "alice rocks" empty empty = Ok None /\
  match_ alice_store "bob rocks" empty empty = Ok None.
Proof. repeat split; vm_compute; reflexivity. Qed.

(** A name in capitals is matched. *)
Definition ALICE_store : PatternMgr string :=
  match add (setBotName init "ALICE") ("BOT_NAME ROCKS", empty, empty) "T7" with
  | Ok self => self
  | Raise _ => init
  end.

Example capital_name_matches :
  match_ ALICE_store "alice rocks" empty empty
  = Ok (Some (["ALICE"; "ROCKS"], Tmpl "T7")).
Proof. vm_compute. reflexivity. Qed.

(** ** New elements and distinct elements *)

Section Distinct.

Context {A : Type}.
Variable same : A -> A -> bool.
Hypothesis same_spec : forall x y, same x y = true <-> x = y.
Variable dec : forall x y : A, {x = y} + {x <> y}.

Definition unseen (seen : list A) (x : A) : bool := negb (existsb (same x) seen).

Lemma existsb_same x l : existsb (same x) l = true <-> In x l.
Proof.
  rewrite existsb_exists. split.
  - intros (y & Hy & E). apply same_spec in E. now subst.
  - intros H. exists x. split; [exact H | now apply same_spec].
Qed.

Lemma length_nodup_remove x (m : list A) :
  In x m ->
  length (nodup dec m) = S (length (nodup dec (remove dec x m))).
Proof.
  induction m as [|y m IH]; [intros []|]. intros Hin. cbn [nodup remove].
  destruct (dec x y) as [<-|Hne].
  - destruct (in_dec dec x m) as [Hm|Hm]; [auto|].
    rewrite (notin_remove dec m x Hm). reflexivity.
  - destruct Hin as [->|Hin]; [contradiction|].
    cbn [nodup].
    destruct (in_dec dec y m) as [Hm|Hm];
      destruct (in_dec dec y (remove dec x m)) as [Hr|Hr]; cbn [length]; auto.
    + exfalso. apply Hr. apply in_in_remove; auto.
    + exfalso. apply Hm. now apply in_remove in Hr.
Qed.

Lemma unseen_cons x seen y :
  unseen (x :: seen) y = negb (same y x) && unseen seen y.
Proof. unfold unseen. cbn [existsb]. apply negb_orb. Qed.

Lemma filter_unseen_cons x seen (l : list A) :
  filter (unseen (x :: seen)) l = remove dec x (filter (unseen seen) l).
Proof.
  induction l as [|y l IH]; [reflexivity|]. cbn [filter].
  rewrite unseen_cons.
  destruct (unseen seen y); cbn [remove].
  - destruct (dec x y) as [<-|Hne].
    + replace (same x x) with true by (symmetry; now apply same_spec).
      exact IH.
    + destruct (same y x) eqn:Eyx.
      * apply same_spec in Eyx. now subst.
      * cbn [negb andb]. now rewrite IH.
  - rewrite andb_false_r. exact IH.
Qed.

(** The elements that are new when their turn comes are as many as the
    distinct elements. *)
Lemma count_fresh_distinct (l : list A) : forall seen,
  count_fresh same seen l = length (nodup dec (filter (unseen seen) l)).
Proof.
  induction l as [|x l IH]; intros seen; [reflexivity|].
  cbn [count_fresh filter]. rewrite IH, filter_unseen_cons.
  unfold unseen at 2. destruct (existsb (same x) seen) eqn:E; cbn [negb].
  - apply existsb_same in E. rewrite notin_remove; [reflexivity|].
    intros H. apply filter_In in H as [_ H]. unfold unseen in H.
    apply existsb_same in E. now rewrite E in H.
  - cbn [nodup]. destruct (in_dec dec x (filter (unseen seen) l)) as [Hin|Hin].
    + now rewrite (length_nodup_remove x _ Hin).
    + now rewrite notin_remove.
Qed.

Lemma count_fresh_all (l : list A) :
  count_fresh same [] l = length (nodup dec l).
Proof.
  rewrite count_fresh_distinct. f_equal. f_equal.
  induction l as [|x l IH]; [reflexivity|]. cbn [filter unseen existsb negb].
  now rewrite IH.
Qed.

End Distinct.

(** ** C4: the number of templates *)

Definition same_data (a b : string * string * string) : bool :=
  let '(p, th, tp) := a in
  let '(p', th', tp') := b in
  String.eqb p p' && String.eqb th th' && String.eqb tp tp'.

Definition sentinel_keys : list string :=
  [_UNDERSCORE; _STAR; _TEMPLATE; _THAT; _TOPIC; _BOT_NAME; _CARET].

(** What [add] reads of its data: the words of the pattern, and the words
    of the that and of the topic when these are not empty strings. *)
Definition shape : Type :=
  (list string * option (list string) * option (list string))%type.

Definition section_words (s : string) : option (list string) :=
  if 0 <? String.length s then Some (Text.split s) else None.

Definition shape_of (data : string * string * string) : shape :=
  let '(pattern, that, topic) := data in
  (Text.split pattern, section_words that, section_words topic).

Definition words_or_none (o : option (list string)) : list string :=
  match o with
  | Some ws => ws
  | None => []
  end.

Definition shape_words (s : shape) : list string :=
  let '(p, th, tp) := s in p ++ words_or_none th ++ words_or_none tp.

Definition words_of_data (data : string * string * string) : list string :=
  shape_words (shape_of data).

Definition same_section (a b : option (list string)) : bool :=
  match a, b with
  | Some x, Some y => same_keys x y
  | None, None => true
  | _, _ => false
  end.

Definition same_shape (a b : shape) : bool :=
  let '(p, th, tp) := a in
  let '(p', th', tp') := b in
  same_keys p p' && same_section th th' && same_section tp tp'.

Definition shape_dec (a b : shape) : {a = b} + {a <> b}.
Proof.
  repeat decide equality; apply string_dec.
Defined.

Definition keys_of_section (marker : string) (o : option (list string))
  : list string :=
  match o with
  | Some ws => marker :: map section_key ws
  | None => []
  end.

Definition keys_of_shape (s : shape) : list string :=
  let '(p, th, tp) := s in
  map pattern_key p ++ keys_of_section _THAT th ++ keys_of_section _TOPIC tp.

Definition is_marker (key : string) : bool :=
  String.eqb key _THAT || String.eqb key _TOPIC.

Definition not_sentinel (w : string) : Prop := ~ In w sentinel_keys.

Lemma same_section_spec a b : same_section a b = true <-> a = b.
Proof.
  destruct a as [x|], b as [y|]; cbn [same_section];
    try (split; [discriminate | discriminate]); [|now split].
  rewrite same_keys_spec. split; intros H; [now subst | now injection H].
Qed.

Lemma same_shape_spec a b : same_shape a b = true <-> a = b.
Proof.
  destruct a as [[p th] tp], b as [[p' th'] tp']. cbn [same_shape].
  rewrite !andb_true_iff, same_keys_spec, !same_section_spec.
  split.
  - intros [[-> ->] ->]. reflexivity.
  - intros H. injection H as -> -> ->. auto.
Qed.

Lemma add_keys_of_shape (data : string * string * string) :
  add_keys data = keys_of_shape (shape_of data).
Proof.
  destruct data as [[pattern that] topic].
  unfold add_keys, shape_of, keys_of_shape, section_words, keys_of_section.
  destruct (0 <? String.length that), (0 <? String.length topic);
    reflexivity.
Qed.

Ltac sentinel_cases H :=
  exfalso; apply H; unfold sentinel_keys; cbn [In]; tauto.

Lemma pattern_key_not_marker w :
  not_sentinel w -> is_marker (pattern_key w) = false.
Proof.
  intros Hw. unfold pattern_key.
  repeat match goal with
    | |- context [String.eqb w ?s] =>
        destruct (String.eqb_spec w s) as [->|_]; [reflexivity|]
    end.
  unfold is_marker.
  destruct (String.eqb_spec w _THAT) as [->|_]; [sentinel_cases Hw|].
  destruct (String.eqb_spec w _TOPIC) as [->|_]; [sentinel_cases Hw|].
  reflexivity.
Qed.

Lemma section_key_not_marker w :
  not_sentinel w -> is_marker (section_key w) = false.
Proof.
  intros Hw. unfold section_key.
  repeat match goal with
    | |- context [String.eqb w ?s] =>
        destruct (String.eqb_spec w s) as [->|_]; [reflexivity|]
    end.
  unfold is_marker.
  destruct (String.eqb_spec w _THAT) as [->|_]; [sentinel_cases Hw|].
  destruct (String.eqb_spec w _TOPIC) as [->|_]; [sentinel_cases Hw|].
  reflexivity.
Qed.

Lemma pattern_key_not_template w :
  not_sentinel w -> pattern_key w <> _TEMPLATE.
Proof.
  intros Hw. unfold pattern_key.
  repeat match goal with
    | |- context [String.eqb w ?s] =>
        destruct (String.eqb_spec w s) as [->|_]; [discriminate|]
    end.
  intros ->. sentinel_cases Hw.
Qed.

Lemma section_key_not_template w :
  not_sentinel w -> section_key w <> _TEMPLATE.
Proof.
  intros Hw. unfold section_key.
  repeat match goal with
    | |- context [String.eqb w ?s] =>
        destruct (String.eqb_spec w s) as [->|_]; [discriminate|]
    end.
  intros ->. sentinel_cases Hw.
Qed.

(** Away from the seven one-digit words, two words with the same key are
    the same word. *)
Lemma pattern_key_injective w w' :
  not_sentinel w -> not_sentinel w' ->
  pattern_key w = pattern_key w' -> w = w'.
Proof.
  intros Hw Hw'. unfold pattern_key.
  destruct (String.eqb_spec w "_") as [->|?];
  [|destruct (String.eqb_spec w "*") as [->|?];
    [|destruct (String.eqb_spec w "^") as [->|?];
      [|destruct (String.eqb_spec w "BOT_NAME") as [->|?]]]];
  (destruct (String.eqb_spec w' "_") as [->|?];
   [|destruct (String.eqb_spec w' "*") as [->|?];
     [|destruct (String.eqb_spec w' "^") as [->|?];
       [|destruct (String.eqb_spec w' "BOT_NAME") as [->|?]]]]);
  intros E; try reflexivity; try discriminate E; try exact E;
  try (subst w'; sentinel_cases Hw'); try (subst w; sentinel_cases Hw).
Qed.

Lemma section_key_injective w w' :
  not_sentinel w -> not_sentinel w' ->
  section_key w = section_key w' -> w = w'.
Proof.
  intros Hw Hw'. unfold section_key.
  destruct (String.eqb_spec w "_") as [->|?];
  [|destruct (String.eqb_spec w "*") as [->|?]];
  (destruct (String.eqb_spec w' "_") as [->|?];
   [|destruct (String.eqb_spec w' "*") as [->|?]]);
  intros E; try reflexivity; try discriminate E; try exact E;
  try (subst w'; sentinel_cases Hw'); try (subst w; sentinel_cases Hw).
Qed.

Lemma map_injective_on {A B : Type} (f : A -> B) (P : A -> Prop) :
  (forall a b, P a -> P b -> f a = f b -> a = b) ->
  forall l l', Forall P l -> Forall P l' -> map f l = map f l' -> l = l'.
Proof.
  intros Hf. induction l as [|a l IH]; intros [|b l'] Hl Hl' E;
    try discriminate E; [reflexivity|].
  cbn [map] in E. injection E as Eab E.
  inversion Hl; inversion Hl'; subst. f_equal; auto.
Qed.

Definition starts_with_marker (keys : list string) : Prop :=
  match keys with
  | [] => True
  | key :: _ => is_marker key = true
  end.

(** A list of keys of words followed by the keys of sections splits in one
    way only. *)
Lemma split_at_marker (l : list string) : forall l' rest rest',
  Forall (fun k => is_marker k = false) l ->
  Forall (fun k => is_marker k = false) l' ->
  starts_with_marker rest -> starts_with_marker rest' ->
  l ++ rest = l' ++ rest' -> l = l' /\ rest = rest'.
Proof.
  induction l as [|k l IH]; intros [|k' l'] rest rest' Hl Hl' Hr Hr' E.
  - now split.
  - exfalso. cbn [app] in E. subst rest. cbn in Hr.
    inversion Hl' as [|? ? Hk]; subst. congruence.
  - exfalso. cbn [app] in E. subst rest'. cbn in Hr'.
    inversion Hl as [|? ? Hk]; subst. congruence.
  - cbn [app] in E. injection E as -> E.
    inversion Hl; inversion Hl'; subst.
    destruct (IH l' rest rest') as [-> ->]; auto.
Qed.

Definition good_shape (s : shape) : Prop := Forall not_sentinel (shape_words s).

Lemma good_shape_parts p th tp :
  good_shape (p, th, tp) ->
  Forall not_sentinel p /\ Forall not_sentinel (words_or_none th) /\
  Forall not_sentinel (words_or_none tp).
Proof.
  unfold good_shape, shape_words. intros H.
  apply Forall_app in H as [Hp H]. apply Forall_app in H as [Hth Htp]. auto.
Qed.

Lemma keys_of_section_marker marker o :
  is_marker marker = true -> starts_with_marker (keys_of_section marker o).
Proof. intros H. destruct o; [exact H | exact I]. Qed.

Lemma keys_of_section_injective marker o o' :
  Forall not_sentinel (words_or_none o) ->
  Forall not_sentinel (words_or_none o') ->
  keys_of_section marker o = keys_of_section marker o' -> o = o'.
Proof.
  destruct o as [ws|], o' as [ws'|]; cbn [keys_of_section words_or_none];
    intros H H' E; try discriminate E; [|reflexivity].
  injection E as E. f_equal.
  apply (map_injective_on section_key not_sentinel); auto.
  apply section_key_injective.
Qed.

Lemma Forall_not_marker (f : string -> string) ws :
  (forall w, not_sentinel w -> is_marker (f w) = false) ->
  Forall not_sentinel ws ->
  Forall (fun k => is_marker k = false) (map f ws).
Proof.
  intros Hf H. apply Forall_map. revert H. apply Forall_impl. exact Hf.
Qed.

(** Away from the seven one-digit words, the keys that [add] walks
    through determine the words of the three texts. *)
Lemma keys_of_shape_injective (s s' : shape) :
  good_shape s -> good_shape s' ->
  keys_of_shape s = keys_of_shape s' -> s = s'.
Proof.
  destruct s as [[p th] tp], s' as [[p' th'] tp']. intros H H' E.
  apply good_shape_parts in H as (Hp & Hth & Htp).
  apply good_shape_parts in H' as (Hp' & Hth' & Htp').
  cbn [keys_of_shape] in E.
  apply split_at_marker in E as [Ep E].
  - apply (map_injective_on pattern_key not_sentinel) in Ep;
      auto using pattern_key_injective. subst p'.
    assert (th = th' /\ tp = tp') as [-> ->]; [|reflexivity].
    destruct th as [ws|], th' as [ws'|];
      cbn [keys_of_section app words_or_none] in E, Hth, Hth'.
    + injection E as E. apply split_at_marker in E as [E1 E2].
      * apply (map_injective_on section_key not_sentinel) in E1;
          auto using section_key_injective. subst ws'.
        apply keys_of_section_injective in E2; [|assumption..].
        now subst.
      * apply Forall_not_marker; auto using section_key_not_marker.
      * apply Forall_not_marker; auto using section_key_not_marker.
      * now apply keys_of_section_marker.
      * now apply keys_of_section_marker.
    + destruct tp' as [ws'|]; discriminate E.
    + destruct tp as [ws|]; discriminate E.
    + apply keys_of_section_injective in E; [|assumption..]. now subst.
  - apply Forall_not_marker; auto using pattern_key_not_marker.
  - apply Forall_not_marker; auto using pattern_key_not_marker.
  - destruct th; [reflexivity|]. cbn [keys_of_section app].
    now apply keys_of_section_marker.
  - destruct th'; [reflexivity|]. cbn [keys_of_section app].
    now apply keys_of_section_marker.
Qed.

Lemma keys_of_shape_no_template (s : shape) :
  good_shape s -> ~ In _TEMPLATE (keys_of_shape s).
Proof.
  destruct s as [[p th] tp]. intros H.
  apply good_shape_parts in H as (Hp & Hth & Htp).
  cbn [keys_of_shape]. rewrite !in_app_iff.
  assert (Hsec : forall marker o,
             marker <> _TEMPLATE -> Forall not_sentinel (words_or_none o) ->
             ~ In _TEMPLATE (keys_of_section marker o)).
  { intros marker [ws|] Hm Hws; cbn [keys_of_section words_or_none In] in *;
      [|tauto].
    intros [E|E]; [now apply Hm|].
    apply in_map_iff in E as (w & E & Hin).
    rewrite Forall_forall in Hws.
    now apply (section_key_not_template w (Hws w Hin)). }
  intros [E|[E|E]].
  - apply in_map_iff in E as (w & E & Hin).
    rewrite Forall_forall in Hp.
    now apply (pattern_key_not_template w (Hp w Hin)).
  - revert E. apply Hsec; [discriminate | exact Hth].
  - revert E. apply Hsec; [discriminate | exact Htp].
Qed.

Lemma existsb_map_compose {A B : Type} (f : A -> B) (p : B -> bool) l :
  existsb p (map f l) = existsb (fun x => p (f x)) l.
Proof.
  induction l as [|x l IH]; [reflexivity|]. cbn [map existsb]. now rewrite IH.
Qed.

Lemma count_fresh_map {A B : Type} (f : A -> B) (same : B -> B -> bool) l :
  forall seen,
    count_fresh same (map f seen) (map f l)
    = count_fresh (fun a b => same (f a) (f b)) seen l.
Proof.
  induction l as [|x l IH]; intros seen; [reflexivity|].
  cbn [map count_fresh]. rewrite existsb_map_compose.
  f_equal. exact (IH (x :: seen)).
Qed.

Lemma count_fresh_ext {A : Type} (same same' : A -> A -> bool)
  (P : A -> Prop) :
  (forall a b, P a -> P b -> same a b = same' a b) ->
  forall l seen,
    Forall P seen -> Forall P l ->
    count_fresh same seen l = count_fresh same' seen l.
Proof.
  intros Hsame. induction l as [|x l IH]; intros seen Hseen Hl;
    [reflexivity|].
  inversion Hl as [|? ? Hx Hl']; subst. cbn [count_fresh].
  rewrite (IH (x :: seen)) by (auto using Forall_cons).
  assert (existsb (same x) seen = existsb (same' x) seen) as ->;
    [|reflexivity].
  induction Hseen as [|y seen Hy _ IHs]; [reflexivity|].
  cbn [existsb]. now rewrite IHs, Hsame.
Qed.

Lemma same_keys_as_same_shape (a b : string * string * string) :
  good_shape (shape_of a) -> good_shape (shape_of b) ->
  same_keys (add_keys a) (add_keys b) = same_shape (shape_of a) (shape_of b).
Proof.
  intros Ha Hb. rewrite !add_keys_of_shape.
  destruct (same_shape (shape_of a) (shape_of b)) eqn:E.
  - apply same_shape_spec in E. rewrite E. now apply same_keys_spec.
  - destruct (same_keys _ _) eqn:E'; [|reflexivity].
    apply same_keys_spec in E'.
    apply keys_of_shape_injective in E'; auto.
    apply same_shape_spec in E'. congruence.
Qed.

(** C4 (amended).  For every sequence of calls of [add] on the empty
    store in which no word of a pattern, a that or a topic is one of the
    seven one-digit texts that serve as keys, no call raises and
    [numTemplates] is the number of calls whose triple, read as [add]
    reads it (the words of the pattern, and the words of the that and of
    the topic when these are not empty), had not been the triple of an
    earlier call, which is the number of distinct such triples among the
    calls: the count grows by one at the first template of a node and stays
    when a template is replaced. *)
Theorem C4_numTemplates_counts_new_triples {T : Type}
  (calls : list (string * string * string * T)) :
  Forall (fun call => Forall not_sentinel (words_of_data (fst call))) calls ->
  exists self,
    add_all init calls = Ok self /\
    numTemplates self
    = count_fresh same_shape [] (map (fun call => shape_of (fst call)) calls) /\
    numTemplates self
    = length (nodup shape_dec (map (fun call => shape_of (fst call)) calls)).
Proof.
  intros Hall.
  assert (Hgood : Forall (fun data => good_shape (shape_of data))
                    (map fst calls)).
  { apply Forall_map. exact Hall. }
  destruct (add_all_count calls init [] tidy_nil) as (self & Hself & Hcount).
  - intros keys _. apply has_template_nil.
  - unfold keys_of_calls. apply Forall_map. revert Hall. apply Forall_impl.
    intros call Hcall. rewrite add_keys_of_shape.
    now apply keys_of_shape_no_template.
  - exists self. split; [exact Hself|].
    assert (E : numTemplates self
                = count_fresh same_shape []
                    (map (fun call => shape_of (fst call)) calls)).
    { rewrite Hcount. cbn [numTemplates init _templateCount Nat.add].
      unfold keys_of_calls. rewrite <- (map_map fst add_keys).
      rewrite <- (map_map fst shape_of).
      etransitivity;
        [exact (count_fresh_map add_keys same_keys (map fst calls) [])|].
      symmetry. etransitivity;
        [exact (count_fresh_map shape_of same_shape (map fst calls) [])|].
      symmetry.
      apply (count_fresh_ext _ _ (fun data => good_shape (shape_of data)));
        auto using same_keys_as_same_shape. }
    split; [exact E|]. rewrite E.
    apply count_fresh_all. apply same_shape_spec.
Qed.

Lemma not_sentinel_by_computation (ws : list string) :
  forallb (fun w => negb (existsb (String.eqb w) sentinel_keys)) ws = true ->
  Forall not_sentinel ws.
Proof.
  intros H. apply Forall_forall. intros w Hin.
  rewrite forallb_forall in H. specialize (H w Hin).
  apply negb_true_iff in H. intros Hs.
  assert (existsb (String.eqb w) sentinel_keys = true); [|congruence].
  apply existsb_exists. exists w. split; [exact Hs | apply String.eqb_refl].
Qed.

Lemma C4_witness :
  exists self,
    add_all init (three_patterns ++ three_patterns) = Ok self /\
    numTemplates self = 3 /\ numTemplates self = 3.
Proof.
  apply (C4_numTemplates_counts_new_triples (three_patterns ++ three_patterns)).
  repeat (apply Forall_cons;
          [apply not_sentinel_by_computation; reflexivity|]).
  apply Forall_nil.
Defined.

(** C4 as the specification states it fails: [add] splits its texts at
    white space, so that the patterns [A B] with one blank and with two are
    two new triples that lead to one node. *)
Definition one_blank_and_two : list (string * string * string * string) :=
  [("A B", empty, empty, "T1"); ("A  B", empty, empty, "T2")].

Lemma C4_counterexample :
  count_fresh same_data [] (map fst one_blank_and_two) = 2 /\
  keys_of_calls one_blank_and_two = [["A"; "B"]; ["A"; "B"]] /\
  add_all init one_blank_and_two = Ok (store_of one_blank_and_two) /\
  numTemplates (store_of one_blank_and_two) = 1.
Proof. repeat split; vm_compute; reflexivity. Qed.

(** ** C5: the special keys and the words *)

Definition is_lower (c : ascii) : bool :=
  let n := nat_of_ascii c in (97 <=? n) && (n <=? 122).

(** A word of a normalized text: not empty, and without white space,
    punctuation and small letters. *)
Definition normalized_word (w : string) : bool :=
  negb (String.eqb w EmptyString) &&
  forallb (fun c => negb (Text.is_space c || Text.is_punct c || is_lower c))
    (Text.chars w).

Lemma word_keys (w : string) :
  normalized_word w = true -> pattern_key w = w /\ section_key w = w.
Proof.
  intros Hw. unfold pattern_key, section_key.
  repeat match goal with
    | |- context [String.eqb w ?s] =>
        destruct (String.eqb_spec w s) as [->|_]; [discriminate Hw|]
    end.
  now split.
Qed.

(** The keys of a pattern made of normalized words are its words. *)
Lemma keys_of_words (ws : list string) :
  Forall (fun w => normalized_word w = true) ws ->
  map pattern_key ws = ws /\ map section_key ws = ws.
Proof.
  induction 1 as [|w ws Hw _ [IHp IHs]]; simpl; [now split|].
  destruct (word_keys w Hw) as [-> ->]. now rewrite IHp, IHs.
Qed.

Definition one_store : PatternMgr string :=
  {| _root := [(_STAR, Node [(_TEMPLATE, Tmpl "T1")])];
     _templateCount := 1;
     _botName := "Nameless" |}.

(** C5, at the word [1]: it is a normalized word, [add] stores it under
    the key of the star, in the pattern as in the that and the topic, and
    the pattern [1] then matches what the pattern [*] matches. *)
Theorem C5_word_one_takes_the_star_key :
  normalized_word "1" = true /\
  pattern_key "1" = _STAR /\ section_key "1" = _STAR /\
  add init ("1", empty, empty) "T1" = Ok one_store /\
  add init ("*", empty, empty) "T1" = Ok one_store /\
  match_ one_store "hello there" empty empty
  = Ok (Some ([_STAR], Tmpl "T1")).
Proof. repeat split; vm_compute; reflexivity. Qed.

(** ** C6: an utterance without words *)

Section NoWords.

Context {T : Type}.

(** The word lists that [match] passes on. *)
Definition input_words_of_match (pattern : string) : list string :=
  Text.split (Text.strip_punct (Text.upper pattern)).
Definition that_words (that : string) : list string :=
  Text.split (Text.collapse_ws (Text.strip_punct (Text.upper (that_of that)))).
Definition topic_words_of_match (topic : string) : list string :=
  Text.split (Text.strip_punct (Text.upper (topic_of topic))).

Lemma match_as__match (self : PatternMgr T) pattern that topic :
  pattern <> EmptyString ->
  match_ self pattern that topic
  = _match (_botName self) (Node (_root self)) (input_words_of_match pattern)
      (that_words that) (topic_words_of_match topic).
Proof.
  intros H. unfold match_. destruct pattern; [contradiction|reflexivity].
Qed.

Lemma caret_at_the_end (botName : string) (d c : dict T) t thatWords topicWords :
  get _CARET d = Some (Node c) ->
  get _CARET c = None -> get _THAT c = None -> get _TOPIC c = None ->
  get _TEMPLATE c = Some t ->
  end_of_input botName d thatWords topicWords = Ok (Some ([_CARET], t)).
Proof.
  intros Hd Hc Hth Htp Ht.
  assert (E : _match botName (Node c) [] thatWords topicWords = Ok (Some ([], t))).
  { rewrite _match_nil. unfold end_of_input, template_here.
    rewrite Hc, Hth, Htp, Ht.
    destruct thatWords; [destruct topicWords|]; reflexivity. }
  unfold end_of_input at 1. now rewrite Hd, E.
Qed.

(** The descent below the key [k] finds nothing: the key is absent, or
    the matcher returns no match from the child. *)
Definition nothing_below (k : string) (d : dict T)
  (descend : value T -> res (option (found T))) : Prop :=
  match get k d with
  | Some c => descend c = Ok None
  | None => True
  end.

(** C6 (amended).  For every utterance that is not the empty text and
    whose normalization has no word, [match] treats the root as the end
    of the input.  A match below the caret child is returned, behind the
    key [_CARET].  When the root has no caret child: a match of the that
    words below the child [_THAT] is returned behind [_THAT]; without that
    words, a match of the topic words below the child [_TOPIC] is returned
    behind [_TOPIC]; and when this descent finds nothing the result is the
    template of the root, or no match.  (What follows a caret child that
    finds nothing is not stated.)  On a tidy store, with no that or topic
    word equal to the key [_TEMPLATE], nothing is raised; and a root whose
    caret child holds a template and has no caret, that or topic edge
    gives a match. *)
Theorem C6_no_words_end_of_input (self : PatternMgr T) (pattern that topic : string) :
  pattern <> EmptyString ->
  input_words_of_match pattern = [] ->
  (forall c path t,
      get _CARET (_root self) = Some c ->
      _match (_botName self) c [] (that_words that) (topic_words_of_match topic)
      = Ok (Some (path, t)) ->
      match_ self pattern that topic = Ok (Some (_CARET :: path, t)))
  /\ (get _CARET (_root self) = None ->
      (forall c path t,
          that_words that <> [] ->
          get _THAT (_root self) = Some c ->
          _match (_botName self) c (that_words that) []
            (topic_words_of_match topic) = Ok (Some (path, t)) ->
          match_ self pattern that topic = Ok (Some (_THAT :: path, t)))
      /\ (forall c path t,
          that_words that = [] ->
          topic_words_of_match topic <> [] ->
          get _TOPIC (_root self) = Some c ->
          _match (_botName self) c (topic_words_of_match topic) [] []
          = Ok (Some (path, t)) ->
          match_ self pattern that topic = Ok (Some (_TOPIC :: path, t)))
      /\ ((that_words that <> [] ->
           nothing_below _THAT (_root self)
             (fun c => _match (_botName self) c (that_words that) []
                         (topic_words_of_match topic))) ->
          (that_words that = [] ->
           topic_words_of_match topic <> [] ->
           nothing_below _TOPIC (_root self)
             (fun c => _match (_botName self) c (topic_words_of_match topic)
                         [] [])) ->
          match_ self pattern that topic = template_here (_root self)))
  /\ (tidy (_root self) ->
      ~ In _TEMPLATE (that_words that) ->
      ~ In _TEMPLATE (topic_words_of_match topic) ->
      is_ok (match_ self pattern that topic))
  /\ (forall c t,
        get _CARET (_root self) = Some (Node c) ->
        get _CARET c = None -> get _THAT c = None -> get _TOPIC c = None ->
        get _TEMPLATE c = Some t ->
        match_ self pattern that topic = Ok (Some ([_CARET], t))).
Proof.
  intros Hne Hnil.
  assert (E : match_ self pattern that topic
              = end_of_input (_botName self) (_root self)
                  (that_words that) (topic_words_of_match topic)).
  { rewrite match_as__match by assumption. rewrite Hnil. apply _match_nil. }
  split; [|split; [|split]].
  - intros c path t Hc Hdown. rewrite E. unfold end_of_input.
    now rewrite Hc, Hdown.
  - intros Hno. rewrite E. unfold end_of_input, nothing_below. rewrite Hno.
    split; [|split].
    + intros c path t Hth Hc Hdown.
      destruct (that_words that); [contradiction|]. now rewrite Hc, Hdown.
    + intros c path t Hth Htp Hc Hdown. rewrite Hth.
      destruct (topic_words_of_match topic); [contradiction|].
      now rewrite Hc, Hdown.
    + intros Hth Htp. destruct (that_words that) as [|w ws].
      * destruct (topic_words_of_match topic) as [|w ws]; [reflexivity|].
        specialize (Htp eq_refl ltac:(discriminate)).
        destruct (get _TOPIC (_root self)); [|reflexivity]. now rewrite Htp.
      * specialize (Hth ltac:(discriminate)).
        destruct (get _THAT (_root self)); [|reflexivity]. now rewrite Hth.
  - intros Hd Hth Htp. rewrite match_as__match by assumption. rewrite Hnil.
    eapply _match_ok; eauto.
  - intros c t Hc H1 H2 H3 H4. rewrite E. now apply (caret_at_the_end _ _ c).
Qed.

End NoWords.

Definition caret_store : PatternMgr string :=
  store_of [("^", empty, empty, "T")].

Lemma C6_witness :
  match_ caret_store "?!" empty empty = Ok (Some ([_CARET], Tmpl "T")).
Proof.
  destruct (C6_no_words_end_of_input caret_store "?!" empty empty)
    as (_ & _ & _ & H); [discriminate | reflexivity |].
  apply (H [(_TEMPLATE, Tmpl "T")]); reflexivity.
Defined.

(** C6 as the specification states it fails on the empty text: its
    normalization has no word, as that of "?!" has none, and the root has
    a caret pattern, which matches "?!" at the end of the input; on the
    empty text [match] returns nothing. *)
Lemma C6_counterexample :
  input_words_of_match empty = [] /\
  input_words_of_match "?!" = [] /\
  match_ caret_store "?!" empty empty = Ok (Some ([_CARET], Tmpl "T")) /\
  match_ caret_store empty empty empty = Ok None.
Proof. repeat split; vm_compute; reflexivity. Qed.

(** ** C7: an unknown kind of wildcard *)

Section UnknownKind.

Context {T : Type}.

Definition input_words (pattern : string) : list string :=
  Text.split (Text.collapse_ws (Text.strip_punct (Text.upper pattern))).
Definition topic_words (topic : string) : list string :=
  Text.split (Text.collapse_ws (Text.strip_punct (Text.upper (topic_of topic)))).

(** Without a match [wildcard] returns the empty text before it looks at
    the kind. *)
Lemma wildcard_without_match (self : PatternMgr T) kind pattern that topic i :
  _match (_botName self) (Node (_root self)) (input_words pattern)
    (that_words that) (topic_words topic) = Ok None ->
  wildcard self kind pattern that topic i = Ok EmptyString.
Proof.
  intros H. unfold wildcard.
  unfold input_words, that_words, topic_words in H. now rewrite H.
Qed.

(** With a match an unknown kind raises [ValueError]. *)
Lemma wildcard_unknown_kind (self : PatternMgr T) kind pattern that topic i m :
  _match (_botName self) (Node (_root self)) (input_words pattern)
    (that_words that) (topic_words topic) = Ok (Some m) ->
  wildcardType_of kind = None ->
  wildcard self kind pattern that topic i = Raise ValueError.
Proof.
  intros H Hk. unfold wildcard.
  unfold input_words, that_words, topic_words in H. rewrite H.
  destruct m as [patMatch t]. cbn [bind]. now rewrite Hk.
Qed.

(** What the matcher raises, [wildcard] raises. *)
Lemma wildcard_match_raises (self : PatternMgr T) kind pattern that topic i e :
  _match (_botName self) (Node (_root self)) (input_words pattern)
    (that_words that) (topic_words topic) = Raise e ->
  wildcard self kind pattern that topic i = Raise e.
Proof.
  intros H. unfold wildcard.
  unfold input_words, that_words, topic_words in H. now rewrite H.
Qed.

(** C7 (amended).  With a kind that is none of the four, [wildcard]
    raises [ValueError] when the utterance is matched, and returns the
    empty text when it is not: the matcher runs first, and without a match
    the kind is not looked at.  The store is an argument that [wildcard]
    only reads. *)
Theorem C7_unknown_kind (self : PatternMgr T) (kind pattern that topic : string)
  (i : Z) :
  wildcardType_of kind = None ->
  (forall m,
      _match (_botName self) (Node (_root self)) (input_words pattern)
        (that_words that) (topic_words topic) = Ok (Some m) ->
      wildcard self kind pattern that topic i = Raise ValueError)
  /\ (_match (_botName self) (Node (_root self)) (input_words pattern)
        (that_words that) (topic_words topic) = Ok None ->
      wildcard self kind pattern that topic i = Ok EmptyString)
  /\ (forall e,
      _match (_botName self) (Node (_root self)) (input_words pattern)
        (that_words that) (topic_words topic) = Raise e ->
      wildcard self kind pattern that topic i = Raise e).
Proof.
  intros Hkind. split; [|split].
  - intros m Hm. exact (wildcard_unknown_kind self kind _ _ _ i m Hm Hkind).
  - apply wildcard_without_match.
  - intros e. apply wildcard_match_raises.
Qed.

End UnknownKind.

Lemma C7_witness :
  wildcard likes_store "bogus" "I like cats" empty empty 1%Z = Raise ValueError
  /\ wildcard likes_store "bogus" "hello" empty empty 1%Z = Ok EmptyString.
Proof.
  split.
  - apply (proj1 (C7_unknown_kind likes_store "bogus" "I like cats" empty empty
                    1%Z eq_refl) (["I"; "LIKE"; _STAR], Tmpl "T2")).
    reflexivity.
  - apply (proj1 (proj2 (C7_unknown_kind likes_store "bogus" "hello" empty
                           empty 1%Z eq_refl))).
    reflexivity.
Defined.

(** C7 as the specification states it fails: on the empty store nothing
    matches "hello", and [wildcard] with the kind "bogus", which is none of
    the four kinds, returns the empty text and raises nothing. *)
Lemma C7_counterexample :
  wildcardType_of "bogus" = None /\
  wildcard (@init string) "bogus" "hello" empty empty 1%Z = Ok EmptyString.
Proof. split; vm_compute; reflexivity. Qed.

(** ** C8: the path of a match *)

Section Descent.

Context {T : Type}.
Variable botName : string.

(** [descent root words thatWords topicWords path t]: the steps of the
    matcher from [root] to the template [t], each with the child it enters
    and with the element it puts on the path.  On the edge [_BOT_NAME] this
    element is the input word, which is the name of the bot. *)
Inductive descent
  : value T -> list string -> list string -> list string ->
    list string -> value T -> Prop :=
| descent_template d thatWords topicWords t :
    get _TEMPLATE d = Some t ->
    descent (Node d) [] thatWords topicWords [] t
| descent_last_caret d c thatWords topicWords path t :
    get _CARET d = Some c ->
    descent c [] thatWords topicWords path t ->
    descent (Node d) [] thatWords topicWords (_CARET :: path) t
| descent_that d c w thatWords topicWords path t :
    get _THAT d = Some c ->
    descent c (w :: thatWords) [] topicWords path t ->
    descent (Node d) [] (w :: thatWords) topicWords (_THAT :: path) t
| descent_topic d c w topicWords path t :
    get _TOPIC d = Some c ->
    descent c (w :: topicWords) [] [] path t ->
    descent (Node d) [] [] (w :: topicWords) (_TOPIC :: path) t
| descent_underscore d c first suffix j thatWords topicWords path t :
    get _UNDERSCORE d = Some c ->
    descent c (skipn j suffix) thatWords topicWords path t ->
    descent (Node d) (first :: suffix) thatWords topicWords
      (_UNDERSCORE :: path) t
| descent_word d c first suffix thatWords topicWords path t :
    get first d = Some c ->
    descent c suffix thatWords topicWords path t ->
    descent (Node d) (first :: suffix) thatWords topicWords (first :: path) t
| descent_bot_name d c first suffix thatWords topicWords path t :
    first = botName ->
    get _BOT_NAME d = Some c ->
    descent c suffix thatWords topicWords path t ->
    descent (Node d) (first :: suffix) thatWords topicWords (first :: path) t
| descent_caret d c first suffix j thatWords topicWords path t :
    get _CARET d = Some c ->
    descent c (skipn j (first :: suffix)) thatWords topicWords path t ->
    descent (Node d) (first :: suffix) thatWords topicWords (_CARET :: path) t
| descent_star d c first suffix j thatWords topicWords path t :
    get _STAR d = Some c ->
    descent c (skipn j suffix) thatWords topicWords path t ->
    descent (Node d) (first :: suffix) thatWords topicWords (_STAR :: path) t.

Lemma _match_descent (root : value T) :
  forall words thatWords topicWords path t,
    _match botName root words thatWords topicWords = Ok (Some (path, t)) ->
    descent root words thatWords topicWords path t.
Proof.
  induction root as [t0|d IH] using value_children_ind;
    intros words thatWords topicWords path t H; [discriminate|].
  assert (Hhere : forall p, template_here d = Ok (Some (p, t)) ->
                            descent (Node d) [] thatWords topicWords p t).
  { intros p Hp. apply template_here_success in Hp as [-> Hp].
    now constructor. }
  destruct words as [|first suffix].
  - rewrite _match_nil in H. unfold end_of_input in H.
    destruct (get _CARET d) as [c|] eqn:Ec.
    { apply or_template_here_success in H as [H|H]; [|auto].
      apply prepend_success in H as (q & Hq & ->).
      eapply descent_last_caret; eauto. }
    destruct thatWords as [|w ws].
    + destruct topicWords as [|w ws]; [auto|].
      destruct (get _TOPIC d) as [c|] eqn:Et; [|auto].
      apply or_template_here_success in H as [H|H]; [|auto].
      apply prepend_success in H as (q & Hq & ->).
      eapply descent_topic; eauto.
    + destruct (get _THAT d) as [c|] eqn:Et; [|auto].
      apply or_template_here_success in H as [H|H]; [|auto].
      apply prepend_success in H as (q & Hq & ->).
      eapply descent_that; eauto.
  - rewrite _match_cons in H. apply first_success_In in H.
    unfold attempt_underscore, attempt_first, attempt_bot_name,
      attempt_caret, attempt_star in H.
    cbn [In] in H.
    destruct H as [H|[H|[H|[H|[H|[]]]]]].
    + apply via_success in H as (c & Hc & H).
      apply prepend_success in H as (q & Hq & ->).
      apply try_suffixes_success in Hq as [j Hq].
      eapply (descent_underscore _ _ _ _ j); eauto.
    + apply via_success in H as (c & Hc & H).
      apply prepend_success in H as (q & Hq & ->).
      eapply descent_word; eauto.
    + destruct (String.eqb_spec first botName) as [Hname|_]; [|discriminate].
      apply via_success in H as (c & Hc & H).
      apply prepend_success in H as (q & Hq & ->).
      eapply descent_bot_name; eauto.
    + apply via_success in H as (c & Hc & H).
      apply prepend_success in H as (q & Hq & ->).
      apply try_suffixes_success in Hq as [j Hq].
      eapply (descent_caret _ _ _ _ j); eauto.
    + apply via_success in H as (c & Hc & H).
      apply prepend_success in H as (q & Hq & ->).
      apply try_suffixes_success in Hq as [j Hq].
      eapply (descent_star _ _ _ _ j); eauto.
Qed.

Lemma In_skipn {A : Type} (x : A) j (l : list A) : In x (skipn j l) -> In x l.
Proof.
  revert l. induction j as [|j IH]; intros [|y l] H; simpl in *; auto.
Qed.

(** The key [_BOT_NAME] is on the path only where the input has it as a
    word. *)
Lemma descent_bot_name_key root words thatWords topicWords path t :
  descent root words thatWords topicWords path t ->
  In _BOT_NAME path -> In _BOT_NAME (words ++ thatWords ++ topicWords).
Proof.
  induction 1 as
    [ d thatWords topicWords t Ht
    | d c thatWords topicWords path t Hc _ IH
    | d c w thatWords topicWords path t Hc _ IH
    | d c w topicWords path t Hc _ IH
    | d c first suffix j thatWords topicWords path t Hc _ IH
    | d c first suffix thatWords topicWords path t Hc _ IH
    | d c first suffix thatWords topicWords path t Hname Hc _ IH
    | d c first suffix j thatWords topicWords path t Hc _ IH
    | d c first suffix j thatWords topicWords path t Hc _ IH ];
    intros Hin.
  - destruct Hin.
  - destruct Hin as [Hin|Hin]; [discriminate Hin | auto].
  - destruct Hin as [Hin|Hin]; [discriminate Hin|].
    specialize (IH Hin). cbn [app] in IH |- *. exact IH.
  - destruct Hin as [Hin|Hin]; [discriminate Hin|].
    specialize (IH Hin). cbn [app] in IH |- *.
    now rewrite app_nil_r in IH.
  - destruct Hin as [Hin|Hin]; [discriminate Hin|].
    specialize (IH Hin). apply in_app_or in IH as [IH|IH].
    + right. apply in_or_app. left. eapply In_skipn; eauto.
    + right. apply in_or_app. now right.
  - destruct Hin as [Hin|Hin]; [now left|].
    right. auto.
  - destruct Hin as [Hin|Hin]; [now left|].
    right. auto.
  - destruct Hin as [Hin|Hin]; [discriminate Hin|].
    specialize (IH Hin). apply in_app_or in IH as [IH|IH].
    + apply in_or_app. left. eapply In_skipn; eauto.
    + apply in_or_app. now right.
  - destruct Hin as [Hin|Hin]; [discriminate Hin|].
    specialize (IH Hin). apply in_app_or in IH as [IH|IH].
    + right. apply in_or_app. left. eapply In_skipn; eauto.
    + right. apply in_or_app. now right.
Qed.

End Descent.

(** C8 (amended).  Whenever [match] succeeds, the returned path lists, in
    their order, the steps of the descent from the root to the node that
    holds the returned template: the special key of the child entered, or
    the input word where the child is entered under this word, and on the
    edge [_BOT_NAME] the input word, equal to the name of the bot, and not
    the key.  So the key [_BOT_NAME] is on a path only where the utterance,
    the that or the topic has it as a word. *)
Theorem C8_path_follows_the_descent {T : Type} (self : PatternMgr T)
  (pattern that topic : string) (path : list string) (t : value T) :
  match_ self pattern that topic = Ok (Some (path, t)) ->
  descent (_botName self) (Node (_root self))
    (input_words_of_match pattern) (that_words that)
    (topic_words_of_match topic) path t
  /\ (In _BOT_NAME path ->
      In _BOT_NAME (input_words_of_match pattern ++ that_words that
                    ++ topic_words_of_match topic)).
Proof.
  unfold match_. destruct (String.length pattern =? 0); [discriminate|].
  intros H. apply _match_descent in H. split; [exact H|].
  exact (descent_bot_name_key _ _ _ _ _ _ _ H).
Qed.

Lemma C8_witness :
  descent "ALICE" (Node (_root ALICE_store)) ["ALICE"; "ROCKS"]
    ["ULTRABOGUSDUMMYTHAT"] ["ULTRABOGUSDUMMYTOPIC"]
    ["ALICE"; "ROCKS"] (Tmpl "T7")
  /\ (In _BOT_NAME ["ALICE"; "ROCKS"] ->
      In _BOT_NAME (["ALICE"; "ROCKS"] ++ ["ULTRABOGUSDUMMYTHAT"]
                    ++ ["ULTRABOGUSDUMMYTOPIC"])).
Proof.
  apply (C8_path_follows_the_descent ALICE_store "alice rocks" empty empty).
  vm_compute. reflexivity.
Defined.

(** C8 as the specification states it fails on the edge [_BOT_NAME]: the path has the
    word "ALICE", which is no key of the root, and not the key
    [_BOT_NAME]. *)
Lemma C8_counterexample :
  match_ ALICE_store "alice rocks" empty empty
  = Ok (Some (["ALICE"; "ROCKS"], Tmpl "T7")) /\
  ~ keys_only (Node (_root ALICE_store)) ["ALICE"; "ROCKS"] (Tmpl "T7") /\
  keys_only (Node (_root ALICE_store)) [_BOT_NAME; "ROCKS"] (Tmpl "T7").
Proof.
  split; [vm_compute; reflexivity|]. split.
  - intros H. inversion H as [|d k c p t Hget _]; subst.
    vm_compute in Hget. discriminate Hget.
  - eapply keys_only_key; [vm_compute; reflexivity|].
    eapply keys_only_key; [vm_compute; reflexivity|].
    apply keys_only_template. reflexivity.
Qed.

(** ** C9: save and restore *)

Section RoundTrip.

Context {T : Type}.
Variable chunk : Type.
Variable marshal_writes : object T -> bool.
Variable marshal_dump : object T -> list chunk.
Variable marshal_load : list chunk -> option (object T * list chunk).

(** What is assumed of [marshal]: an object that [marshal.dump] wrote is
    loaded back, and the rest of the file is left. *)
Hypothesis marshal_load_dump :
  forall o rest,
    marshal_writes o = true ->
    marshal_load (marshal_dump o ++ rest) = Some (o, rest).





End RoundTrip.

(** A [marshal] that writes each object as one chunk. *)
Definition one_chunk_dump (o : object string) : list (object string) := [o].
Definition one_chunk_load (file : list (object string))
  : option (object string * list (object string)) :=
  match file with
  | o :: rest => Some (o, rest)
  | [] => None
  end.








(** ** C10: the wildcard locator *)

(** [key in [self._STAR, self._UNDERSCORE]] *)
Definition starry (key : string) : bool :=
  String.eqb key _STAR || String.eqb key _UNDERSCORE.

Definition wild (key : string) : bool :=
  starry key || String.eqb key _CARET.

(** An alignment of a pattern with a list of words: each key of the
    pattern with the words it stands for. *)
Definition alignment : Type := list (string * list string).

Definition keys_of (al : alignment) : list string := map fst al.
Definition words_of (al : alignment) : list string := concat (map snd al).

Definition occurs (q : string) (span : list string) : bool :=
  existsb (String.eqb q) span.

(** The key after a wildcard is a word, and this word is not among the
    words of the wildcard. *)
Definition followed_by_new_word (span : list string) (rest : alignment) : bool :=
  match rest with
  | (q, _) :: _ => negb (wild q) && negb (occurs q span)
  | [] => false
  end.

(** [separated al]: a star or an underscore stands for one word or more, a
    caret for any number of words, any other key for itself; and every
    wildcard is followed by a word that does not occur in its span. *)
Fixpoint separated (al : alignment) : bool :=
  match al with
  | [] => true
  | (key, span) :: rest =>
      (if starry key
       then negb (Nat.eqb (length span) 0) && followed_by_new_word span rest
       else if String.eqb key _CARET then followed_by_new_word span rest
       else same_keys span [key])
      && separated rest
  end.

Definition count_starry (al : alignment) : nat :=
  length (filter (fun seg => starry (fst seg)) al).

(** How the span [ws] of the wanted wildcard ends: with the pattern and
    the words, or before a key that is the next word and does not occur
    in [ws]. *)
Definition ends_well (ws rest_pat rest_words : list string) : bool :=
  match rest_pat, rest_words with
  | [], [] => true
  | q :: _, q' :: _ => String.eqb q q' && negb (occurs q ws)
  | _, _ => false
  end.

Section LocatorFacts.

Variables (patMatch words : list string).
Variable wanted : wildcardType.
Variable index_ : Z.

Lemma nth_error_middle {A : Type} (l l' : list A) (a : A) :
  nth_error (l ++ a :: l') (length l) = Some a.
Proof. induction l; simpl; auto. Qed.

Lemma scan_at_end j k ks last :
  j + 1 = length patMatch -> scan patMatch words j (k :: ks) last = Ok (AtEnd k).
Proof. intros H. simpl. now rewrite H, Nat.eqb_refl. Qed.

Lemma scan_resumes j q post ws : forall pre last r,
  words = pre ++ ws ++ q :: post ->
  occurs q ws = false ->
  nth_error patMatch (j + 1) = Some q ->
  scan patMatch words j (seq (length pre) (length ws + S r)) last
  = Ok (Resumed (length pre + length ws)).
Proof.
  assert (Hlt : nth_error patMatch (j + 1) = Some q ->
                (j + 1 =? length patMatch) = false).
  { intros H. apply Nat.eqb_neq. intros E.
    assert (nth_error patMatch (j + 1) <> None) by congruence.
    apply nth_error_Some in H0. lia. }
  induction ws as [|w ws IH]; intros pre last r Hwords Hocc Hq.
  - simpl. rewrite (Hlt Hq), Hq, Hwords. simpl.
    rewrite nth_error_middle, String.eqb_refl. f_equal. f_equal. lia.
  - simpl in Hocc. apply orb_false_elim in Hocc as [Hw Hocc].
    cbn [length Nat.add seq]. cbn [scan].
    rewrite (Hlt Hq), Hq.
    replace (nth_error words (length pre)) with (Some w)
      by (rewrite Hwords; simpl; now rewrite nth_error_middle).
    rewrite Hw.
    specialize (IH (pre ++ [w]) (length pre) r).
    rewrite length_app in IH. simpl in IH.
    replace (length pre + 1) with (S (length pre)) in IH by lia.
    rewrite IH; auto.
    + f_equal. f_equal. lia.
    + rewrite Hwords. now rewrite <- app_assoc.
Qed.

Lemma locate_skip m : forall i r j k start end_ numStars numCarets,
  i + m <= k ->
  locate patMatch words wanted index_ (seq i (m + r)) j k start end_
    numStars numCarets
  = locate patMatch words wanted index_ (seq (i + m) r) j k start end_
      numStars numCarets.
Proof.
  induction m as [|m IH]; intros i r j k start end_ numStars numCarets H.
  - now rewrite Nat.add_0_r.
  - cbn [Nat.add seq]. cbn [locate].
    replace (i <? k) with true by (symmetry; apply Nat.ltb_lt; lia).
    rewrite IH by lia. now replace (i + S m) with (S i + m) by lia.
Qed.


Lemma nth_error_after {A : Type} (l l' : list A) (a b : A) :
  nth_error (l ++ a :: b :: l') (length l + 1) = Some b.
Proof. induction l; simpl; auto. Qed.

Ltac len := repeat rewrite ?length_app, ?length_cons; simpl; lia.

(** One turn of the loop at a key that is no wildcard. *)
Lemma locate_word pre_pat key rest_keys pre_words w post
  k start end_ numStars numCarets :
  patMatch = pre_pat ++ key :: rest_keys ->
  words = pre_words ++ w :: post ->
  wild key = false ->
  k <= length pre_words ->
  locate patMatch words wanted index_
    (seq (length pre_words) (length words - length pre_words))
    (length pre_pat) k start end_ numStars numCarets
  = locate patMatch words wanted index_
      (seq (length (pre_words ++ [w])) (length words - length (pre_words ++ [w])))
      (length (pre_pat ++ [key])) k start end_ numStars numCarets.
Proof.
  intros Hpat Hwords Hkey Hk.
  unfold wild, starry in Hkey.
  apply orb_false_elim in Hkey as [Hkey Hc].
  replace (length words - length pre_words) with (S (length post))
    by (rewrite Hwords; len).
  cbn [seq locate].
  replace (length pre_words <? k) with false
    by (symmetry; apply Nat.ltb_ge; lia).
  replace (length pre_pat =? length patMatch) with false
    by (symmetry; apply Nat.eqb_neq; rewrite Hpat; len).
  replace (nth_error patMatch (length pre_pat)) with (Some key)
    by (rewrite Hpat; now rewrite nth_error_middle).
  rewrite Hkey, Hc.
  replace (length (pre_words ++ [w])) with (S (length pre_words)) by len.
  replace (length (pre_pat ++ [key])) with (length pre_pat + 1) by len.
  replace (length words - S (length pre_words)) with (length post)
    by (rewrite Hwords; len).
  reflexivity.
Qed.

(** The turns of the loop at a wildcard that is not the wanted one and
    that stands for one word or more: the loop goes on at the word that
    follows the span. *)
Lemma locate_past_span pre_pat key q rest_keys pre_words span post
  k start end_ numStars numCarets :
  patMatch = pre_pat ++ key :: q :: rest_keys ->
  words = pre_words ++ span ++ q :: post ->
  wild key = true ->
  span <> [] ->
  occurs q span = false ->
  k <= length pre_words ->
  (if starry key then Z.of_nat (numStars + 1) <> index_
   else has_caret wanted = false) ->
  locate patMatch words wanted index_
    (seq (length pre_words) (length words - length pre_words))
    (length pre_pat) k start end_ numStars numCarets
  = locate patMatch words wanted index_
      (seq (length (pre_words ++ span)) (length words - length (pre_words ++ span)))
      (length (pre_pat ++ [key])) (length (pre_words ++ span))
      (length pre_words) (Z.of_nat (length (pre_words ++ span)) - 1)%Z
      (if starry key then numStars + 1 else numStars)
      (if starry key then numCarets else numCarets + 1).
Proof.
  intros Hpat Hwords Hkey Hspan Hocc Hk Hnot.
  destruct span as [|w0 span'] eqn:Espan; [contradiction|].
  rewrite <- Espan in *.
  assert (Hlen : length words - length pre_words
                 = S (length span' + S (length post))).
  { rewrite Hwords, Espan. len. }
  assert (Hscan : scan patMatch words (length pre_pat)
                    (seq (length pre_words) (length words - length pre_words)) k
                  = Ok (Resumed (length pre_words + length span))).
  { replace (length words - length pre_words)
      with (length span + S (length post)) by (rewrite Hlen, Espan; len).
    apply (scan_resumes _ q post); auto.
    rewrite Hpat. apply nth_error_after. }
  rewrite Hlen. cbn [seq locate]. rewrite Hscan.
  replace (length pre_words <? k) with false
    by (symmetry; apply Nat.ltb_ge; lia).
  replace (length pre_pat =? length patMatch) with false
    by (symmetry; apply Nat.eqb_neq; rewrite Hpat; len).
  replace (nth_error patMatch (length pre_pat)) with (Some key)
    by (rewrite Hpat; now rewrite nth_error_middle).
  change (String.eqb key _STAR || String.eqb key _UNDERSCORE) with (starry key).
  replace (length (pre_words ++ span)) with (length pre_words + length span)
    by len.
  replace (length (pre_pat ++ [key])) with (length pre_pat + 1) by len.
  assert (Hskip : forall j numStars' numCarets',
    locate patMatch words wanted index_
      (seq (S (length pre_words)) (length span' + S (length post)))
      j (length pre_words + length span) (length pre_words)
      (Z.of_nat (length pre_words + length span) - 1)%Z numStars' numCarets'
    = locate patMatch words wanted index_
        (seq (length pre_words + length span)
           (length words - (length pre_words + length span)))
        j (length pre_words + length span) (length pre_words)
        (Z.of_nat (length pre_words + length span) - 1)%Z numStars' numCarets').
  { intros j numStars' numCarets'.
    rewrite locate_skip by (rewrite Espan; len).
    replace (S (length pre_words) + length span')
      with (length pre_words + length span) by (rewrite Espan; len).
    replace (length words - (length pre_words + length span))
      with (S (length post)) by (rewrite Hwords, Espan; len).
    reflexivity. }
  destruct (starry key) eqn:Es.
  - replace (Z.of_nat (numStars + 1) =? index_)%Z with false
      by (symmetry; now apply Z.eqb_neq).
    cbn [andb bind k_after end_after]. apply Hskip.
  - unfold wild in Hkey. rewrite Es in Hkey. cbn [orb] in Hkey.
    rewrite Hkey, Hnot, andb_false_r. cbn [bind k_after end_after].
    replace (length pre_words =? length pre_words + length span) with false
      by (symmetry; apply Nat.eqb_neq; rewrite Espan; len).
    apply Hskip.
Qed.

(** The turn of the loop at a caret that stands for no word: the turn
    passes the caret and the word that follows it. *)
Lemma locate_past_empty_caret pre_pat q rest_keys pre_words post
  k start end_ numStars numCarets :
  patMatch = pre_pat ++ _CARET :: q :: rest_keys ->
  words = pre_words ++ q :: post ->
  has_caret wanted = false ->
  k <= length pre_words ->
  locate patMatch words wanted index_
    (seq (length pre_words) (length words - length pre_words))
    (length pre_pat) k start end_ numStars numCarets
  = locate patMatch words wanted index_
      (seq (length (pre_words ++ [q])) (length words - length (pre_words ++ [q])))
      (length (pre_pat ++ [_CARET; q])) (length pre_words)
      (length pre_words) (Z.of_nat (length pre_words) - 1)%Z
      numStars (numCarets + 1).
Proof.
  intros Hpat Hwords Hnot Hk.
  assert (Hlen : length words - length pre_words = S (length post)).
  { rewrite Hwords. len. }
  assert (Hscan : scan patMatch words (length pre_pat)
                    (seq (length pre_words) (length words - length pre_words)) k
                  = Ok (Resumed (length pre_words + 0))).
  { replace (length words - length pre_words)
      with (length (@nil string) + S (length post)) by (rewrite Hlen; len).
    apply (scan_resumes _ q post); auto.
    rewrite Hpat. apply nth_error_after. }
  rewrite Nat.add_0_r in Hscan.
  rewrite Hlen. cbn [seq locate]. rewrite Hscan.
  replace (length pre_words <? k) with false
    by (symmetry; apply Nat.ltb_ge; lia).
  replace (length pre_pat =? length patMatch) with false
    by (symmetry; apply Nat.eqb_neq; rewrite Hpat; len).
  replace (nth_error patMatch (length pre_pat)) with (Some _CARET)
    by (rewrite Hpat; now rewrite nth_error_middle).
  change (String.eqb _CARET _STAR || String.eqb _CARET _UNDERSCORE) with false.
  change (String.eqb _CARET _CARET) with true. cbv iota.
  rewrite Hnot, andb_false_r. cbn [bind k_after end_after].
  rewrite Nat.eqb_refl.
  replace (length (pre_words ++ [q])) with (S (length pre_words)) by len.
  replace (length (pre_pat ++ [_CARET; q])) with (length pre_pat + 1 + 1) by len.
  replace (length words - S (length pre_words)) with (length post)
    by (rewrite Hwords; len).
  reflexivity.
Qed.

Section Target.

Variables (p : string) (ws rest_pat rest_words : list string).
Hypothesis Hp : starry p = true.
Hypothesis Hws : ws <> [].
Hypothesis Hends : ends_well ws rest_pat rest_words = true.
Hypothesis Hwanted : has_star wanted = true.

(** The value of [end] when the wanted wildcard starts at the word [o]. *)
Definition expected_end (o : nat) : Z :=
  match rest_pat with
  | [] => Z.of_nat (length words)
  | _ :: _ => (Z.of_nat (o + length ws) - 1)%Z
  end.

Lemma separated_cons key span rest :
  separated ((key, span) :: rest) = true ->
  separated rest = true /\
  ((starry key = true /\ span <> [] /\
    exists q rest', rest = (q, [q]) :: rest' /\ wild q = false /\
                    occurs q span = false) \/
   (starry key = false /\ key = _CARET /\
    exists q rest', rest = (q, [q]) :: rest' /\ wild q = false /\
                    occurs q span = false) \/
   (wild key = false /\ span = [key])).
Proof.
  assert (Hfollow : forall sp, followed_by_new_word sp rest = true ->
            separated rest = true ->
            exists q rest', rest = (q, [q]) :: rest' /\ wild q = false /\
                            occurs q sp = false).
  { intros sp Hf Hs. destruct rest as [|[q sq] rest']; [discriminate|].
    simpl in Hf. apply andb_prop in Hf as [Hq Ho].
    apply negb_true_iff in Hq, Ho.
    simpl in Hs. unfold wild in Hq. apply orb_false_elim in Hq as [Hq1 Hq2].
    rewrite Hq1, Hq2 in Hs. apply andb_prop in Hs as [Hs _].
    apply same_keys_spec in Hs as ->.
    exists q, rest'. unfold wild. rewrite Hq1, Hq2. auto. }
  simpl. intros H. apply andb_prop in H as [H Hrest]. split; [exact Hrest|].
  destruct (starry key) eqn:Es.
  - left. apply andb_prop in H as [Hn Hf]. split; [reflexivity|]. split.
    + intros ->. discriminate Hn.
    + auto.
  - destruct (String.eqb_spec key _CARET) as [->|Hne].
    + right; left. auto.
    + right; right. apply same_keys_spec in H. split; [|exact H].
      unfold wild. rewrite Es. simpl. now apply String.eqb_neq.
Qed.

Lemma locate_here pre_pat pre_words k start end_ numStars numCarets :
  patMatch = pre_pat ++ p :: rest_pat ->
  words = pre_words ++ ws ++ rest_words ->
  k <= length pre_words ->
  Z.of_nat (numStars + 1) = index_ ->
  locate patMatch words wanted index_
    (seq (length pre_words) (length words - length pre_words))
    (length pre_pat) k start end_ numStars numCarets
  = Ok (Some (length pre_words, expected_end (length pre_words))).
Proof.
  intros Hpat Hwords Hk Hidx.
  destruct ws as [|w0 ws'] eqn:Ews; [contradiction|]. rewrite <- Ews in *.
  assert (Hlen : length words - length pre_words
                 = S (length ws' + length rest_words)).
  { rewrite Hwords, Ews, !length_app. simpl. lia. }
  rewrite Hlen. cbn [seq locate]. rewrite Hlen.
  replace (length pre_words <? k) with false
    by (symmetry; apply Nat.ltb_ge; lia).
  replace (length pre_pat =? length patMatch) with false
    by (symmetry; apply Nat.eqb_neq; rewrite Hpat, length_app; simpl; lia).
  replace (nth_error patMatch (length pre_pat)) with (Some p)
    by (rewrite Hpat; now rewrite nth_error_middle).
  change (String.eqb p _STAR || String.eqb p _UNDERSCORE) with (starry p).
  rewrite Hp, Hidx, Z.eqb_refl, Hwanted. cbn [andb].
  unfold expected_end. destruct rest_pat as [|q rp].
  - cbn [seq]. rewrite scan_at_end; [reflexivity|].
    rewrite Hpat, length_app. simpl. lia.
  - destruct rest_words as [|q' rw]; [discriminate Hends|].
    simpl in Hends. apply andb_prop in Hends as [Hq Hocc].
    apply String.eqb_eq in Hq as <-. apply negb_true_iff in Hocc.
    replace (S (length ws' + length (q :: rw)))
      with (length ws + S (length rw)) by (rewrite Ews; simpl; lia).
    rewrite (scan_resumes _ q rw ws pre_words k (length rw));
      [reflexivity | exact Hwords | exact Hocc |].
    rewrite Hpat. apply nth_error_after.
Qed.

Lemma locate_target fuel :
  forall before pre_pat pre_words k start end_ numStars numCarets,
    length before <= fuel ->
    patMatch = pre_pat ++ keys_of before ++ p :: rest_pat ->
    words = pre_words ++ words_of before ++ ws ++ rest_words ->
    separated before = true ->
    k <= length pre_words ->
    Z.of_nat (numStars + count_starry before + 1) = index_ ->
    locate patMatch words wanted index_
      (seq (length pre_words) (length words - length pre_words))
      (length pre_pat) k start end_ numStars numCarets
    = Ok (Some (length pre_words + length (words_of before),
                expected_end (length pre_words + length (words_of before)))).
Proof.
  induction fuel as [|fuel IH];
    intros before pre_pat pre_words k start end_ numStars numCarets
      Hfuel Hpat Hwords Hsep Hk Hidx;
    (destruct before as [|[key span] rest];
     [ simpl; rewrite Nat.add_0_r; apply locate_here; auto;
       now rewrite Nat.add_0_r in Hidx
     | ]); [simpl in Hfuel; lia|].
  assert (Hno_caret : has_caret wanted = false)
    by (destruct wanted; [discriminate Hwanted| | |]; reflexivity).
  assert (Hwords_of : forall key span rest,
            words_of ((key, span) :: rest) = span ++ words_of rest)
    by reflexivity.
  apply separated_cons in Hsep as (Hrest & [Hcase|[Hcase|Hcase]]).
  - (* a star or an underscore before the wanted one *)
    destruct Hcase as (Hs & Hspan & q & rest' & -> & Hq & Hocc).
    assert (Hcount : count_starry ((key, span) :: (q, [q]) :: rest')
                     = S (count_starry ((q, [q]) :: rest'))).
    { unfold count_starry. cbn [filter fst]. now rewrite Hs. }
    rewrite (locate_past_span pre_pat key q (keys_of rest' ++ p :: rest_pat)
               pre_words span (words_of rest' ++ ws ++ rest_words));
      [ | exact Hpat
        | rewrite Hwords, !Hwords_of; now rewrite <- !app_assoc
        | unfold wild; now rewrite Hs
        | exact Hspan | exact Hocc | exact Hk
        | rewrite Hs; rewrite Hcount in Hidx; lia ].
    rewrite Hs.
    replace (length pre_words + length (words_of ((key, span) :: (q, [q]) :: rest')))
      with (length (pre_words ++ span) + length (words_of ((q, [q]) :: rest')))
      by (rewrite !Hwords_of; len).
    apply IH.
    + simpl in Hfuel |- *. lia.
    + rewrite Hpat. cbn [keys_of map fst]. now rewrite <- !app_assoc.
    + rewrite Hwords, !Hwords_of. now rewrite <- !app_assoc.
    + exact Hrest.
    + lia.
    + rewrite Hcount in Hidx. rewrite <- Hidx. f_equal. lia.
  - (* a caret *)
    destruct Hcase as (Hs & -> & q & rest' & -> & Hq & Hocc).
    assert (Hqs : starry q = false).
    { unfold wild in Hq. now apply orb_false_elim in Hq as [Hq _]. }
    assert (Hcount : count_starry ((_CARET, span) :: (q, [q]) :: rest')
                     = count_starry ((q, [q]) :: rest')) by reflexivity.
    destruct span as [|w0 span'].
    + assert (Hcount' : count_starry ((q, [q]) :: rest') = count_starry rest').
      { unfold count_starry. cbn [filter fst]. now rewrite Hqs. }
      rewrite (locate_past_empty_caret pre_pat q (keys_of rest' ++ p :: rest_pat)
                 pre_words (words_of rest' ++ ws ++ rest_words));
        [ | exact Hpat | rewrite Hwords, !Hwords_of; reflexivity
          | exact Hno_caret | exact Hk ].
      replace (length pre_words
               + length (words_of ((_CARET, []) :: (q, [q]) :: rest')))
        with (length (pre_words ++ [q]) + length (words_of rest'))
        by (rewrite !Hwords_of; len).
      apply IH.
      * simpl in Hfuel. lia.
      * rewrite Hpat. cbn [keys_of map fst]. now rewrite <- !app_assoc.
      * rewrite Hwords, !Hwords_of. now rewrite <- !app_assoc.
      * simpl in Hrest. now apply andb_prop in Hrest as [_ Hrest].
      * len.
      * rewrite Hcount, Hcount' in Hidx. exact Hidx.
    + rewrite (locate_past_span pre_pat _CARET q (keys_of rest' ++ p :: rest_pat)
                 pre_words (w0 :: span') (words_of rest' ++ ws ++ rest_words));
        [ | exact Hpat
          | rewrite Hwords, !Hwords_of; now rewrite <- !app_assoc
          | reflexivity | discriminate | exact Hocc | exact Hk
          | exact Hno_caret ].
      change (starry _CARET) with false. cbv iota.
      replace (length pre_words
               + length (words_of ((_CARET, w0 :: span') :: (q, [q]) :: rest')))
        with (length (pre_words ++ w0 :: span')
              + length (words_of ((q, [q]) :: rest')))
        by (rewrite !Hwords_of; len).
      apply IH.
      * simpl in Hfuel |- *. lia.
      * rewrite Hpat. cbn [keys_of map fst]. now rewrite <- !app_assoc.
      * rewrite Hwords, !Hwords_of. now rewrite <- !app_assoc.
      * exact Hrest.
      * lia.
      * rewrite Hcount in Hidx. exact Hidx.
  - (* a word *)
    destruct Hcase as (Hkey & ->).
    assert (Hcount : count_starry ((key, [key]) :: rest) = count_starry rest).
    { unfold wild in Hkey. apply orb_false_elim in Hkey as [Hs _].
      unfold count_starry. cbn [filter fst]. now rewrite Hs. }
    rewrite (locate_word pre_pat key (keys_of rest ++ p :: rest_pat)
               pre_words key (words_of rest ++ ws ++ rest_words));
      [ | exact Hpat | rewrite Hwords, !Hwords_of; reflexivity
        | exact Hkey | exact Hk ].
    replace (length pre_words + length (words_of ((key, [key]) :: rest)))
      with (length (pre_words ++ [key]) + length (words_of rest))
      by (rewrite !Hwords_of; len).
    apply IH.
    + simpl in Hfuel. lia.
    + rewrite Hpat. cbn [keys_of map fst]. now rewrite <- !app_assoc.
    + rewrite Hwords, !Hwords_of. now rewrite <- !app_assoc.
    + exact Hrest.
    + len.
    + rewrite Hcount in Hidx. exact Hidx.
Qed.

End Target.

End LocatorFacts.

(** The words and the text that [wildcard] works on, by kind. *)
Definition words_for (w : wildcardType) (pattern that topic : string)
  : list string :=
  match w with
  | caret | star => input_words pattern
  | thatstar => that_words that
  | topicstar => topic_words topic
  end.

Definition original_for (w : wildcardType) (pattern that topic : string)
  : string :=
  match w with
  | caret | star => pattern
  | thatstar => that_of that
  | topicstar => topic_of topic
  end.

Definition kind_name (w : wildcardType) : string :=
  match w with
  | caret => "caret"
  | star => "star"
  | thatstar => "thatstar"
  | topicstar => "topicstar"
  end.

Lemma slice_of_span (original : list string) (words ws rest_pat rest_words : list string)
  (o : nat) :
  length original = length words ->
  length words = o + length ws + length rest_words ->
  ends_well ws rest_pat rest_words = true ->
  slice original o (Z.to_nat (expected_end words ws rest_pat o + 1))
  = firstn (length ws) (skipn o original).
Proof.
  intros Hlen Hwords Hends. unfold slice, expected_end.
  destruct rest_pat as [|q rp].
  - destruct rest_words; [|discriminate Hends]. simpl in Hwords.
    replace (Z.to_nat (Z.of_nat (length words) + 1) - o)
      with (length ws + 1) by lia.
    rewrite !firstn_all2; [reflexivity | |]; rewrite length_skipn; lia.
  - f_equal. lia.
Qed.

(** The kinds "star", "thatstar" and "topicstar" count the stars and the
    underscores of their portion of the matched path with one counter, and
    the span that [wildcard] returns for the [i]-th of them ends before the
    first later word equal to the next key of the path.  Let the portion be
    the keys of [before], a star or an underscore [p] and [rest_pat], and
    the normalized words those of [before], a non-empty list [ws] and
    [rest_words], where every wildcard of [before] is followed by a word
    that does not occur in its span, [ws] ends with the portion or before
    the next key, which does not occur in [ws], and [i] is one more than
    the number of stars and underscores in [before].  Then [wildcard]
    returns the words of the original text at the places of [ws] (the
    original text having as many words as its normalization). *)
Theorem wildcard_on_separated_alignment {T : Type}
  (self : PatternMgr T) (w : wildcardType) (pattern that topic : string)
  (i : Z) (path : list string) (t : value T)
  (before : alignment) (p : string) (ws rest_pat rest_words : list string) :
  has_star w = true ->
  _match (_botName self) (Node (_root self)) (input_words pattern)
    (that_words that) (topic_words topic) = Ok (Some (path, t)) ->
  portion w path = Ok (keys_of before ++ p :: rest_pat) ->
  words_for w pattern that topic = words_of before ++ ws ++ rest_words ->
  separated before = true ->
  starry p = true ->
  ws <> [] ->
  ends_well ws rest_pat rest_words = true ->
  Z.of_nat (count_starry before + 1) = i ->
  length (Text.split (original_for w pattern that topic))
  = length (words_for w pattern that topic) ->
  wildcard self (kind_name w) pattern that topic i
  = Ok (Text.join (firstn (length ws) (skipn (length (words_of before))
                     (Text.split (original_for w pattern that topic))))).
Proof.
  intros Hw Hmatch Hportion Hwords Hsep Hp Hws Hends Hidx Hlen.
  assert (Hloc :
    locate (keys_of before ++ p :: rest_pat) (words_for w pattern that topic)
      w i (seq 0 (length (words_for w pattern that topic))) 0 0 0 0%Z 0 0
    = Ok (Some (length (words_of before),
                expected_end (words_for w pattern that topic) ws rest_pat
                  (length (words_of before))))).
  { generalize (locate_target _ (words_for w pattern that topic) w i
                  p ws rest_pat rest_words Hp Hws Hends Hw
                  (length before) before [] [] 0 0 0%Z 0 0
                  (le_n _) eq_refl Hwords Hsep (le_n _) Hidx).
    simpl. now rewrite Nat.sub_0_r. }
  assert (Hslice :
    slice (Text.split (original_for w pattern that topic))
      (length (words_of before))
      (Z.to_nat (expected_end (words_for w pattern that topic) ws rest_pat
                   (length (words_of before)) + 1))
    = firstn (length ws) (skipn (length (words_of before))
        (Text.split (original_for w pattern that topic)))).
  { apply (slice_of_span _ _ _ _ rest_words); auto.
    rewrite Hwords, !length_app. lia. }
  unfold wildcard. cbv zeta.
  unfold input_words, that_words, topic_words in Hmatch. rewrite Hmatch.
  cbn [bind].
  destruct w; [discriminate Hw| | |];
    cbn [kind_name]; 
    match goal with
    | |- context [wildcardType_of ?s] =>
        let v := eval vm_compute in (wildcardType_of s) in
        change (wildcardType_of s) with v
    end;
    cbv iota; rewrite Hportion; cbn [bind];
    cbn [words_for original_for] in Hloc, Hslice;
    unfold input_words, that_words, topic_words in Hloc, Hslice;
    rewrite Hloc; cbn [bind]; now rewrite Hslice.
Qed.

Definition underscore_b_star_store : PatternMgr string :=
  store_of [("_ B *", "*", empty, "T")].

Definition that_store : PatternMgr string :=
  store_of [("HI", "_ IS *", "*", "T")].

Lemma wildcard_on_separated_alignment_witness :
  wildcard underscore_b_star_store "star" "a b c d" empty empty 1%Z = Ok "a" /\
  wildcard underscore_b_star_store "star" "a b c d" empty empty 2%Z = Ok "c d" /\
  wildcard that_store "thatstar" "hi" "What is up Doc" empty 2%Z = Ok "up Doc".
Proof.
  split; [|split].
  - apply (wildcard_on_separated_alignment underscore_b_star_store star
             "a b c d" empty empty 1%Z
             [_UNDERSCORE; "B"; _STAR; _THAT; _STAR] (Tmpl "T")
             [] _UNDERSCORE ["A"] ["B"; _STAR] ["B"; "C"; "D"]);
      try reflexivity.
    discriminate.
  - apply (wildcard_on_separated_alignment underscore_b_star_store star
             "a b c d" empty empty 2%Z
             [_UNDERSCORE; "B"; _STAR; _THAT; _STAR] (Tmpl "T")
             [(_UNDERSCORE, ["A"]); ("B", ["B"])] _STAR ["C"; "D"] [] []);
      try reflexivity.
    discriminate.
  - apply (wildcard_on_separated_alignment that_store thatstar
             "hi" "What is up Doc" empty 2%Z
             ["HI"; _THAT; _UNDERSCORE; "IS"; _STAR; _TOPIC; _STAR] (Tmpl "T")
             [(_UNDERSCORE, ["WHAT"]); ("IS", ["IS"])] _STAR ["UP"; "DOC"] [] []);
      try reflexivity.
    discriminate.
Defined.

(** All the ways in which a list of words is a first part and a rest. *)
Fixpoint splits (l : list string) : list (list string * list string) :=
  match l with
  | [] => [([], [])]
  | x :: l' => ([], l) :: map (fun ab => (x :: fst ab, snd ab)) (splits l')
  end.

(** All the alignments of a pattern with a list of words: one word or more
    for a star or an underscore, any number for a caret, and the word
    itself for another key. *)
Fixpoint alignments (pat words : list string) : list alignment :=
  match pat with
  | [] => match words with [] => [[]] | _ :: _ => [] end
  | key :: pat' =>
      if starry key then
        flat_map (fun ab =>
                    match fst ab with
                    | [] => []
                    | _ :: _ => map (cons (key, fst ab)) (alignments pat' (snd ab))
                    end) (splits words)
      else if String.eqb key _CARET then
        flat_map (fun ab => map (cons (key, fst ab)) (alignments pat' (snd ab)))
          (splits words)
      else
        match words with
        | w :: words' =>
            if String.eqb key w
            then map (cons (key, [w])) (alignments pat' words')
            else []
        | [] => []
        end
  end.

Definition underscore_a_star_store : PatternMgr string :=
  store_of [("_ A *", "*", empty, "T")].

(** C10, at the pattern [_ A *] and the utterance "A A B": the pattern
    matches, its only alignment gives the word "A" to the underscore and
    the word "B" to the star, and [wildcard] of kind "star" returns the
    empty text with index 1 and "B" with index 2: the underscore is
    counted, and its span is lost, because the search for the word after
    the underscore starts at the first word of the underscore. *)
Theorem C10_underscore_span_is_lost :
  add init ("_ A *", "*", empty) "T" = Ok underscore_a_star_store /\
  match_ underscore_a_star_store "A A B" empty empty
  = Ok (Some ([_UNDERSCORE; "A"; _STAR; _THAT; _STAR], Tmpl "T")) /\
  alignments [_UNDERSCORE; "A"; _STAR] ["A"; "A"; "B"]
  = [[(_UNDERSCORE, ["A"]); ("A", ["A"]); (_STAR, ["B"])]] /\
  wildcard underscore_a_star_store "star" "A A B" empty empty 1%Z
  = Ok EmptyString /\
  wildcard underscore_a_star_store "star" "A A B" empty empty 2%Z
  = Ok "B".
Proof. repeat split; vm_compute; reflexivity. Qed.

(** * More of the source *)

(** ** Text: what the normalization guarantees *)

Module TextFacts.

Import Text.

Lemma chars_text l : chars (text l) = l.
Proof. apply list_ascii_of_string_of_list_ascii. Qed.

Lemma text_chars s : text (chars s) = s.
Proof. apply string_of_list_ascii_of_string. Qed.

Lemma chars_append s1 s2 : chars (s1 ++ s2)%string = chars s1 ++ chars s2.
Proof. induction s1 as [|c s1 IH]; simpl; [reflexivity|]. now f_equal. Qed.

Lemma space_is_space : is_space " "%char = true.
Proof. reflexivity. Qed.

Lemma is_space_upper c : is_space (upper_char c) = is_space c.
Proof. destruct c as [[] [] [] [] [] [] [] []]; reflexivity. Qed.

Lemma upper_char_idem c : upper_char (upper_char c) = upper_char c.
Proof. destruct c as [[] [] [] [] [] [] [] []]; reflexivity. Qed.

Lemma upper_char_not_lower c : is_lower (upper_char c) = false.
Proof. destruct c as [[] [] [] [] [] [] [] []]; reflexivity. Qed.

Lemma chars_upper s : chars (upper s) = map upper_char (chars s).
Proof. unfold upper. apply chars_text. Qed.

Lemma chars_strip_punct s :
  chars (strip_punct s)
  = map (fun c => if is_punct c then " "%char else c) (chars s).
Proof. unfold strip_punct. apply chars_text. Qed.

(** [upper] twice is [upper]. *)
Lemma upper_idem s : upper (upper s) = upper s.
Proof.
  unfold upper at 1. rewrite chars_upper, map_map. unfold upper. f_equal.
  apply map_ext. apply upper_char_idem.
Qed.

(** The words of [split]: none is empty, none has white space, and their
    characters come from the text. *)
Lemma split_go_words (P : ascii -> Prop) l : forall acc,
  Forall (fun c => is_space c = false /\ P c) acc ->
  (forall c, In c l -> is_space c = false -> P c) ->
  Forall (fun w => w <> EmptyString /\
                   Forall (fun c => is_space c = false /\ P c) (chars w))
    (split_go acc l).
Proof.
  assert (Hword : forall acc, acc <> [] ->
            Forall (fun c => is_space c = false /\ P c) acc ->
            text (rev acc) <> EmptyString /\
            Forall (fun c => is_space c = false /\ P c) (chars (text (rev acc)))).
  { intros acc Hne Hacc. split.
    - intros E. apply (f_equal chars) in E. rewrite chars_text in E.
      simpl in E. apply (f_equal (@rev ascii)) in E.
      rewrite rev_involutive in E. simpl in E. contradiction.
    - rewrite chars_text. now apply Forall_rev. }
  induction l as [|c l IH]; intros acc Hacc Hl; simpl.
  - destruct acc as [|a acc]; [constructor|].
    constructor; [|constructor]. apply Hword; [discriminate | exact Hacc].
  - assert (Hl' : forall c', In c' l -> is_space c' = false -> P c')
      by (intros c' Hc'; apply Hl; now right).
    destruct (is_space c) eqn:Ec.
    + destruct acc as [|a acc]; [now apply IH|].
      constructor; [apply Hword; [discriminate | exact Hacc]|].
      now apply IH.
    + apply IH; [|exact Hl'].
      constructor; [|exact Hacc]. split; [exact Ec|]. apply Hl; [now left|exact Ec].
Qed.

Lemma split_words (P : ascii -> Prop) s :
  (forall c, In c (chars s) -> is_space c = false -> P c) ->
  Forall (fun w => w <> EmptyString /\
                   Forall (fun c => is_space c = false /\ P c) (chars w))
    (split s).
Proof. intros H. unfold split. apply split_go_words; [constructor | exact H]. Qed.

(** [re.sub(self._whitespaceRE, " ", s)] changes nothing for [split]. *)
Lemma split_go_collapse l :
  (forall acc, split_go acc (collapse_go false l) = split_go acc l) /\
  split_go [] (collapse_go true l) = split_go [] l.
Proof.
  induction l as [|c l [IHf IHt]]; [split; reflexivity|].
  split.
  - intros acc. simpl. destruct (is_space c) eqn:Ec.
    + cbn [split_go]. rewrite space_is_space, IHt. reflexivity.
    + cbn [split_go]. rewrite Ec. apply IHf.
  - simpl. destruct (is_space c) eqn:Ec.
    + exact IHt.
    + cbn [split_go]. rewrite Ec. apply IHf.
Qed.

Lemma split_collapse_ws s : split (collapse_ws s) = split s.
Proof.
  unfold split, collapse_ws. rewrite chars_text. apply split_go_collapse.
Qed.

End TextFacts.


(** ** The words that reach the matcher *)

Section MatcherWords.

Import Text TextFacts.

Lemma normalized_word_intro w :
  w <> EmptyString ->
  Forall (fun c => is_space c = false /\ is_punct c = false /\ is_lower c = false)
    (chars w) ->
  normalized_word w = true.
Proof.
  intros Hne Hchars. unfold normalized_word. apply andb_true_intro. split.
  - apply negb_true_iff. now apply String.eqb_neq.
  - apply forallb_forall. intros c Hc.
    rewrite Forall_forall in Hchars. destruct (Hchars c Hc) as (-> & -> & ->).
    reflexivity.
Qed.

Lemma split_strip_punct_upper s :
  Forall (fun w => normalized_word w = true) (split (strip_punct (upper s))).
Proof.
  eapply Forall_impl;
    [|apply (split_words (fun c => is_punct c = false /\ is_lower c = false))].
  - intros w [Hne Hchars]. now apply normalized_word_intro.
  - intros c Hc Hspace. rewrite chars_strip_punct, chars_upper, map_map in Hc.
    apply in_map_iff in Hc as (c0 & <- & _).
    destruct (is_punct (upper_char c0)) eqn:Ep; [discriminate Hspace|].
    split; [exact Ep | apply upper_char_not_lower].
Qed.

Lemma input_words_as_match pattern :
  input_words pattern = input_words_of_match pattern.
Proof. apply split_collapse_ws. Qed.

Lemma topic_words_as_match topic :
  topic_words topic = topic_words_of_match topic.
Proof. apply split_collapse_ws. Qed.

Lemma matcher_words_normalized (pattern that topic : string) :
  Forall (fun w => normalized_word w = true) (input_words_of_match pattern) /\
  Forall (fun w => normalized_word w = true) (that_words that) /\
  Forall (fun w => normalized_word w = true) (topic_words_of_match topic) /\
  Forall (fun w => normalized_word w = true) (input_words pattern) /\
  Forall (fun w => normalized_word w = true) (topic_words topic).
Proof.
  rewrite input_words_as_match, topic_words_as_match.
  unfold that_words. rewrite split_collapse_ws.
  repeat split; apply split_strip_punct_upper.
Qed.

(** X5.  Every word that [match] and [wildcard] hand to [_match], from
    the utterance, the that and the topic, is a normalized word: not empty
    and without white space, punctuation and small letters. *)
Theorem words_are_normalized (pattern that topic : string) :
  Forall (fun w => normalized_word w = true) (input_words_of_match pattern) /\
  Forall (fun w => normalized_word w = true) (that_words that) /\
  Forall (fun w => normalized_word w = true) (topic_words_of_match topic) /\
  Forall (fun w => normalized_word w = true) (input_words pattern) /\
  Forall (fun w => normalized_word w = true) (topic_words topic).
Proof.
  assert (Hsplit := split_strip_punct_upper).
  unfold input_words_of_match, that_words, topic_words_of_match,
    input_words, topic_words.
  rewrite !split_collapse_ws. repeat split; apply Hsplit.
Qed.

Context {T : Type}.

(** The matcher runs on the same words in [match] and in [wildcard]. *)
Lemma wildcard_runs_match (self : PatternMgr T) kind pattern that topic i :
  pattern <> EmptyString ->
  wildcard self kind pattern that topic i
  = (m <- match_ self pattern that topic ;;
     match m with
     | None => Ok EmptyString
     | Some (patMatch, _) =>
         match wildcardType_of kind with
         | None => Raise ValueError
         | Some w =>
             patMatch <- portion w patMatch ;;
             r <- locate patMatch (words_for w pattern that topic) w i
                    (seq 0 (length (words_for w pattern that topic))) 0 0 0 0%Z 0 0 ;;
             match r with
             | Some (start, end_) =>
                 Ok (Text.join
                       (slice (Text.split (original_for w pattern that topic))
                          start (Z.to_nat (end_ + 1))))
             | None => Ok EmptyString
             end
         end
     end).
Proof.
  intros Hne. rewrite match_as__match by assumption.
  rewrite <- input_words_as_match, <- topic_words_as_match.
  unfold wildcard. cbv zeta.
  change (Text.split (Text.collapse_ws (Text.strip_punct (Text.upper pattern))))
    with (input_words pattern).
  change (Text.split (Text.collapse_ws
            (Text.strip_punct (Text.upper (that_of that)))))
    with (that_words that).
  change (Text.split (Text.collapse_ws
            (Text.strip_punct (Text.upper (topic_of topic)))))
    with (topic_words topic).
  destruct (_match (_botName self) (Node (_root self)) (input_words pattern)
              (that_words that) (topic_words topic)) as [[[patMatch t]|]|e];
    cbn [bind]; reflexivity.
Qed.

(** X6.  For an utterance that is not the empty text: when [match] finds
    nothing, [wildcard] returns the empty text, whatever the kind and the
    index; and what [match] raises, [wildcard] raises. *)
Theorem wildcard_follows_match (self : PatternMgr T) kind pattern that topic i :
  pattern <> EmptyString ->
  (match_ self pattern that topic = Ok None ->
   wildcard self kind pattern that topic i = Ok EmptyString) /\
  (forall e, match_ self pattern that topic = Raise e ->
             wildcard self kind pattern that topic i = Raise e).
Proof.
  intros Hne. rewrite wildcard_runs_match by assumption.
  split; [intros -> | intros e ->]; reflexivity.
Qed.

(** *** Capital and small letters *)

Lemma lstrip_map_upper l :
  lstrip (map upper_char l) = map upper_char (lstrip l).
Proof.
  induction l as [|c l IH]; [reflexivity|]. simpl.
  rewrite is_space_upper. destruct (is_space c); [exact IH | reflexivity].
Qed.

Lemma strip_upper s : strip (upper s) = upper (strip s).
Proof.
  unfold strip. rewrite chars_upper, lstrip_map_upper, <- map_rev,
    lstrip_map_upper, <- map_rev.
  unfold upper. now rewrite chars_text.
Qed.

Lemma upper_empty s : upper s = EmptyString <-> s = EmptyString.
Proof.
  split; [|now intros ->]. destruct s; [reflexivity | discriminate].
Qed.

Lemma upper_or_dummy dummy s :
  upper dummy = dummy ->
  upper (or_dummy dummy (upper s)) = upper (or_dummy dummy s).
Proof.
  intros Hd. unfold or_dummy. rewrite strip_upper.
  destruct (String.eqb_spec (strip s) EmptyString) as [E|E].
  - rewrite E. reflexivity.
  - destruct (String.eqb_spec (upper (strip s)) EmptyString) as [E'|_].
    + apply (proj1 (upper_empty _)) in E'. contradiction.
    + apply upper_idem.
Qed.

(** X7.  [match] does not tell capital from small letters, in the
    utterance, in the that and in the topic. *)
Theorem match_ignores_case (self : PatternMgr T) (pattern that topic : string) :
  match_ self (upper pattern) (upper that) (upper topic)
  = match_ self pattern that topic.
Proof.
  unfold match_.
  replace (String.length (upper pattern) =? 0) with (String.length pattern =? 0)
    by (destruct pattern; reflexivity).
  unfold that_of, topic_of.
  rewrite upper_idem, !upper_or_dummy by reflexivity. reflexivity.
Qed.

End MatcherWords.


(** ** What [add] does to the store *)

Section AddFacts.

Context {T : Type}.
Implicit Types (d c : dict T) (keys : list string).



Lemma put_stores keys : forall (t : T) d d' b,
  put keys t d = Ok (d', b) ->
  exists n, node_at keys d' = Some n /\ get _TEMPLATE n = Some (Tmpl t).
Proof.
  induction keys as [|k keys IH]; simpl; intros t d d' b H.
  - injection H as <- _. eexists. split; [reflexivity | apply get_set_same].
  - destruct (get k d) as [[c|t']|]; [| discriminate |].
    + destruct (put keys t c) as [[c' b']|e] eqn:E; [|discriminate].
      simpl in H. injection H as <- _. rewrite get_set_same. eauto.
    + destruct (put keys t []) as [[c' b']|e] eqn:E; [|discriminate].
      simpl in H. injection H as <- _. rewrite get_set_same. eauto.
Qed.

Lemma add_stored (self self' : PatternMgr T)
  (data : string * string * string) (t : T) :
  add self data t = Ok self' -> stored self' data t.
Proof.
  unfold add, stored. intros H.
  destruct (put (add_keys data) t (_root self)) as [[d' b]|e] eqn:E;
    [|discriminate].
  simpl in H. injection H as <-. cbn [_root]. eapply put_stores; eauto.
Qed.

(** X1.  When [add] returns, the store holds the template at the node
    that the keys of the call lead to. *)
Theorem add_stores_the_template (self self' : PatternMgr T)
  (data : string * string * string) (t : T) :
  add self data t = Ok self' -> stored self' data t.
Proof.
  unfold add. intros H.
  destruct (put (add_keys data) t (_root self)) as [[d' b]|e] eqn:E;
    [|discriminate].
  simpl in H. injection H as <-.
  destruct (put_stores _ _ _ _ _ E) as (n & Hn & Ht).
  exists n. split; [exact Hn | exact Ht].
Qed.



Lemma put_again keys : forall (t t' : T) d d' b,
  put keys t d = Ok (d', b) ->
  exists d'', put keys t' d' = Ok (d'', false).
Proof.
  induction keys as [|k keys IH]; simpl; intros t t' d d' b H.
  - injection H as <- _. rewrite mem_set_same. eexists. reflexivity.
  - assert (Hstep : exists c c' b', put keys t c = Ok (c', b') /\
                                    d' = set k (Node c') d).
    { destruct (get k d) as [[c|t0]|]; [| discriminate |].
      - destruct (put keys t c) as [[c' b']|e] eqn:E; [|discriminate].
        simpl in H. injection H as <- _. eauto.
      - destruct (put keys t []) as [[c' b']|e] eqn:E; [|discriminate].
        simpl in H. injection H as <- _. eauto. }
    destruct Hstep as (c & c' & b' & Hput & ->).
    rewrite get_set_same.
    destruct (IH t t' c c' b' Hput) as (c'' & ->). simpl.
    eexists. reflexivity.
Qed.

(** X3.  After [add] has returned for some data, [add] for the same data
    returns again, leaves [numTemplates] as it is, and the store holds the
    new template for the data. *)
Theorem add_again_replaces (self self1 : PatternMgr T)
  (data : string * string * string) (t1 t2 : T) :
  add self data t1 = Ok self1 ->
  exists self2,
    add self1 data t2 = Ok self2 /\
    numTemplates self2 = numTemplates self1 /\
    stored self2 data t2.
Proof.
  intros H. assert (H1 := H). unfold add in H.
  destruct (put (add_keys data) t1 (_root self)) as [[d1 b]|e] eqn:E;
    [|discriminate].
  simpl in H. injection H as <-.
  destruct (put_again _ t1 t2 _ _ _ E) as (d2 & E2).
  eexists. split.
  - unfold add. cbn [_root]. rewrite E2. reflexivity.
  - split; [reflexivity|]. cbn [bind fst snd].
    destruct (put_stores _ _ _ _ _ E2) as (n & Hn & Ht).
    exists n. now split.
Qed.

(** What [add] adds to the count. *)
Lemma add_count (self self' : PatternMgr T)
  (data : string * string * string) (t : T) :
  add self data t = Ok self' ->
  numTemplates self'
  = numTemplates self
    + (if has_template (add_keys data) (_root self) then 0 else 1).
Proof.
  unfold add. intros H.
  destruct (put (add_keys data) t (_root self)) as [[d' b]|e] eqn:E;
    [|discriminate].
  simpl in H. injection H as <-. unfold numTemplates. cbn [_templateCount].
  rewrite (put_fresh _ _ _ _ _ E).
  destruct (has_template (add_keys data) (_root self)); simpl; lia.
Qed.

Lemma add_all_tidy calls : forall (self self' : PatternMgr T),
  tidy (_root self) ->
  Forall (fun keys => ~ In _TEMPLATE keys) (keys_of_calls calls) ->
  add_all self calls = Ok self' ->
  tidy (_root self').
Proof.
  induction calls as [|[data t] calls IH]; intros self self' Hd Hall H.
  - simpl in H. now injection H as <-.
  - simpl in Hall. inversion Hall as [|? ? Hkeys Hrest]; subst.
    destruct (put_tidy (add_keys data) t (_root self) Hkeys Hd)
      as (d' & Hput & Hd').
    cbn [add_all] in H. unfold add at 1 in H. rewrite Hput in H.
    cbn [bind fst snd] in H. eapply IH; [| exact Hrest | exact H]. exact Hd'.
Qed.

(** X4.  On a store that calls of [add] built from the empty store, no
    key of a call being the key [_TEMPLATE], [match] raises nothing for an
    utterance, a that and a topic whose words are not the key [_TEMPLATE]. *)
Theorem match_raises_nothing (calls : list (string * string * string * T))
  (self : PatternMgr T) (pattern that topic : string) :
  Forall (fun keys => ~ In _TEMPLATE keys) (keys_of_calls calls) ->
  add_all init calls = Ok self ->
  ~ In _TEMPLATE (input_words_of_match pattern) ->
  ~ In _TEMPLATE (that_words that) ->
  ~ In _TEMPLATE (topic_words_of_match topic) ->
  is_ok (match_ self pattern that topic).
Proof.
  intros Hall Hself Hp Hth Htp.
  assert (Hd : tidy (_root self))
    by (apply (add_all_tidy calls init self);
        [exact tidy_nil | exact Hall | exact Hself]).
  unfold match_. destruct (String.length pattern =? 0); [eexists; reflexivity|].
  eapply _match_ok; eauto.
Qed.

(** X11.  The empty store matches nothing, and [wildcard] on it returns
    the empty text for every kind and index. *)
Theorem empty_store_matches_nothing (botName kind pattern that topic : string)
  (i : Z) :
  let self := {| _root := @nil (string * value T); _templateCount := 0;
                 _botName := botName |} in
  match_ self pattern that topic = Ok None /\
  wildcard self kind pattern that topic i = Ok EmptyString.
Proof.
  assert (H : forall words thatWords topicWords,
            _match botName (Node (@nil (string * value T)))
              words thatWords topicWords = Ok None).
  { intros [|first suffix] thatWords topicWords.
    - rewrite _match_nil. unfold end_of_input. simpl.
      destruct thatWords; [destruct topicWords|]; reflexivity.
    - rewrite _match_cons. unfold attempt_underscore, attempt_first,
        attempt_bot_name, attempt_caret, attempt_star, via. simpl.
      destruct (String.eqb first botName); reflexivity. }
  cbv zeta. split.
  - unfold match_. cbn [_root _botName].
    destruct (String.length pattern =? 0); [reflexivity | apply H].
  - unfold wildcard. cbn [_root _botName]. cbv zeta. now rewrite H.
Qed.

End AddFacts.


(** ** A name of the bot that no word equals *)

Section DeadBotName.

Context {T : Type}.
Variable botName : string.

Lemma _match_keys_only (root : value T) :
  forall words thatWords topicWords path t,
    ~ In botName words -> ~ In botName thatWords -> ~ In botName topicWords ->
    _match botName root words thatWords topicWords = Ok (Some (path, t)) ->
    keys_only root path t.
Proof.
  induction root as [t0|d IH] using value_children_ind;
    intros words thatWords topicWords path t Hw Hth Htp H; [discriminate|].
  assert (Hnil : ~ In botName (@nil string)) by (intros []).
  assert (Hhere : forall p, template_here d = Ok (Some (p, t)) ->
                            keys_only (Node d) p t).
  { intros p Hp. apply template_here_success in Hp as [-> Hp].
    now constructor. }
  assert (Hdown : forall k c r p,
             get k d = Some c ->
             prepend k r = Ok (Some (p, t)) ->
             (forall q, r = Ok (Some (q, t)) -> keys_only c q t) ->
             keys_only (Node d) p t).
  { intros k c r p Hk Hp Hr. apply prepend_success in Hp as (q & Hq & ->).
    eapply keys_only_key; eauto. }
  destruct words as [|first suffix].
  - rewrite _match_nil in H. unfold end_of_input in H.
    destruct (get _CARET d) as [c|] eqn:Ec.
    { apply or_template_here_success in H as [H|H]; [|auto].
      eapply Hdown; eauto. }
    destruct thatWords as [|w ws].
    + destruct topicWords as [|w ws]; [auto|].
      destruct (get _TOPIC d) as [c|] eqn:Et; [|auto].
      apply or_template_here_success in H as [H|H]; [|auto].
      eapply Hdown; eauto.
    + destruct (get _THAT d) as [c|] eqn:Et; [|auto].
      apply or_template_here_success in H as [H|H]; [|auto].
      eapply Hdown; eauto.
  - assert (Hsuf : ~ In botName suffix) by (intros ?; apply Hw; now right).
    rewrite _match_cons in H. apply first_success_In in H.
    unfold attempt_underscore, attempt_first, attempt_bot_name,
      attempt_caret, attempt_star in H.
    cbn [In] in H.
    destruct H as [H|[H|[H|[H|[H|[]]]]]].
    + apply via_success in H as (c & Hc & H).
      eapply Hdown; eauto. intros q Hq.
      apply try_suffixes_success in Hq as [j Hq].
      eapply IH; [exact Hc | | | | exact Hq]; auto using not_In_skipn.
    + apply via_success in H as (c & Hc & H). eapply Hdown; eauto.
    + destruct (String.eqb_spec first botName) as [->|_]; [|discriminate].
      exfalso. apply Hw. now left.
    + apply via_success in H as (c & Hc & H).
      eapply Hdown; eauto. intros q Hq.
      apply try_suffixes_success in Hq as [j Hq].
      eapply IH; [exact Hc | | | | exact Hq]; auto using not_In_skipn.
    + apply via_success in H as (c & Hc & H).
      eapply Hdown; eauto. intros q Hq.
      apply try_suffixes_success in Hq as [j Hq].
      eapply IH; [exact Hc | | | | exact Hq]; auto using not_In_skipn.
Qed.

End DeadBotName.

Section OtherName.

Context {T : Type}.
Variables name name' : string.

Lemma try_suffixes_ext (f g : list string -> res (option (found T))) l :
  (forall j, f (skipn j l) = g (skipn j l)) ->
  try_suffixes f l = try_suffixes g l.
Proof.
  induction l as [|w l IH]; intros H.
  - cbn [try_suffixes]. generalize (H 0). cbn [skipn]. now intros ->.
  - cbn [try_suffixes]. generalize (H 0). cbn [skipn]. intros ->.
    now rewrite (IH (fun j => H (S j))).
Qed.

(** The matcher reads the name of the bot only to compare it with a word
    of the input. *)
Lemma _match_other_name (root : value T) :
  forall words thatWords topicWords,
    ~ In name words -> ~ In name thatWords -> ~ In name topicWords ->
    ~ In name' words -> ~ In name' thatWords -> ~ In name' topicWords ->
    _match name root words thatWords topicWords
    = _match name' root words thatWords topicWords.
Proof.
  induction root as [t0|d IH] using value_children_ind;
    intros words thatWords topicWords Hw Hth Htp Hw' Hth' Htp'.
  { destruct words; reflexivity. }
  assert (Hnil : forall b : string, ~ In b (@nil string)) by (intros b []).
  destruct words as [|first suffix].
  - rewrite !_match_nil. unfold end_of_input.
    destruct (get _CARET d) as [c|] eqn:Ec.
    { now rewrite (IH _ _ Ec [] thatWords topicWords). }
    destruct thatWords as [|w ws].
    + destruct topicWords as [|w ws]; [reflexivity|].
      destruct (get _TOPIC d) as [c|] eqn:Et; [|reflexivity].
      now rewrite (IH _ _ Et (w :: ws) [] []).
    + destruct (get _THAT d) as [c|] eqn:Et; [|reflexivity].
      now rewrite (IH _ _ Et (w :: ws) [] topicWords).
  - assert (Hsuf : ~ In name suffix) by (intros ?; apply Hw; now right).
    assert (Hsuf' : ~ In name' suffix) by (intros ?; apply Hw'; now right).
    assert (Hskip : forall c k l,
               get k d = Some c -> ~ In name l -> ~ In name' l ->
               try_suffixes
                 (fun suf => _match name c suf thatWords topicWords) l
               = try_suffixes
                   (fun suf => _match name' c suf thatWords topicWords) l).
    { intros c k l Hc Hl Hl'. apply try_suffixes_ext. intros j.
      apply (IH _ _ Hc); auto using not_In_skipn. }
    rewrite !_match_cons.
    assert (E1 : attempt_underscore name d first suffix thatWords topicWords
                 = attempt_underscore name' d first suffix thatWords topicWords).
    { unfold attempt_underscore, via.
      destruct (get _UNDERSCORE d) as [c|] eqn:Ec; [|reflexivity].
      now rewrite (Hskip c _UNDERSCORE suffix Ec). }
    assert (E2 : attempt_first name d first suffix thatWords topicWords
                 = attempt_first name' d first suffix thatWords topicWords).
    { unfold attempt_first, via.
      destruct (get first d) as [c|] eqn:Ec; [|reflexivity].
      now rewrite (IH _ _ Ec suffix thatWords topicWords). }
    assert (E3 : attempt_bot_name name d first suffix thatWords topicWords
                 = attempt_bot_name name' d first suffix thatWords topicWords).
    { unfold attempt_bot_name.
      destruct (String.eqb_spec first name) as [->|_];
        [exfalso; apply Hw; now left|].
      destruct (String.eqb_spec first name') as [->|_];
        [exfalso; apply Hw'; now left|].
      reflexivity. }
    assert (E4 : attempt_caret name d first suffix thatWords topicWords
                 = attempt_caret name' d first suffix thatWords topicWords).
    { unfold attempt_caret, via.
      destruct (get _CARET d) as [c|] eqn:Ec; [|reflexivity].
      now rewrite (Hskip c _CARET (first :: suffix) Ec). }
    assert (E5 : attempt_star name d first suffix thatWords topicWords
                 = attempt_star name' d first suffix thatWords topicWords).
    { unfold attempt_star, via.
      destruct (get _STAR d) as [c|] eqn:Ec; [|reflexivity].
      now rewrite (Hskip c _STAR suffix Ec). }
    now rewrite E1, E2, E3, E4, E5.
Qed.

End OtherName.

Lemma not_among_normalized (name : string) (ws : list string) :
  normalized_word name = false ->
  Forall (fun w => normalized_word w = true) ws ->
  ~ In name ws.
Proof.
  intros Hname Hws Hin. rewrite Forall_forall in Hws.
  specialize (Hws name Hin). congruence.
Qed.

(** X10.  When the name of the bot is no normalized word (it has a small
    letter, as the name "Nameless" of a new store has, or a space, as the
    names of several words that [setBotName] joins have), the comparison of
    an input word with the name never succeeds: [match] returns what it
    returns under any other such name, and every element of the path of a
    match is the key under which the child was entered (the child of the
    key [_BOT_NAME] is entered only under the input word equal to this
    key). *)
Theorem bot_name_edge_is_dead {T : Type} (self : PatternMgr T)
  (pattern that topic : string) :
  normalized_word (_botName self) = false ->
  (forall name,
      normalized_word name = false ->
      match_ {| _root := _root self; _templateCount := _templateCount self;
                _botName := name |} pattern that topic
      = match_ self pattern that topic)
  /\ (forall path t,
      match_ self pattern that topic = Ok (Some (path, t)) ->
      keys_only (Node (_root self)) path t).
Proof.
  intros Hname.
  destruct (matcher_words_normalized pattern that topic) as (Hp & Hth & Htp & _).
  unfold that_words in Hth. rewrite TextFacts.split_collapse_ws in Hth.
  unfold input_words_of_match in Hp. unfold topic_words_of_match in Htp.
  split.
  - intros name Hother. unfold match_. cbn [_root _botName].
    destruct (String.length pattern =? 0); [reflexivity|].
    rewrite TextFacts.split_collapse_ws.
    apply _match_other_name; eauto using not_among_normalized.
  - intros path t. unfold match_.
    destruct (String.length pattern =? 0); [discriminate|].
    rewrite TextFacts.split_collapse_ws.
    apply _match_keys_only; eauto using not_among_normalized.
Qed.


(** ** The index of [wildcard] *)

(** The keys that a kind counts. *)
Definition counted (w : wildcardType) (key : string) : bool :=
  if has_star w then starry key else String.eqb key _CARET.

Definition count_counted (w : wildcardType) (l : list string) : nat :=
  length (filter (counted w) l).

Section IndexRange.

Variables (patMatch words : list string).
Variable wanted : wildcardType.
Variable index_ : Z.

Lemma skipn_nth_error {A : Type} (l : list A) j a :
  nth_error l j = Some a -> skipn j l = a :: skipn (S j) l.
Proof.
  revert l. induction j as [|j IH]; intros [|x l] H; try discriminate.
  - now injection H as ->.
  - simpl in H. simpl. now apply IH.
Qed.

Lemma count_counted_skipn_S j (l : list string) :
  count_counted wanted (skipn (S j) l) <= count_counted wanted (skipn j l).
Proof.
  destruct (nth_error l j) as [a|] eqn:E.
  - rewrite (skipn_nth_error l j a E). unfold count_counted. simpl.
    destruct (counted wanted a); simpl; lia.
  - apply nth_error_None in E. rewrite !skipn_all2 by lia. reflexivity.
Qed.

(** The counter of the kind, of the two counters of the loop. *)
Definition counter (numStars numCarets : nat) : nat :=
  if has_star wanted then numStars else numCarets.

Lemma has_caret_star : has_caret wanted = negb (has_star wanted).
Proof. destruct wanted; reflexivity. Qed.

Lemma locate_found_in_range range :
  forall j k start end_ numStars numCarets r,
    locate patMatch words wanted index_ range j k start end_ numStars numCarets
    = Ok (Some r) ->
    (Z.of_nat (counter numStars numCarets) < index_
     <= Z.of_nat (counter numStars numCarets
                  + count_counted wanted (skipn j patMatch)))%Z.
Proof.
  induction range as [|i range IH];
    intros j k start end_ numStars numCarets r H; [discriminate|].
  cbn [locate] in H.
  destruct (i <? k); [eauto|].
  destruct (j =? length patMatch); [discriminate|].
  destruct (nth_error patMatch j) as [p|] eqn:Ep; [|discriminate].
  assert (Hj := count_counted_skipn_S j patMatch).
  assert (Hj' := count_counted_skipn_S (S j) patMatch).
  assert (Hskip : count_counted wanted (skipn j patMatch)
                  = (if counted wanted p then 1 else 0)
                    + count_counted wanted (skipn (S j) patMatch)).
  { rewrite (skipn_nth_error _ _ _ Ep). unfold count_counted. simpl.
    destruct (counted wanted p); reflexivity. }
  unfold counted in Hskip. unfold counter in *.
  rewrite has_caret_star in H.
  change (String.eqb p _STAR || String.eqb p _UNDERSCORE) with (starry p) in H.
  destruct (starry p) eqn:Es.
  - destruct (scan patMatch words j (seq i (length words - i)) k) as [s|e];
      [|discriminate].
    cbn [bind] in H.
    assert (Hc : String.eqb p _CARET = false).
    { unfold starry in Es. apply orb_prop in Es as [Es|Es];
        apply String.eqb_eq in Es; subst; reflexivity. }
    rewrite Hc in Hskip.
    destruct (has_star wanted) eqn:Ew.
    + destruct (Z.eqb_spec (Z.of_nat (numStars + 1)) index_) as [E|E];
        cbn [andb] in H.
      * lia.
      * apply IH in H. try rewrite Ew in H.
        replace (j + 1) with (S j) in H by lia. lia.
    + rewrite andb_false_r in H. apply IH in H. try rewrite Ew in H.
      replace (j + 1) with (S j) in H by lia. lia.
  - destruct (String.eqb p _CARET) eqn:Ec.
    + destruct (scan patMatch words j (seq i (length words - i)) k) as [s|e];
        [|discriminate].
      cbn [bind] in H.
      set (j' := match s with
                 | Resumed k' => if i =? k' then j + 1 else j
                 | _ => j
                 end) in H.
      assert (Hj'' : count_counted wanted (skipn (j' + 1) patMatch)
                     <= count_counted wanted (skipn (S j) patMatch)).
      { subst j'. destruct s as [?|k'|?];
          try (replace (j + 1) with (S j) by lia; lia).
        destruct (i =? k').
        - replace (j + 1 + 1) with (S (S j)) by lia. lia.
        - replace (j + 1) with (S j) by lia. lia. }
      destruct (has_star wanted) eqn:Ew; cbn [negb] in H.
      * rewrite andb_false_r in H. apply IH in H. try rewrite Ew in H. lia.
      * destruct (Z.eqb_spec (Z.of_nat (numCarets + 1)) index_) as [E|E];
          cbn [andb] in H.
        -- lia.
        -- apply IH in H. try rewrite Ew in H. lia.
    + apply IH in H. replace (j + 1) with (S j) in H by lia.
      destruct (has_star wanted); lia.
Qed.

End IndexRange.

Lemma count_counted_firstn w n (l : list string) :
  count_counted w (firstn n l) <= count_counted w l.
Proof.
  unfold count_counted. rewrite <- (firstn_skipn n l) at 2.
  rewrite filter_app, length_app. lia.
Qed.

Lemma count_counted_skipn w n (l : list string) :
  count_counted w (skipn n l) <= count_counted w l.
Proof.
  unfold count_counted. rewrite <- (firstn_skipn n l) at 2.
  rewrite filter_app, length_app. lia.
Qed.

Lemma count_counted_portion w path part :
  portion w path = Ok part -> count_counted w part <= count_counted w path.
Proof.
  unfold portion. destruct w.
  - destruct (index _THAT path) as [n|e]; [|discriminate].
    intros [= <-]. apply count_counted_firstn.
  - destruct (index _THAT path) as [n|e]; [|discriminate].
    intros [= <-]. apply count_counted_firstn.
  - destruct (index _THAT path) as [a|e]; [|discriminate].
    destruct (index _TOPIC path) as [b|e]; [|discriminate].
    intros [= <-]. unfold slice.
    etransitivity; [apply count_counted_firstn | apply count_counted_skipn].
  - destruct (index _TOPIC path) as [n|e]; [|discriminate].
    intros [= <-]. apply count_counted_skipn.
Qed.

(** X8.  [wildcard] returns a text that is not empty only when the match
    succeeded, the kind is one of the four, and the index is at least 1 and
    at most the number of keys of that kind in the matched path (stars and
    underscores for the three star kinds, carets for "caret"). *)
Theorem wildcard_index_range {T : Type} (self : PatternMgr T)
  (kind pattern that topic : string) (i : Z) (s : string) :
  wildcard self kind pattern that topic i = Ok s ->
  s <> EmptyString ->
  exists path t w,
    _match (_botName self) (Node (_root self)) (input_words pattern)
      (that_words that) (topic_words topic) = Ok (Some (path, t)) /\
    wildcardType_of kind = Some w /\
    (1 <= i <= Z.of_nat (count_counted w path))%Z.
Proof.
  unfold wildcard. cbv zeta.
  change (Text.split (Text.collapse_ws (Text.strip_punct (Text.upper pattern))))
    with (input_words pattern).
  change (Text.split (Text.collapse_ws
            (Text.strip_punct (Text.upper (that_of that)))))
    with (that_words that).
  change (Text.split (Text.collapse_ws
            (Text.strip_punct (Text.upper (topic_of topic)))))
    with (topic_words topic).
  destruct (_match (_botName self) (Node (_root self)) (input_words pattern)
              (that_words that) (topic_words topic)) as [[[path t]|]|e];
    cbn [bind]; [| intros [= <-] Hs; contradiction | discriminate].
  destruct (wildcardType_of kind) as [w|]; [|discriminate].
  destruct (portion w path) as [part|e] eqn:Epart; [|discriminate].
  cbn [bind].
  match goal with
  | |- context [locate ?p ?ws ?w ?i ?r ?j ?k ?st ?en ?ns ?nc] =>
      destruct (locate p ws w i r j k st en ns nc) as [[[start end_]|]|e] eqn:El
  end; cbn [bind]; [| intros [= <-] Hs; contradiction | discriminate].
  intros _ _. exists path, t, w. split; [reflexivity|]. split; [reflexivity|].
  apply locate_found_in_range in El. unfold counter in El.
  assert (Hle := count_counted_portion w path part Epart).
  rewrite skipn_O in El. destruct (has_star w); lia.
Qed.


(** ** [PatternMgr.caret] *)

Section CaretLocator.

Variables (patMatch words : list string).
Variable index_ : Z.

(** The loop of [caret]: the loop of [wildcard] without the branch of the
    stars and underscores, which are passed like words. *)
Fixpoint locate_caret (range : list nat) (j k start : nat) (end_ : Z)
  (numCarets : nat) : res (option (nat * Z)) :=
  match range with
  | [] => Ok None
  | i :: range' =>
      if i <? k then locate_caret range' j k start end_ numCarets
      else if j =? length patMatch then Ok None
      else
        match nth_error patMatch j with
        | None => Raise IndexError
        | Some p =>
            if String.eqb p _CARET then
              let numCarets := numCarets + 1 in
              let foundTheRightCaret := (Z.of_nat numCarets =? index_)%Z in
              let start := i in
              s <- scan patMatch words j (seq i (length words - i)) k ;;
              let j := match s with
                       | Resumed k' => if i =? k' then j + 1 else j
                       | _ => j
                       end in
              if foundTheRightCaret
              then Ok (Some (start, end_after words s end_))
              else locate_caret range' (j + 1) (k_after s) start
                     (end_after words s end_) numCarets
            else locate_caret range' (j + 1) k start end_ numCarets
        end
  end.

End CaretLocator.

(** [PatternMgr.caret] *)
Definition caret_ {T : Type} (self : PatternMgr T) (caretType : string)
  (pattern that topic : string) (index_ : Z) : res string :=
  let input_ :=
    Text.collapse_ws (Text.strip_punct (Text.upper pattern)) in
  let that := that_of that in
  let thatInput := Text.collapse_ws (Text.strip_punct (Text.upper that)) in
  let topic := topic_of topic in
  let topicInput := Text.collapse_ws (Text.strip_punct (Text.upper topic)) in
  m <- _match (_botName self) (Node (_root self))
         (Text.split input_) (Text.split thatInput) (Text.split topicInput) ;;
  match m with
  | None => Ok EmptyString
  | Some (patMatch, _) =>
      if String.eqb caretType "caret" then
        n <- index _THAT patMatch ;;
        let patMatch := firstn n patMatch in
        let words := Text.split input_ in
        r <- locate_caret patMatch words index_
               (seq 0 (length words)) 0 0 0 0%Z 0 ;;
        match r with
        | Some (start, end_) =>
            Ok (Text.join
                  (slice (Text.split pattern) start (Z.to_nat (end_ + 1))))
        | None => Ok EmptyString
        end
      else Raise ValueError
  end.

Section CaretAgrees.

Variables (patMatch words : list string).
Variable index_ : Z.
Hypothesis no_star : Forall (fun key => starry key = false) patMatch.

Lemma locate_caret_as_locate range :
  forall j k start end_ numStars numCarets,
    locate_caret patMatch words index_ range j k start end_ numCarets
    = locate patMatch words caret index_ range j k start end_ numStars numCarets.
Proof.
  induction range as [|i range IH]; intros j k start end_ numStars numCarets;
    [reflexivity|].
  cbn [locate_caret locate].
  destruct (i <? k); [apply IH|].
  destruct (j =? length patMatch); [reflexivity|].
  destruct (nth_error patMatch j) as [p|] eqn:Ep; [|reflexivity].
  assert (Hp : starry p = false).
  { rewrite Forall_forall in no_star. apply no_star.
    eapply nth_error_In; eauto. }
  change (String.eqb p _STAR || String.eqb p _UNDERSCORE) with (starry p).
  rewrite Hp. destruct (String.eqb p _CARET); [|apply IH].
  destruct (scan patMatch words j (seq i (length words - i)) k) as [s|e];
    [|reflexivity].
  cbn [bind has_caret]. rewrite andb_true_r.
  destruct (Z.of_nat (numCarets + 1) =? index_)%Z; [reflexivity | apply IH].
Qed.

End CaretAgrees.

(** X9.  [caret] with the type "caret" returns what [wildcard] of the
    kind "caret" returns, whenever the part of the matched path before
    [_THAT] has no star and no underscore; without a match both return the
    empty text, and without [_THAT] in the path both raise [ValueError]. *)
Theorem caret_as_wildcard {T : Type} (self : PatternMgr T)
  (pattern that topic : string) (i : Z) :
  (forall path t n,
     _match (_botName self) (Node (_root self)) (input_words pattern)
       (that_words that) (topic_words topic) = Ok (Some (path, t)) ->
     index _THAT path = Ok n ->
     Forall (fun key => starry key = false) (firstn n path)) ->
  caret_ self "caret" pattern that topic i
  = wildcard self "caret" pattern that topic i.
Proof.
  intros H. unfold caret_, wildcard. cbv zeta.
  change (Text.split (Text.collapse_ws (Text.strip_punct (Text.upper pattern))))
    with (input_words pattern).
  change (Text.split (Text.collapse_ws
            (Text.strip_punct (Text.upper (that_of that)))))
    with (that_words that).
  change (Text.split (Text.collapse_ws
            (Text.strip_punct (Text.upper (topic_of topic)))))
    with (topic_words topic).
  destruct (_match (_botName self) (Node (_root self)) (input_words pattern)
              (that_words that) (topic_words topic)) as [[[path t]|]|e] eqn:Em;
    cbn [bind]; try reflexivity.
  change (String.eqb "caret" "caret") with true.
  change (wildcardType_of "caret") with (Some caret). cbv iota.
  unfold portion.
  destruct (index _THAT path) as [n|e] eqn:En; cbn [bind]; [|reflexivity].
  rewrite (locate_caret_as_locate _ _ _ (H path t n eq_refl En) _ 0 0 0 0%Z 0 0).
  reflexivity.
Qed.

(** An unknown type is looked at after the match, as in [wildcard]. *)
Lemma caret_unknown_type {T : Type} (self : PatternMgr T)
  (caretType pattern that topic : string) (i : Z) :
  String.eqb caretType "caret" = false ->
  caret_ self caretType pattern that topic i = Ok EmptyString \/
  caret_ self caretType pattern that topic i = Raise ValueError \/
  exists e, caret_ self caretType pattern that topic i = Raise e /\
            _match (_botName self) (Node (_root self)) (input_words pattern)
              (that_words that) (topic_words topic) = Raise e.
Proof.
  intros Hk. unfold caret_. cbv zeta.
  change (Text.split (Text.collapse_ws (Text.strip_punct (Text.upper pattern))))
    with (input_words pattern).
  change (Text.split (Text.collapse_ws
            (Text.strip_punct (Text.upper (that_of that)))))
    with (that_words that).
  change (Text.split (Text.collapse_ws
            (Text.strip_punct (Text.upper (topic_of topic)))))
    with (topic_words topic).
  destruct (_match (_botName self) (Node (_root self)) (input_words pattern)
              (that_words that) (topic_words topic)) as [[[path t]|]|e];
    cbn [bind].
  - rewrite Hk. auto.
  - auto.
  - right; right. eauto.
Qed.

(** With a star before the caret the two differ. *)
Definition star_caret_store : PatternMgr string :=
  store_of [("* X ^", "*", empty, "T")].

Example caret_differs_from_wildcard :
  wildcard star_caret_store "caret" "a b x c d" empty empty 1%Z = Ok "c d" /\
  caret_ star_caret_store "caret" "a b x c d" empty empty 1%Z = Ok "x c d".
Proof. split; vm_compute; reflexivity. Qed.


(** ** A pattern and its own words *)

Module JoinFacts.

Import Text TextFacts.

Definition plain (w : string) : Prop :=
  w <> EmptyString /\ Forall (fun c => is_space c = false) (chars w).

Lemma split_go_run cs : forall acc rest,
  Forall (fun c => is_space c = false) cs ->
  split_go acc (cs ++ rest) = split_go (rev cs ++ acc) rest.
Proof.
  induction cs as [|c cs IH]; intros acc rest H; [reflexivity|].
  inversion H as [|? ? Hc Hcs]; subst. simpl. rewrite Hc.
  rewrite IH by assumption. now rewrite <- app_assoc.
Qed.

Lemma chars_nonempty w : w <> EmptyString -> chars w <> [].
Proof. destruct w; [contradiction | discriminate]. Qed.

Lemma split_go_plain w rest :
  plain w ->
  split_go [] (chars w ++ " "%char :: rest) = w :: split_go [] rest /\
  split_go [] (chars w) = [w].
Proof.
  intros [Hne Hcs].
  assert (Hrev : rev (chars w) <> []).
  { intros E. apply (f_equal (@rev ascii)) in E.
    rewrite rev_involutive in E. now apply chars_nonempty in E. }
  assert (Hw : text (rev (rev (chars w) ++ [])) = w).
  { now rewrite app_nil_r, rev_involutive, text_chars. }
  split.
  - rewrite split_go_run by assumption. cbn [split_go].
    rewrite space_is_space, Hw.
    destruct (rev (chars w) ++ []) eqn:E; [|reflexivity].
    rewrite app_nil_r in E. contradiction.
  - rewrite <- (app_nil_r (chars w)) at 1.
    rewrite split_go_run by assumption. cbn [split_go]. rewrite Hw.
    destruct (rev (chars w) ++ []) eqn:E; [|reflexivity].
    rewrite app_nil_r in E. contradiction.
Qed.

Lemma chars_join_cons w w' ws :
  chars (join (w :: w' :: ws)) = chars w ++ " "%char :: chars (join (w' :: ws)).
Proof.
  change (join (w :: w' :: ws))
    with (w ++ String " "%char (join (w' :: ws)))%string.
  now rewrite chars_append.
Qed.

(** [' '.join(ws).split()] is [ws]. *)
Lemma split_join ws : Forall plain ws -> split (join ws) = ws.
Proof.
  unfold split. induction 1 as [|w ws Hw Hws IH]; [reflexivity|].
  destruct ws as [|w' ws].
  - apply (split_go_plain w []); assumption.
  - rewrite chars_join_cons.
    destruct (split_go_plain w (chars (join (w' :: ws))) Hw) as [-> _].
    now rewrite IH.
Qed.

Lemma In_chars_join c ws :
  In c (chars (join ws)) ->
  c = " "%char \/ exists w, In w ws /\ In c (chars w).
Proof.
  induction ws as [|w ws IH]; [intros []|].
  destruct ws as [|w' ws].
  - intros H. right. exists w. split; [now left | exact H].
  - rewrite chars_join_cons. intros H. apply in_app_or in H as [H|[H|H]].
    + right. exists w. split; [now left | exact H].
    + now left.
    + destruct (IH H) as [E|(w0 & Hw0 & Hc)]; [now left|].
      right. exists w0. split; [now right | exact Hc].
Qed.

Lemma map_fixed {A : Type} (f : A -> A) l :
  (forall x, In x l -> f x = x) -> map f l = l.
Proof.
  induction l as [|x l IH]; intros H; [reflexivity|]. simpl.
  rewrite H by now left. f_equal. apply IH. intros y Hy. apply H. now right.
Qed.

Lemma upper_char_fixed c : is_lower c = false -> upper_char c = c.
Proof. destruct c as [[] [] [] [] [] [] [] []]; try reflexivity; discriminate. Qed.

Lemma normalized_word_chars w c :
  normalized_word w = true -> In c (chars w) ->
  is_space c = false /\ is_punct c = false /\ is_lower c = false.
Proof.
  unfold normalized_word. intros H Hc. apply andb_prop in H as [_ H].
  rewrite forallb_forall in H. specialize (H c Hc).
  apply negb_true_iff in H. apply orb_false_elim in H as [H Hl].
  apply orb_false_elim in H as [Hs Hp]. auto.
Qed.

Lemma normalized_word_plain w : normalized_word w = true -> plain w.
Proof.
  intros H. split.
  - intros ->. discriminate H.
  - apply Forall_forall. intros c Hc.
    now destruct (normalized_word_chars w c H Hc).
Qed.

(** The normalization leaves a text of normalized words as it is. *)
Lemma normalize_join ws :
  Forall (fun w => normalized_word w = true) ws ->
  strip_punct (upper (join ws)) = join ws.
Proof.
  intros H. rewrite Forall_forall in H.
  assert (Hc : forall c, In c (chars (join ws)) ->
                         is_punct c = false /\ is_lower c = false).
  { intros c Hin. apply In_chars_join in Hin as [->|(w & Hw & Hin)].
    - split; reflexivity.
    - now destruct (normalized_word_chars w c (H w Hw) Hin) as (_ & ? & ?). }
  assert (Hu : upper (join ws) = join ws).
  { unfold upper. rewrite map_fixed; [apply text_chars|].
    intros c Hin. apply upper_char_fixed. now apply Hc. }
  rewrite Hu. unfold strip_punct. rewrite map_fixed; [apply text_chars|].
  intros c Hin. destruct (Hc c Hin) as [-> _]. reflexivity.
Qed.

Lemma lstrip_app_nonspace l c :
  is_space c = false -> lstrip (l ++ [c]) <> [].
Proof.
  intros Hc. induction l as [|x l IH]; simpl.
  - now rewrite Hc.
  - destruct (is_space x); [exact IH | discriminate].
Qed.

(** A text that starts with a character that is no white space is not
    blank. *)
Lemma strip_join_nonempty w ws :
  plain w -> strip (join (w :: ws)) <> EmptyString.
Proof.
  intros [Hne Hcs].
  assert (Hstart : exists c l, chars (join (w :: ws)) = c :: l /\
                               is_space c = false).
  { destruct (chars w) as [|c l] eqn:E; [now apply chars_nonempty in E|].
    inversion Hcs as [|? ? Hc _]; subst.
    destruct ws as [|w' ws].
    - exists c, l. now split.
    - rewrite chars_join_cons, E. eexists c, _. now split. }
  destruct Hstart as (c & l & E & Hc).
  unfold strip. rewrite E. cbn [lstrip]. rewrite Hc. cbn [rev].
  intros H. apply (f_equal chars) in H. rewrite chars_text in H.
  simpl in H. apply (f_equal (@rev ascii)) in H.
  rewrite rev_involutive in H. simpl in H.
  now apply (lstrip_app_nonspace (rev l) c Hc).
Qed.

End JoinFacts.


Section OwnWords.

Import JoinFacts.

Context {T : Type}.
Variable botName : string.

(** The store of one call of [add] on the empty store. *)
Fixpoint chain (keys : list string) (t : T) : dict T :=
  match keys with
  | [] => [(_TEMPLATE, Tmpl t)]
  | k :: keys' => [(k, Node (chain keys' t))]
  end.

Lemma put_chain keys (t : T) : put keys t [] = Ok (chain keys t, true).
Proof.
  induction keys as [|k keys IH]; [reflexivity|].
  simpl. rewrite IH. reflexivity.
Qed.

Fixpoint prepend_all (ws : list string) (r : res (option (found T)))
  : res (option (found T)) :=
  match ws with
  | [] => r
  | w :: ws' => prepend w (prepend_all ws' r)
  end.

Lemma prepend_all_success ws path (t : value T) :
  prepend_all ws (Ok (Some (path, t))) = Ok (Some (ws ++ path, t)).
Proof.
  induction ws as [|w ws IH]; [reflexivity|].
  cbn [prepend_all]. now rewrite IH.
Qed.

Lemma prepend_all_none ws :
  prepend_all ws (Ok None) = @Ok (option (found T)) None.
Proof.
  induction ws as [|w ws IH]; [reflexivity|].
  cbn [prepend_all]. now rewrite IH.
Qed.

Lemma get_other_key k k' (v : value T) :
  k <> k' -> get k [(k', v)] = None.
Proof.
  intros H. simpl. destruct (String.eqb_spec k k'); [contradiction|reflexivity].
Qed.

Lemma get_this_key k (v : value T) : get k [(k, v)] = Some v.
Proof. simpl. now rewrite String.eqb_refl. Qed.

(** Along a chain of words that are no special keys, the matcher takes the
    words of the input one by one. *)
Lemma _match_chain ws : forall rest (t : T) thatWords topicWords,
  Forall (fun w => ~ In w sentinel_keys) ws ->
  _match botName (Node (chain (ws ++ rest) t)) ws thatWords topicWords
  = prepend_all ws
      (_match botName (Node (chain rest t)) [] thatWords topicWords).
Proof.
  induction ws as [|w ws IH]; intros rest t thatWords topicWords H;
    [reflexivity|].
  inversion H as [|? ? Hw Hws]; subst.
  assert (Hne : forall k, In k sentinel_keys -> k <> w)
    by (intros k Hk ->; contradiction).
  cbn [app chain]. rewrite _match_cons.
  unfold attempt_underscore, attempt_first, attempt_bot_name, attempt_caret,
    attempt_star, via.
  rewrite (get_other_key _UNDERSCORE), (get_other_key _BOT_NAME),
    (get_other_key _CARET), (get_other_key _STAR)
    by (apply Hne; cbn; tauto).
  rewrite get_this_key, IH by assumption.
  cbn [first_success prepend_all].
  destruct (String.eqb w botName);
    destruct (prepend w _) as [[?|]|?]; reflexivity.
Qed.

Lemma end_of_chain (t : T) thatWords topicWords :
  _match botName (Node (chain [] t)) [] thatWords topicWords
  = Ok (Some ([], Tmpl t)).
Proof.
  rewrite _match_nil. unfold end_of_input. cbn [chain].
  rewrite (get_other_key _CARET), (get_other_key _THAT),
    (get_other_key _TOPIC) by discriminate.
  destruct thatWords; [destruct topicWords|]; reflexivity.
Qed.

(** The match of the words of a topic along their chain. *)
Lemma _match_topic_chain pws (t : T) :
  Forall (fun w => ~ In w sentinel_keys) pws ->
  _match botName (Node (chain pws t)) pws [] [] = Ok (Some (pws, Tmpl t)).
Proof.
  intros H. rewrite <- (app_nil_r pws) at 1.
  rewrite _match_chain, end_of_chain, prepend_all_success by assumption.
  now rewrite app_nil_r.
Qed.

(** The match of the words of a that, and of a topic after them. *)
Lemma _match_that_chain tws pws (t : T) topicWords :
  Forall (fun w => ~ In w sentinel_keys) tws ->
  Forall (fun w => ~ In w sentinel_keys) pws ->
  (pws = [] \/ (pws <> [] /\ topicWords = pws)) ->
  let rest := match pws with [] => [] | _ :: _ => _TOPIC :: pws end in
  _match botName (Node (chain (tws ++ rest) t)) tws [] topicWords
  = Ok (Some (tws ++ rest, Tmpl t)).
Proof.
  intros Htws Hpws Hcase rest. rewrite _match_chain by assumption.
  destruct pws as [|p pws]; subst rest.
  - now rewrite end_of_chain, prepend_all_success.
  - destruct Hcase as [|[_ ->]]; [discriminate|].
    rewrite _match_nil.
    change (chain (_TOPIC :: p :: pws) t)
      with [(_TOPIC, Node (chain (p :: pws) t))].
    unfold end_of_input.
    rewrite (get_other_key _CARET) by discriminate.
    rewrite get_this_key, _match_topic_chain by assumption.
    cbn [prepend]. now rewrite prepend_all_success.
Qed.

End OwnWords.


Section AddThenMatch.

Import Text TextFacts JoinFacts.

Context {T : Type}.

(** Normalized words that are none of the special keys. *)
Definition ordinary (ws : list string) : Prop :=
  Forall (fun w => normalized_word w = true /\ ~ In w sentinel_keys) ws.

(** Words of ASCII characters, on which [Text.upper] is [str.upper]. *)
Definition ascii_words (ws : list string) : Prop :=
  Forall (fun w => forallb (fun c => nat_of_ascii c <? 128) (chars w) = true)
    ws.

Lemma ordinary_normalized ws :
  ordinary ws -> Forall (fun w => normalized_word w = true) ws.
Proof. apply Forall_impl. now intros w [H _]. Qed.

Lemma ordinary_not_sentinel ws :
  ordinary ws -> Forall (fun w => ~ In w sentinel_keys) ws.
Proof. apply Forall_impl. now intros w [_ H]. Qed.

Lemma ordinary_plain ws : ordinary ws -> Forall plain ws.
Proof. apply Forall_impl. intros w [H _]. now apply normalized_word_plain. Qed.

Lemma join_not_empty w ws : plain w -> join (w :: ws) <> EmptyString.
Proof.
  intros [Hne _]. destruct w as [|c w]; [contradiction|].
  destruct ws; discriminate.
Qed.

Lemma length_positive s : s <> EmptyString -> (0 <? String.length s) = true.
Proof. destruct s; [contradiction | reflexivity]. Qed.

(** A section of the keys of [add]: nothing for an empty text. *)
Definition section_keys (k : string) (ws : list string) : list string :=
  match ws with
  | [] => []
  | _ :: _ => k :: ws
  end.

Lemma add_keys_join ws tws pws :
  ordinary ws -> ordinary tws -> ordinary pws ->
  add_keys (join ws, join tws, join pws)
  = ws ++ section_keys _THAT tws ++ section_keys _TOPIC pws.
Proof.
  intros Hws Htws Hpws. unfold add_keys.
  rewrite !split_join by now apply ordinary_plain.
  destruct (keys_of_words ws (ordinary_normalized _ Hws)) as [-> _].
  destruct (keys_of_words tws (ordinary_normalized _ Htws)) as [_ ->].
  destruct (keys_of_words pws (ordinary_normalized _ Hpws)) as [_ ->].
  f_equal. f_equal.
  - destruct tws as [|w tws]; [reflexivity|].
    rewrite length_positive; [reflexivity|]. apply join_not_empty.
    apply ordinary_plain in Htws. now inversion Htws.
  - destruct pws as [|w pws]; [reflexivity|].
    rewrite length_positive; [reflexivity|]. apply join_not_empty.
    apply ordinary_plain in Hpws. now inversion Hpws.
Qed.

Lemma words_of_join ws :
  ordinary ws -> split (strip_punct (upper (join ws))) = ws.
Proof.
  intros H. rewrite normalize_join by now apply ordinary_normalized.
  apply split_join. now apply ordinary_plain.
Qed.

Lemma or_dummy_join dummy w ws :
  ordinary (w :: ws) -> or_dummy dummy (join (w :: ws)) = join (w :: ws).
Proof.
  intros H. unfold or_dummy.
  destruct (String.eqb_spec (strip (join (w :: ws))) EmptyString) as [E|_];
    [|reflexivity].
  exfalso. revert E. apply strip_join_nonempty.
  apply ordinary_plain in H. now inversion H.
Qed.

Lemma match_words_of_join ws :
  ws <> [] -> ordinary ws -> input_words_of_match (join ws) = ws.
Proof. intros _. apply words_of_join. Qed.

Lemma that_words_of_join tws :
  ordinary tws ->
  that_words (join tws)
  = match tws with [] => ["ULTRABOGUSDUMMYTHAT"] | _ :: _ => tws end.
Proof.
  intros H. destruct tws as [|w tws]; [reflexivity|].
  unfold that_words, that_of. rewrite or_dummy_join by assumption.
  rewrite split_collapse_ws. now apply words_of_join.
Qed.

Lemma topic_words_of_join pws :
  ordinary pws ->
  topic_words_of_match (join pws)
  = match pws with [] => ["ULTRABOGUSDUMMYTOPIC"] | _ :: _ => pws end.
Proof.
  intros H. destruct pws as [|w pws]; [reflexivity|].
  unfold topic_words_of_match, topic_of. rewrite or_dummy_join by assumption.
  now apply words_of_join.
Qed.

Lemma add_to_empty (data : string * string * string) (t : T) :
  add init data t
  = Ok {| _root := chain (add_keys data) t; _templateCount := 1;
          _botName := "Nameless" |}.
Proof. unfold add. cbn [init _root]. now rewrite put_chain. Qed.

(** X12.  A pattern of ordinary words (normalized words that are none of
    the special keys) of ASCII characters, with a that and a topic of such
    words or without them (but not with a topic and no that), added to the
    empty store, is matched by its own texts, and the path of the match is
    the list of the keys of the call. *)
Theorem add_then_match (ws tws pws : list string) (t : T) :
  ws <> [] -> ordinary ws -> ordinary tws -> ordinary pws ->
  ascii_words ws -> ascii_words tws -> ascii_words pws ->
  (tws = [] -> pws = []) ->
  exists self,
    add init (join ws, join tws, join pws) t = Ok self /\
    match_ self (join ws) (join tws) (join pws)
    = Ok (Some (add_keys (join ws, join tws, join pws), Tmpl t)).
Proof.
  intros Hne Hws Htws Hpws _ _ _ Hsect.
  eexists. split; [apply add_to_empty|].
  rewrite match_as__match
    by (destruct ws as [|w ws]; [contradiction|];
        apply join_not_empty; apply ordinary_plain in Hws; now inversion Hws).
  cbn [_root _botName].
  rewrite match_words_of_join, that_words_of_join, topic_words_of_join
    by assumption.
  rewrite add_keys_join by assumption.
  rewrite _match_chain by now apply ordinary_not_sentinel.
  destruct tws as [|tw tws].
  - rewrite (Hsect eq_refl). cbn [section_keys app].
    now rewrite end_of_chain, prepend_all_success.
  - rewrite _match_nil.
    change (chain (section_keys _THAT (tw :: tws) ++ section_keys _TOPIC pws) t)
      with [(_THAT, Node (chain ((tw :: tws) ++ section_keys _TOPIC pws) t))].
    unfold end_of_input.
    rewrite (get_other_key _CARET) by discriminate.
    rewrite get_this_key.
    assert (Hcase : pws = [] \/
              (pws <> [] /\
               match pws with
               | [] => ["ULTRABOGUSDUMMYTOPIC"]
               | _ :: _ => pws
               end = pws)).
    { destruct pws; [now left | right; split; [discriminate|reflexivity]]. }
    assert (E := _match_that_chain "Nameless" (tw :: tws) pws t _
                   (ordinary_not_sentinel _ Htws)
                   (ordinary_not_sentinel _ Hpws) Hcase).
    cbv zeta in E.
    change (section_keys _TOPIC pws)
      with (match pws with [] => [] | _ :: _ => _TOPIC :: pws end).
    rewrite E. cbn [prepend]. apply (prepend_all_success ws).
Qed.

(** X13.  A pattern of ordinary words added to the empty store with a
    topic of ordinary words and without that is matched by no call whose
    that has a word: at the end of the utterance the matcher looks for the
    that section, and does not look for the topic section. *)
Theorem topic_without_that_is_not_matched (ws pws : list string) (t : T)
  (that : string) :
  ws <> [] -> ordinary ws -> ordinary pws -> pws <> [] ->
  that_words that <> [] ->
  exists self,
    add init (join ws, empty, join pws) t = Ok self /\
    stored self (join ws, empty, join pws) t /\
    match_ self (join ws) that (join pws) = Ok None.
Proof.
  intros Hne Hws Hpws Hpne Hthat.
  assert (Hadd := add_to_empty (join ws, empty, join pws) t).
  eexists. split; [exact Hadd|].
  split; [exact (add_stored _ _ _ _ Hadd)|].
  rewrite match_as__match
    by (destruct ws as [|w ws]; [contradiction|];
        apply join_not_empty; apply ordinary_plain in Hws; now inversion Hws).
  cbn [_root _botName].
  rewrite match_words_of_join, topic_words_of_join by assumption.
  change empty with (join []).
  rewrite add_keys_join by (try assumption; constructor).
  rewrite _match_chain by now apply ordinary_not_sentinel.
  destruct pws as [|p pws]; [contradiction|].
  destruct (that_words that) as [|tw tws]; [contradiction|].
  rewrite _match_nil.
  change (chain (section_keys _THAT [] ++ section_keys _TOPIC (p :: pws)) t)
    with [(_TOPIC, Node (chain (p :: pws) t))].
  unfold end_of_input, template_here.
  rewrite (get_other_key _CARET), (get_other_key _THAT),
    (get_other_key _TEMPLATE) by discriminate.
  apply prepend_all_none.
Qed.

End AddThenMatch.

(** ** The name that [setBotName] stores *)

Lemma split_plain (s : string) : Forall JoinFacts.plain (Text.split s).
Proof.
  eapply Forall_impl; [|apply (TextFacts.split_words (fun _ => True))].
  - intros w [Hne Hcs]. split; [exact Hne|].
    eapply Forall_impl; [|exact Hcs]. now intros c [Hc _].
  - auto.
Qed.

(** X14.  The name that [setBotName] stores has the words of the name
    given, and [setBotName] with the stored name changes nothing. *)
Theorem setBotName_collapses {T : Type} (self : PatternMgr T) (name : string) :
  Text.split (_botName (setBotName self name)) = Text.split name /\
  setBotName (setBotName self name) (_botName (setBotName self name))
  = setBotName self name.
Proof.
  assert (E : Text.split (Text.join (Text.split name)) = Text.split name)
    by (apply JoinFacts.split_join, split_plain).
  split; [exact E|]. unfold setBotName. cbn [_root _templateCount _botName].
  now rewrite E.
Qed.

(** A name of two words or more is no normalized word. *)
Lemma several_words_not_normalized (w w' : string) (ws : list string) :
  normalized_word (Text.join (w :: w' :: ws)) = false.
Proof.
  destruct (normalized_word (Text.join (w :: w' :: ws))) eqn:E; [|reflexivity].
  assert (Hin : In " "%char (Text.chars (Text.join (w :: w' :: ws)))).
  { rewrite JoinFacts.chars_join_cons. apply in_or_app. right. now left. }
  destruct (JoinFacts.normalized_word_chars _ _ E Hin) as [H _].
  discriminate H.
Qed.

(** ** The properties at work *)

Definition hello_store : PatternMgr string :=
  store_of [("HELLO", empty, empty, "T1")].

Lemma hello_store_built :
  add_all init [("HELLO", empty, empty, "T1")] = Ok hello_store.
Proof. vm_compute. reflexivity. Qed.

Lemma no_template_key_in (keys : list string) :
  forallb (fun k => negb (String.eqb k _TEMPLATE)) keys = true ->
  ~ In _TEMPLATE keys.
Proof.
  intros H Hin. rewrite forallb_forall in H. specialize (H _ Hin).
  now rewrite String.eqb_refl in H.
Qed.


Lemma add_stores_the_template_witness :
  stored hello_store ("HELLO", empty, empty) "T1".
Proof.
  apply (add_stores_the_template init hello_store). vm_compute. reflexivity.
Defined.


Lemma add_again_replaces_witness :
  exists self2,
    add hello_store ("HELLO", empty, empty) "T9" = Ok self2 /\
    numTemplates self2 = numTemplates hello_store /\
    stored self2 ("HELLO", empty, empty) "T9".
Proof.
  apply (add_again_replaces init hello_store ("HELLO", empty, empty) "T1" "T9").
  vm_compute. reflexivity.
Defined.

Lemma match_raises_nothing_witness :
  is_ok (match_ hello_store "hello there" "How are you?" empty).
Proof.
  apply (match_raises_nothing [("HELLO", empty, empty, "T1")]).
  - repeat constructor. now apply no_template_key_in.
  - exact hello_store_built.
  - now apply no_template_key_in.
  - now apply no_template_key_in.
  - now apply no_template_key_in.
Defined.

Lemma wildcard_follows_match_witness :
  wildcard hello_store "star" "bye" empty empty 1%Z = Ok EmptyString.
Proof.
  apply (wildcard_follows_match hello_store "star" "bye" empty empty 1%Z).
  - discriminate.
  - vm_compute. reflexivity.
Defined.

Lemma wildcard_index_range_witness :
  exists path t w,
    _match (_botName underscore_b_star_store)
      (Node (_root underscore_b_star_store)) (input_words "a b c d")
      (that_words empty) (topic_words empty) = Ok (Some (path, t)) /\
    wildcardType_of "star" = Some w /\
    (1 <= 2 <= Z.of_nat (count_counted w path))%Z.
Proof.
  apply (wildcard_index_range underscore_b_star_store "star" "a b c d"
           empty empty 2%Z "c d").
  - vm_compute. reflexivity.
  - discriminate.
Defined.

Definition caret_cats_store : PatternMgr string :=
  store_of [("^ CATS", "*", empty, "T5")].

Lemma caret_as_wildcard_witness :
  caret_ caret_cats_store "caret" "i love cats" empty empty 1%Z
  = wildcard caret_cats_store "caret" "i love cats" empty empty 1%Z.
Proof.
  apply (caret_as_wildcard caret_cats_store "i love cats" empty empty 1%Z).
  intros path t n Hm Hn. vm_compute in Hm. injection Hm as <- _.
  vm_compute in Hn. injection Hn as <-. repeat constructor.
Defined.

Example caret_cats :
  caret_ caret_cats_store "caret" "i love cats" empty empty 1%Z = Ok "i love".
Proof. vm_compute. reflexivity. Qed.

Lemma bot_name_edge_is_dead_witness :
  keys_only (Node (_root alice_store)) [_BOT_NAME; "ROCKS"] (Tmpl "T7") /\
  match_ {| _root := _root alice_store;
            _templateCount := _templateCount alice_store;
            _botName := "Nameless" |} "alice rocks" empty empty
  = match_ alice_store "alice rocks" empty empty.
Proof.
  split.
  - apply (proj2 (bot_name_edge_is_dead alice_store "5 rocks" empty empty
                    eq_refl)).
    vm_compute. reflexivity.
  - apply (proj1 (bot_name_edge_is_dead alice_store "alice rocks" empty empty
                    eq_refl)).
    reflexivity.
Defined.

Lemma ordinary_by_computation (ws : list string) :
  forallb (fun w => normalized_word w &&
                    negb (existsb (String.eqb w) sentinel_keys)) ws = true ->
  ordinary ws.
Proof.
  intros H. apply Forall_forall. intros w Hw.
  rewrite forallb_forall in H. specialize (H w Hw).
  apply andb_prop in H as [Hn Hs]. split; [exact Hn|].
  intros Hin. apply negb_true_iff in Hs.
  assert (E : existsb (String.eqb w) sentinel_keys = true).
  { apply existsb_exists. exists w. split; [exact Hin | apply String.eqb_refl]. }
  congruence.
Qed.

Lemma ascii_words_by_computation (ws : list string) :
  forallb (fun w => forallb (fun c => nat_of_ascii c <? 128) (Text.chars w)) ws
  = true ->
  ascii_words ws.
Proof.
  intros H. apply Forall_forall. intros w Hw.
  rewrite forallb_forall in H. exact (H w Hw).
Qed.

Lemma add_then_match_witness :
  exists self,
    add init ("HELLO WORLD", "HOW ARE YOU", empty) "T6" = Ok self /\
    match_ self "HELLO WORLD" "HOW ARE YOU" empty
    = Ok (Some (["HELLO"; "WORLD"; _THAT; "HOW"; "ARE"; "YOU"], Tmpl "T6")).
Proof.
  apply (add_then_match ["HELLO"; "WORLD"] ["HOW"; "ARE"; "YOU"] [] "T6");
    try (now apply ordinary_by_computation);
    try (now apply ascii_words_by_computation).
  - discriminate.
  - reflexivity.
Defined.

Lemma topic_without_that_is_not_matched_witness :
  exists self,
    add init ("HELLO", empty, "SPORTS") "T8" = Ok self /\
    stored self ("HELLO", empty, "SPORTS") "T8" /\
    match_ self "HELLO" empty "SPORTS" = Ok None.
Proof.
  apply (topic_without_that_is_not_matched ["HELLO"] ["SPORTS"] "T8" empty);
    try (now apply ordinary_by_computation); discriminate.
Defined.

(** ** A match reads the input *)

Section ReadsTheInput.

Context {T : Type}.
Variable botName : string.

(** [reads path words thatWords topicWords]: the path takes the words in
    their order.  A star or an underscore takes one word or more, a caret
    any number of words, any other element of the path the word equal to
    it; after the last word the path may go on with carets, with [_THAT]
    and the words of the that, and with [_TOPIC] and the words of the
    topic. *)
Inductive reads : list string -> list string -> list string -> list string -> Prop :=
| reads_end thatWords topicWords :
    reads [] [] thatWords topicWords
| reads_last_caret path thatWords topicWords :
    reads path [] thatWords topicWords ->
    reads (_CARET :: path) [] thatWords topicWords
| reads_that path w thatWords topicWords :
    reads path (w :: thatWords) [] topicWords ->
    reads (_THAT :: path) [] (w :: thatWords) topicWords
| reads_topic path w topicWords :
    reads path (w :: topicWords) [] [] ->
    reads (_TOPIC :: path) [] [] (w :: topicWords)
| reads_underscore path first suffix j thatWords topicWords :
    reads path (skipn j suffix) thatWords topicWords ->
    reads (_UNDERSCORE :: path) (first :: suffix) thatWords topicWords
| reads_word path first suffix thatWords topicWords :
    reads path suffix thatWords topicWords ->
    reads (first :: path) (first :: suffix) thatWords topicWords
| reads_caret path first suffix j thatWords topicWords :
    reads path (skipn j (first :: suffix)) thatWords topicWords ->
    reads (_CARET :: path) (first :: suffix) thatWords topicWords
| reads_star path first suffix j thatWords topicWords :
    reads path (skipn j suffix) thatWords topicWords ->
    reads (_STAR :: path) (first :: suffix) thatWords topicWords.

Lemma _match_reads (root : value T) :
  forall words thatWords topicWords path t,
    _match botName root words thatWords topicWords = Ok (Some (path, t)) ->
    reads path words thatWords topicWords.
Proof.
  induction root as [t0|d IH] using value_children_ind;
    intros words thatWords topicWords path t H; [discriminate|].
  assert (Hhere : forall p, template_here d = Ok (Some (p, t)) ->
                            reads p [] thatWords topicWords).
  { intros p Hp. apply template_here_success in Hp as [-> _]. constructor. }
  destruct words as [|first suffix].
  - rewrite _match_nil in H. unfold end_of_input in H.
    destruct (get _CARET d) as [c|] eqn:Ec.
    { apply or_template_here_success in H as [H|H]; [|auto].
      apply prepend_success in H as (q & Hq & ->).
      apply reads_last_caret. eauto. }
    destruct thatWords as [|w ws].
    + destruct topicWords as [|w ws]; [auto|].
      destruct (get _TOPIC d) as [c|] eqn:Et; [|auto].
      apply or_template_here_success in H as [H|H]; [|auto].
      apply prepend_success in H as (q & Hq & ->).
      apply reads_topic. eauto.
    + destruct (get _THAT d) as [c|] eqn:Et; [|auto].
      apply or_template_here_success in H as [H|H]; [|auto].
      apply prepend_success in H as (q & Hq & ->).
      apply reads_that. eauto.
  - rewrite _match_cons in H. apply first_success_In in H.
    unfold attempt_underscore, attempt_first, attempt_bot_name,
      attempt_caret, attempt_star in H.
    cbn [In] in H.
    destruct H as [H|[H|[H|[H|[H|[]]]]]].
    + apply via_success in H as (c & Hc & H).
      apply prepend_success in H as (q & Hq & ->).
      apply try_suffixes_success in Hq as [j Hq].
      apply (reads_underscore _ _ _ j). eauto.
    + apply via_success in H as (c & Hc & H).
      apply prepend_success in H as (q & Hq & ->).
      apply reads_word. eauto.
    + destruct (String.eqb first botName); [|discriminate].
      apply via_success in H as (c & Hc & H).
      apply prepend_success in H as (q & Hq & ->).
      apply reads_word. eauto.
    + apply via_success in H as (c & Hc & H).
      apply prepend_success in H as (q & Hq & ->).
      apply try_suffixes_success in Hq as [j Hq].
      apply (reads_caret _ _ _ j). eauto.
    + apply via_success in H as (c & Hc & H).
      apply prepend_success in H as (q & Hq & ->).
      apply try_suffixes_success in Hq as [j Hq].
      apply (reads_star _ _ _ j). eauto.
Qed.

Lemma reads_words_only path words thatWords topicWords :
  reads path words thatWords topicWords ->
  Forall (fun key => ~ In key sentinel_keys) path ->
  path = words.
Proof.
  induction 1 as [| | | | | path first suffix thatWords topicWords _ IH | |];
    intros Hpath; try reflexivity;
    try (exfalso; inversion Hpath as [|? ? Hkey _]; subst;
         apply Hkey; cbn; tauto).
  inversion Hpath; subst. f_equal. auto.
Qed.

End ReadsTheInput.

(** X15.  The path of a match takes the words of the utterance in their
    order: every word is equal to the element of the path that takes it,
    or lies in the span of a caret, or of a star or an underscore, whose
    spans are not empty; the that and the topic are read after [_THAT] and
    [_TOPIC] in the same way.  In particular a path without special keys
    is the list of the words of the utterance. *)
Theorem match_reads_the_input {T : Type} (self : PatternMgr T)
  (pattern that topic : string) (path : list string) (t : value T) :
  match_ self pattern that topic = Ok (Some (path, t)) ->
  reads path (input_words_of_match pattern) (that_words that)
    (topic_words_of_match topic) /\
  (Forall (fun key => ~ In key sentinel_keys) path ->
   path = input_words_of_match pattern).
Proof.
  unfold match_. destruct (String.length pattern =? 0); [discriminate|].
  intros H. apply _match_reads in H. split; [exact H|].
  intros Hpath. exact (reads_words_only _ _ _ _ H Hpath).
Qed.

(** ** A stored pattern of words without a competitor *)

Section WordsWin.

Context {T : Type}.
Variable botName : string.

(** No node on the way of [ws] from [d] has an underscore child. *)
Fixpoint no_underscore_along (ws : list string) (d : dict T) : Prop :=
  match ws with
  | [] => True
  | w :: ws' =>
      get _UNDERSCORE d = None /\
      match get w d with
      | Some (Node c) => no_underscore_along ws' c
      | _ => True
      end
  end.

Lemma _match_words ws : forall (d n : dict T) t w thatWords topicWords,
  node_at ws d = Some n ->
  no_underscore_along ws d ->
  get _CARET n = None -> get _THAT n = None ->
  get _TEMPLATE n = Some t ->
  _match botName (Node d) ws (w :: thatWords) topicWords = Ok (Some (ws, t)).
Proof.
  induction ws as [|first suffix IH];
    intros d n t w thatWords topicWords Hn Hno Hcaret Hthat Ht.
  - simpl in Hn. injection Hn as <-.
    rewrite _match_nil. unfold end_of_input, template_here.
    now rewrite Hcaret, Hthat, Ht.
  - apply node_at_cons in Hn as (c & Hc & Hn).
    destruct Hno as [Hus Hno]. rewrite Hc in Hno.
    rewrite _match_cons. unfold attempt_underscore, attempt_first, via.
    rewrite Hus, Hc, (IH c n t w thatWords topicWords) by assumption.
    reflexivity.
Qed.

End WordsWin.

(** X16.  In every store, a stored pattern of words is matched by an
    utterance with exactly these words, with its path and its template,
    when no node on its way has an underscore child and its last node has
    neither a caret child nor a that section, whatever else the store
    holds, for every that with at least one word (the empty that
    included). *)
Theorem stored_words_win {T : Type} (self : PatternMgr T)
  (pattern that topic : string) (n : dict T) (t : value T) :
  pattern <> EmptyString ->
  that_words that <> [] ->
  node_at (input_words_of_match pattern) (_root self) = Some n ->
  no_underscore_along (input_words_of_match pattern) (_root self) ->
  get _CARET n = None -> get _THAT n = None ->
  get _TEMPLATE n = Some t ->
  match_ self pattern that topic
  = Ok (Some (input_words_of_match pattern, t)).
Proof.
  intros Hne Hthat Hn Hno Hcaret Hth Ht.
  rewrite match_as__match by assumption.
  destruct (that_words that) as [|w ws]; [contradiction|].
  eapply _match_words; eauto.
Qed.

Lemma match_reads_the_input_witness :
  reads ["HELLO"] (input_words_of_match "hello!") (that_words empty)
    (topic_words_of_match empty) /\
  (Forall (fun key => ~ In key sentinel_keys) ["HELLO"] ->
   ["HELLO"] = input_words_of_match "hello!").
Proof.
  apply (match_reads_the_input hello_store "hello!" empty empty ["HELLO"]
           (Tmpl "T1")).
  vm_compute. reflexivity.
Defined.

Definition words_store : PatternMgr string :=
  store_of [ ("HELLO", empty, empty, "T1");
             ("* X", empty, empty, "T3");
             ("HELLO THERE", empty, empty, "T4") ].

Lemma stored_words_win_witness :
  match_ words_store "hello!" empty empty = Ok (Some (["HELLO"], Tmpl "T1")).
Proof.
  apply (stored_words_win words_store "hello!" empty empty
           [(_TEMPLATE, Tmpl "T1");
            ("THERE", Node [(_TEMPLATE, Tmpl "T4")])]);
    try reflexivity; try discriminate.
  vm_compute. auto.
Defined.

(** ** A file that ends early *)

Section Truncated.

Context {T : Type}.
Variable chunk : Type.
Variable marshal_dump : object T -> list chunk.
Variable marshal_load : list chunk -> option (object T * list chunk).

Hypothesis marshal_load_dump :
  forall o rest, marshal_load (marshal_dump o ++ rest) = Some (o, rest).

(** At the end of the file [marshal.load] raises. *)
Hypothesis marshal_load_end : marshal_load [] = None.

(** X17.  [restore] does not undo what it has assigned when a later load
    fails: from a file that holds nothing the store is left as it was; from
    a file that ends after the count the count is replaced; from a file that
    ends after the name of the bot the count and the name are replaced and
    the trie is kept; each time the failure is reported. *)
Theorem restore_from_truncated_file (self other : PatternMgr T) :
  restore chunk marshal_load other [] = (other, Some LoadError) /\
  restore chunk marshal_load other
    (marshal_dump (PyInt (_templateCount self)))
  = ({| _root := _root other; _templateCount := _templateCount self;
        _botName := _botName other |}, Some LoadError) /\
  restore chunk marshal_load other
    (marshal_dump (PyInt (_templateCount self))
     ++ marshal_dump (PyUnicode (_botName self)))
  = ({| _root := _root other; _templateCount := _templateCount self;
        _botName := _botName self |}, Some LoadError).
Proof.
  unfold restore. split; [now rewrite marshal_load_end|]. split.
  - rewrite <- (app_nil_r (marshal_dump (PyInt (_templateCount self)))).
    now rewrite marshal_load_dump, marshal_load_end.
  - rewrite marshal_load_dump.
    rewrite <- (app_nil_r (marshal_dump (PyUnicode (_botName self)))).
    now rewrite marshal_load_dump, marshal_load_end.
Qed.

End Truncated.

Lemma restore_from_truncated_file_witness :
  restore _ one_chunk_load init [] = (@init string, Some LoadError) /\
  restore _ one_chunk_load init
    (one_chunk_dump (PyInt (_templateCount crowded_store)))
  = ({| _root := []; _templateCount := 4; _botName := "Nameless" |},
     Some LoadError) /\
  restore _ one_chunk_load init
    (one_chunk_dump (PyInt (_templateCount crowded_store))
     ++ one_chunk_dump (PyUnicode (_botName crowded_store)))
  = ({| _root := []; _templateCount := 4; _botName := "Nameless" |},
     Some LoadError).
Proof.
  apply (restore_from_truncated_file _ one_chunk_dump one_chunk_load
           (fun o rest => eq_refl) eq_refl crowded_store init).
Defined.
